(** * SecretVoting: the encrypted-tally and disclosure state machine

    A shallow embedding of the [SecretVoting] Solidity contract.  Storage is
    an explicit record, every external function is a computation in a small
    state-and-error monad that also logs the calls made to the FHE library,
    and a transaction wrapper rolls the storage back when the call reverts. *)

From Stdlib Require Import ZArith String List Lia Bool.
From stdpp Require Import base option list gmap.

Local Open Scope Z_scope.

(* ===================================================================== *)
(** ** Machine integers and addresses *)
(* ===================================================================== *)

Definition address := Z.

Definition uint256_max : Z := 2 ^ 256 - 1.
Definition uint32_mod : Z := 2 ^ 32.
Definition uint8_mod : Z := 2 ^ 8.

(** Solidity time units. *)
Definition days (n : Z) : Z := n * 86400.

(** Reading a Solidity mapping: an absent key reads as the zero value. *)
Definition sload {K V} `{Countable K} (zero : V) (m : gmap K V) (k : K) : V :=
  default zero (m !! k).

Fixpoint sumZ (l : list Z) : Z :=
  match l with
  | [] => 0
  | x :: l' => x + sumZ l'
  end.

(* ===================================================================== *)
(** ** Encrypted values

    The encryption library ([FHE.sol]) is an external dependency of the
    contract.  Its handles are modelled as the symbolic terms of the
    operations that produced them, so that two handles are equal exactly
    when they were built the same way, and [decrypt32] gives the plaintext
    a handle stands for.  The contract never calls a decryption
    function. *)
(* ===================================================================== *)

(** Modelled from the spec: the type [externalEuint8] of the encryption
    library, the ciphertext a user submits.  The model carries the
    plaintext it encrypts, a [uint8], which the contract cannot see. *)
Record externalEuint8 := { ext_plain : Z }.

(** Modelled from the spec: the input proof sent with the ciphertext, as
    the library's verifier judges it. *)
Inductive InputProof := ValidProof | InvalidProof.

(** Modelled from the spec: the library's handle types [euint8], [ebool]
    and [euint32].  [_uninit] is the zero handle of a storage slot that was
    never written. *)
Inductive euint8 :=
| E8_uninit
| E8_trivial (v : Z)
| E8_fromExternal (ct : externalEuint8).

Inductive ebool :=
| EB_uninit
| EB_trivial (b : bool)
| EB_eq (a b : euint8).

Inductive euint32 :=
| E32_uninit
| E32_trivial (v : Z)
| E32_add (a b : euint32)
| E32_select (c : ebool) (a b : euint32).

Inductive Handle :=
| H8 (h : euint8)
| HB (h : ebool)
| H32 (h : euint32).

(** Modelled from the spec: the plaintext of a handle (the consumer-side
    [decrypt] of section 6), with the wrap-around of each width. *)
Definition decrypt8 (h : euint8) : Z :=
  match h with
  | E8_uninit => 0
  | E8_trivial v => v mod uint8_mod
  | E8_fromExternal ct => ext_plain ct mod uint8_mod
  end.

Definition decryptBool (h : ebool) : bool :=
  match h with
  | EB_uninit => false
  | EB_trivial b => b
  | EB_eq a b => decrypt8 a =? decrypt8 b
  end.

Fixpoint decrypt32 (h : euint32) : Z :=
  match h with
  | E32_uninit => 0
  | E32_trivial v => v mod uint32_mod
  | E32_add a b => (decrypt32 a + decrypt32 b) mod uint32_mod
  | E32_select c a b => if decryptBool c then decrypt32 a else decrypt32 b
  end.

(* ===================================================================== *)
(** ** Contract data *)
(* ===================================================================== *)

Inductive ResultDisclosureStrategy :=
| PUBLIC_AFTER_END
| OWNER_ONLY
| QUALIFIED_ONLY.

Module Proposal.
Record t := mk {
  title : string;
  description : string;
  startTime : Z;
  endTime : Z;
  optionCount : Z;
  finalized : bool;
  owner : address;
  strategy : ResultDisclosureStrategy;
  minQuorum : Z
}.

(** The value of a storage slot that was never written. *)
Definition zero : t :=
  mk EmptyString EmptyString 0 0 0 false 0 PUBLIC_AFTER_END 0.

Definition set_finalized (b : bool) (p : t) : t :=
  mk (title p) (description p) (startTime p) (endTime p) (optionCount p)
     b (owner p) (strategy p) (minQuorum p).
End Proposal.

Record ProposalResults := {
  optionVotes : list euint32;
  totalVotes : euint32
}.

Definition ProposalResults_zero : ProposalResults :=
  {| optionVotes := []; totalVotes := E32_uninit |}.

Record State := {
  proposals : gmap Z Proposal.t;
  proposalResults : gmap Z ProposalResults;
  hasVoted : gmap (Z * address) ebool;
  hasVotedClear : gmap (Z * address) bool;
  proposers : gmap address bool;
  administrators : gmap address bool;
  owner : address;
  proposalCount : Z;
  defaultVotingDuration : Z
}.

Definition set_proposals (f : gmap Z Proposal.t -> gmap Z Proposal.t) (s : State) : State :=
  {| proposals := f (proposals s); proposalResults := proposalResults s;
     hasVoted := hasVoted s; hasVotedClear := hasVotedClear s;
     proposers := proposers s; administrators := administrators s;
     owner := owner s; proposalCount := proposalCount s;
     defaultVotingDuration := defaultVotingDuration s |}.

Definition set_proposalResults (f : gmap Z ProposalResults -> gmap Z ProposalResults) (s : State) : State :=
  {| proposals := proposals s; proposalResults := f (proposalResults s);
     hasVoted := hasVoted s; hasVotedClear := hasVotedClear s;
     proposers := proposers s; administrators := administrators s;
     owner := owner s; proposalCount := proposalCount s;
     defaultVotingDuration := defaultVotingDuration s |}.

Definition set_hasVoted (f : gmap (Z * address) ebool -> gmap (Z * address) ebool) (s : State) : State :=
  {| proposals := proposals s; proposalResults := proposalResults s;
     hasVoted := f (hasVoted s); hasVotedClear := hasVotedClear s;
     proposers := proposers s; administrators := administrators s;
     owner := owner s; proposalCount := proposalCount s;
     defaultVotingDuration := defaultVotingDuration s |}.

Definition set_hasVotedClear (f : gmap (Z * address) bool -> gmap (Z * address) bool) (s : State) : State :=
  {| proposals := proposals s; proposalResults := proposalResults s;
     hasVoted := hasVoted s; hasVotedClear := f (hasVotedClear s);
     proposers := proposers s; administrators := administrators s;
     owner := owner s; proposalCount := proposalCount s;
     defaultVotingDuration := defaultVotingDuration s |}.

Definition set_proposers (f : gmap address bool -> gmap address bool) (s : State) : State :=
  {| proposals := proposals s; proposalResults := proposalResults s;
     hasVoted := hasVoted s; hasVotedClear := hasVotedClear s;
     proposers := f (proposers s); administrators := administrators s;
     owner := owner s; proposalCount := proposalCount s;
     defaultVotingDuration := defaultVotingDuration s |}.

Definition set_administrators (f : gmap address bool -> gmap address bool) (s : State) : State :=
  {| proposals := proposals s; proposalResults := proposalResults s;
     hasVoted := hasVoted s; hasVotedClear := hasVotedClear s;
     proposers := proposers s; administrators := f (administrators s);
     owner := owner s; proposalCount := proposalCount s;
     defaultVotingDuration := defaultVotingDuration s |}.

Definition set_proposalCount (n : Z) (s : State) : State :=
  {| proposals := proposals s; proposalResults := proposalResults s;
     hasVoted := hasVoted s; hasVotedClear := hasVotedClear s;
     proposers := proposers s; administrators := administrators s;
     owner := owner s; proposalCount := n;
     defaultVotingDuration := defaultVotingDuration s |}.

Definition set_defaultVotingDuration (n : Z) (s : State) : State :=
  {| proposals := proposals s; proposalResults := proposalResults s;
     hasVoted := hasVoted s; hasVotedClear := hasVotedClear s;
     proposers := proposers s; administrators := administrators s;
     owner := owner s; proposalCount := proposalCount s;
     defaultVotingDuration := n |}.

(** [proposals[id]], [proposalResults[id]] and [hasVotedClear[id][voter]]
    as storage reads. *)
Definition proposal_at (s : State) (id : Z) : Proposal.t :=
  sload Proposal.zero (proposals s) id.

Definition results_at (s : State) (id : Z) : ProposalResults :=
  sload ProposalResults_zero (proposalResults s) id.

Definition voted_at (s : State) (id : Z) (voter : address) : bool :=
  sload false (hasVotedClear s) (id, voter).

Definition is_proposer (s : State) (a : address) : bool :=
  sload false (proposers s) a.

Definition is_administrator (s : State) (a : address) : bool :=
  sload false (administrators s) a.

(** The transaction context: [msg.sender] and [block.timestamp]. *)
Record Env := { sender : address; timestamp : Z }.

(* ===================================================================== *)
(** ** Events, library calls and the execution monad *)
(* ===================================================================== *)

Inductive Event :=
| ProposalCreated (proposalId : Z) (creator : address) (title : string)
                  (optionCount startTime endTime : Z)
| VoteCast (proposalId : Z) (voter : address)
| ProposalFinalized (proposalId : Z).

(** What a call does outside the contract's own storage, in program order. *)
Inductive Effect :=
| FheFromExternal (ct : externalEuint8)
| FheTrivialEncrypt (h : Handle)
| FheEq (a b : euint8)
| FheSelect (c : ebool) (a b : euint32)
| FheAdd (a b : euint32)
| AclAllowThis (h : Handle)
| AclAllow (h : Handle) (account : address)
| AclAllowTransient (h : Handle) (account : address)
| AclMakePubliclyDecryptable (h : Handle)
| Emit (e : Event).

Inductive Error :=
| Revert (reason : string)
| Panic (code : Z)
| ProofVerificationFailed
| SenderNotAllowed.

Inductive Res (A : Type) :=
| Ok (a : A) (s : State) (log : list Effect)
| Fail (e : Error) (log : list Effect).
Arguments Ok {A} a s log.
Arguments Fail {A} e log.

Definition M (A : Type) : Type := State -> list Effect -> Res A.

Definition ret {A} (a : A) : M A := fun s l => Ok a s l.

Definition bind {A B} (m : M A) (f : A -> M B) : M B :=
  fun s l =>
    match m s l with
    | Ok a s' l' => f a s' l'
    | Fail e l' => Fail e l'
    end.

Notation "'let*' x := c1 'in' c2" := (bind c1 (fun x => c2))
  (at level 10, x name, c1 at level 100, c2 at level 200).
Notation "c1 >> c2" := (bind c1 (fun _ => c2))
  (at level 100, c2 at level 200, right associativity).

Definition gets {A} (f : State -> A) : M A := fun s l => Ok (f s) s l.
Definition modify (f : State -> State) : M unit := fun s l => Ok tt (f s) l.
Definition perform (e : Effect) : M unit := fun s l => Ok tt s (l ++ [e]).
Definition throw {A} (e : Error) : M A := fun _ l => Fail e l.

Definition require (cond : bool) (reason : string) : M unit :=
  if cond then ret tt else throw (Revert reason).

Definition emit (e : Event) : M unit := perform (Emit e).

(** Checked arithmetic of Solidity 0.8: overflow panics with code 0x11. *)
Definition checked_add (a b : Z) : M Z :=
  if a + b <=? uint256_max then ret (a + b) else throw (Panic 17).

(** Array read with the bounds check (panic code 0x32). *)
Definition array_get {A} (l : list A) (i : Z) : M A :=
  match l !! Z.to_nat i with
  | Some x => ret x
  | None => throw (Panic 50)
  end.

(** [for (uint8 i = 0; i < n; i++) body(i)].  [n] is a [uint8], so the
    counter never overflows. *)
Fixpoint for_loop (fuel : nat) (i : Z) (body : Z -> M unit) : M unit :=
  match fuel with
  | O => ret tt
  | S fuel' => body i >> for_loop fuel' (i + 1) body
  end.

Definition for_range (n : Z) (body : Z -> M unit) : M unit :=
  for_loop (Z.to_nat n) 0 body.

(** The outcome of a transaction: on failure the storage is the one the
    call started from; the log keeps the library calls that were executed
    before the failure. *)
Record Receipt := {
  outcome : option Error;
  post : State;
  trace : list Effect
}.

Definition transact {A} (m : M A) (s : State) : Receipt :=
  match m s [] with
  | Ok _ s' l => {| outcome := None; post := s'; trace := l |}
  | Fail e l => {| outcome := Some e; post := s; trace := l |}
  end.

(* ===================================================================== *)
(** ** The FHE library interface

    The capability interface of section 6 of the spec.  Every operation is
    logged.  [fromExternal] fails on a bad proof.  A permission primitive
    is refused by the library's access-control list, with
    [SenderNotAllowed], when the calling contract holds no permission on
    the handle it passes.  The contract holds permission on every handle
    an operation of the library returned to it, until the transaction
    ends, and for good once it has called [allowThis] on it, which it does
    on every handle it stores; the zero handle of a slot that was never
    written is returned by no operation, and nobody holds permission on
    it. *)
(* ===================================================================== *)

(** Modelled from the spec: whether a handle was returned by an operation
    of the library, as opposed to the zero handle of a slot that was never
    written. *)
Definition initialized (h : Handle) : bool :=
  match h with
  | H8 E8_uninit | HB EB_uninit | H32 E32_uninit => false
  | _ => true
  end.

Module FHE.
(** Modelled from the spec: the access-control check the permission
    primitives go through.  Section 6 does not name its failure; the
    library's is [SenderNotAllowed]. *)
Definition guarded (h : Handle) (e : Effect) : M unit :=
  if initialized h then perform e else throw SenderNotAllowed.

(** Modelled from the spec: [constant(value)], at each width. *)
Definition asEuint8 (v : Z) : M euint8 :=
  perform (FheTrivialEncrypt (H8 (E8_trivial v))) >> ret (E8_trivial v).

Definition asEuint32 (v : Z) : M euint32 :=
  perform (FheTrivialEncrypt (H32 (E32_trivial v))) >> ret (E32_trivial v).

Definition asEbool (b : bool) : M ebool :=
  perform (FheTrivialEncrypt (HB (EB_trivial b))) >> ret (EB_trivial b).

(** Modelled from the spec: [importExternal(ciphertext, proof)], which
    fails with [ProofVerificationFailed] on a bad proof. *)
Definition fromExternal (ct : externalEuint8) (proof : InputProof) : M euint8 :=
  match proof with
  | ValidProof => perform (FheFromExternal ct) >> ret (E8_fromExternal ct)
  | InvalidProof => throw ProofVerificationFailed
  end.

(** Modelled from the spec: [equals], [select] and [add]. *)
Definition eq (a b : euint8) : M ebool :=
  perform (FheEq a b) >> ret (EB_eq a b).

Definition select (c : ebool) (a b : euint32) : M euint32 :=
  perform (FheSelect c a b) >> ret (E32_select c a b).

Definition add (a b : euint32) : M euint32 :=
  perform (FheAdd a b) >> ret (E32_add a b).

(** Modelled from the spec: the permission primitives [allow] (persistent
    grant), [allowTransient] (single-call grant) and
    [markPubliclyDecryptable] (irrevocable); [allowThis] is the persistent
    grant to the contract itself.  Each one is refused on a handle the
    contract holds no permission on. *)
Definition allowThis (h : Handle) : M unit := guarded h (AclAllowThis h).

Definition allow (h : Handle) (account : address) : M unit :=
  guarded h (AclAllow h account).

Definition allowTransient (h : Handle) (account : address) : M unit :=
  guarded h (AclAllowTransient h account).

Definition makePubliclyDecryptable (h : Handle) : M unit :=
  guarded h (AclMakePubliclyDecryptable h).
End FHE.

(* ===================================================================== *)
(** ** The contract *)
(* ===================================================================== *)

(** [constructor()]: the deployer becomes owner, administrator and proposer;
    [defaultVotingDuration] starts at 7 days. *)
Definition constructor (deployer : address) : State :=
  {| proposals := ∅; proposalResults := ∅; hasVoted := ∅; hasVotedClear := ∅;
     proposers := {[ deployer := true ]};
     administrators := {[ deployer := true ]};
     owner := deployer; proposalCount := 0;
     defaultVotingDuration := days 7 |}.

(** The [onlyProposer] modifier's condition.  The contract declares the
    modifier; no function of the contract carries it. *)
Definition onlyProposer (env : Env) : M unit :=
  let* s := gets (fun s => s) in
  require (is_proposer s (sender env) || is_administrator s (sender env)
           || (sender env =? owner s)) "Not proposer".

Definition onlyAdministrator (env : Env) : M unit :=
  let* s := gets (fun s => s) in
  require (is_administrator s (sender env) || (sender env =? owner s))
          "Not administrator".

Definition onlyOwner (env : Env) : M unit :=
  let* s := gets (fun s => s) in
  require (sender env =? owner s) "Not owner".

(** Writing the slot [proposalResults[id]]. *)
Definition with_results (id : Z) (r : ProposalResults) (s : State) : State :=
  set_proposalResults <[ id := r ]> s.

(** [results.optionVotes.push(h)] on [proposalResults[id]]. *)
Definition push_optionVote (id : Z) (h : euint32) : M unit :=
  modify (fun s =>
    let r := results_at s id in
    with_results id {| optionVotes := optionVotes r ++ [h];
                       totalVotes := totalVotes r |} s).

(** [results.optionVotes[i] = h]; the index was checked by the read that
    precedes it in every use. *)
Definition store_optionVote (id : Z) (i : Z) (h : euint32) : M unit :=
  modify (fun s =>
    let r := results_at s id in
    with_results id {| optionVotes := <[ Z.to_nat i := h ]> (optionVotes r);
                       totalVotes := totalVotes r |} s).

Definition store_totalVotes (id : Z) (h : euint32) : M unit :=
  modify (fun s =>
    let r := results_at s id in
    with_results id {| optionVotes := optionVotes r; totalVotes := h |} s).

(** [results.optionVotes[i]] as a checked read. *)
Definition load_optionVote (id : Z) (i : Z) : M euint32 :=
  let* r := gets (fun s => results_at s id) in
  array_get (optionVotes r) i.

Definition load_totalVotes (id : Z) : M euint32 :=
  gets (fun s => totalVotes (results_at s id)).

(** Body of the initialisation loop of [createProposal]. *)
Definition init_body (proposalId : Z) (i : Z) : M unit :=
  let* z := FHE.asEuint32 0 in
  push_optionVote proposalId z >>
  let* h := load_optionVote proposalId i in
  FHE.allowThis (H32 h).

(** Body of the tally loop of [vote]. *)
Definition tally_body (proposalId : Z) (option : euint8) (i : Z) : M unit :=
  let* c := FHE.asEuint8 i in
  let* isMatch := FHE.eq option c in
  let* one := FHE.asEuint32 1 in
  let* zero := FHE.asEuint32 0 in
  let* increment := FHE.select isMatch one zero in
  let* old := load_optionVote proposalId i in
  let* new := FHE.add old increment in
  store_optionVote proposalId i new >>
  let* h := load_optionVote proposalId i in
  FHE.allowThis (H32 h).

(** Body of the permission loops: apply [action] to [results.optionVotes[i]]. *)
Definition each_option (proposalId : Z) (action : Handle -> M unit) (i : Z) : M unit :=
  let* h := load_optionVote proposalId i in
  action (H32 h).

Definition createProposal (env : Env) (title description : string)
    (optionCount duration : Z) (strategy : ResultDisclosureStrategy)
    (minQuorum : Z) : M Z :=
  require ((2 <=? optionCount) && (optionCount <=? 10)) "Invalid option count" >>
  require ((0 <? duration) && (duration <=? days 365)) "Invalid duration" >>
  require (0 <? minQuorum) "Invalid quorum" >>
  let* proposalId := gets proposalCount in
  let* next := checked_add proposalId 1 in
  modify (set_proposalCount next) >>
  let startTime := timestamp env in
  let* endTime := checked_add startTime duration in
  modify (set_proposals
    <[ proposalId := Proposal.mk title description startTime endTime
                       optionCount false (sender env) strategy minQuorum ]>) >>
  for_range optionCount (init_body proposalId) >>
  let* z := FHE.asEuint32 0 in
  store_totalVotes proposalId z >>
  let* t := load_totalVotes proposalId in
  FHE.allowThis (H32 t) >>
  emit (ProposalCreated proposalId (sender env) title optionCount startTime endTime) >>
  ret proposalId.

Definition vote (env : Env) (proposalId : Z) (encryptedOption : externalEuint8)
    (inputProof : InputProof) : M unit :=
  let* proposal := gets (fun s => proposal_at s proposalId) in
  require (Proposal.startTime proposal <=? timestamp env) "Voting not started" >>
  require (timestamp env <=? Proposal.endTime proposal) "Voting ended" >>
  require (negb (Proposal.finalized proposal)) "Proposal finalized" >>
  let* already := gets (fun s => voted_at s proposalId (sender env)) in
  require (negb already) "Already voted" >>
  let* option := FHE.fromExternal encryptedOption inputProof in
  for_range (Proposal.optionCount proposal) (tally_body proposalId option) >>
  let* one := FHE.asEuint32 1 in
  let* old := load_totalVotes proposalId in
  let* new := FHE.add old one in
  store_totalVotes proposalId new >>
  let* t := load_totalVotes proposalId in
  FHE.allowThis (H32 t) >>
  let* flag := FHE.asEbool true in
  modify (set_hasVoted <[ (proposalId, sender env) := flag ]>) >>
  modify (set_hasVotedClear <[ (proposalId, sender env) := true ]>) >>
  let* stored := gets (fun s => sload EB_uninit (hasVoted s) (proposalId, sender env)) in
  FHE.allow (HB stored) (sender env) >>
  match Proposal.strategy proposal with
  | PUBLIC_AFTER_END => ret tt
  | OWNER_ONLY =>
      for_range (Proposal.optionCount proposal) (each_option proposalId (fun h => FHE.allow h (Proposal.owner proposal))) >>
      let* t := load_totalVotes proposalId in
      FHE.allow (H32 t) (Proposal.owner proposal)
  | QUALIFIED_ONLY =>
      for_range (Proposal.optionCount proposal) (each_option proposalId (fun h => FHE.allowTransient h (sender env))) >>
      let* t := load_totalVotes proposalId in
      FHE.allowTransient (H32 t) (sender env)
  end >>
  emit (VoteCast proposalId (sender env)).

(** [proposal] is a storage reference in the source; the fields read after
    the write to [finalized] are not touched by it. *)
Definition finalizeProposal (env : Env) (proposalId : Z) : M unit :=
  let* proposal := gets (fun s => proposal_at s proposalId) in
  require (Proposal.endTime proposal <? timestamp env) "Voting not ended" >>
  require (negb (Proposal.finalized proposal)) "Already finalized" >>
  modify (set_proposals <[ proposalId := Proposal.set_finalized true proposal ]>) >>
  match Proposal.strategy proposal with
  | PUBLIC_AFTER_END =>
      for_range (Proposal.optionCount proposal) (each_option proposalId (fun h => FHE.makePubliclyDecryptable h)) >>
      let* t := load_totalVotes proposalId in
      FHE.makePubliclyDecryptable (H32 t)
  | OWNER_ONLY =>
      let* contractOwner := gets owner in
      for_range (Proposal.optionCount proposal) (each_option proposalId (fun h => FHE.allow h contractOwner)) >>
      let* t := load_totalVotes proposalId in
      FHE.allow (H32 t) contractOwner
  | QUALIFIED_ONLY => ret tt
  end >>
  emit (ProposalFinalized proposalId).

(** The getter Solidity generates for [mapping(uint256 => Proposal) public
    proposals]. *)
Definition getProposal (proposalId : Z) : M Proposal.t :=
  gets (fun s => proposal_at s proposalId).

Definition getOptionVotes (proposalId : Z) (optionIndex : Z) : M euint32 :=
  let* proposal := gets (fun s => proposal_at s proposalId) in
  require (optionIndex <? Proposal.optionCount proposal) "Invalid option" >>
  load_optionVote proposalId optionIndex.

Definition getTotalVotes (proposalId : Z) : M euint32 :=
  load_totalVotes proposalId.

Definition grantDecryptionPermission (env : Env) (proposalId : Z) (account : address) : M unit :=
  let* proposal := gets (fun s => proposal_at s proposalId) in
  let* s := gets (fun s => s) in
  require ((sender env =? Proposal.owner proposal) || (sender env =? owner s)
           || is_administrator s (sender env)) "Not authorized" >>
  for_range (Proposal.optionCount proposal) (each_option proposalId (fun h => FHE.allow h account)) >>
  let* t := load_totalVotes proposalId in
  FHE.allow (H32 t) account.

Definition setProposer (env : Env) (account : address) (status : bool) : M unit :=
  onlyAdministrator env >>
  modify (set_proposers <[ account := status ]>).

Definition setAdministrator (env : Env) (account : address) (status : bool) : M unit :=
  onlyOwner env >>
  modify (set_administrators <[ account := status ]>).

Definition setDefaultVotingDuration (env : Env) (duration : Z) : M unit :=
  onlyOwner env >>
  require ((0 <? duration) && (duration <=? days 365)) "Invalid duration" >>
  modify (set_defaultVotingDuration duration).

(* ===================================================================== *)
(** ** Transactions and reachable states *)
(* ===================================================================== *)

Inductive Call :=
| CreateProposal (title description : string) (optionCount duration : Z)
                 (strategy : ResultDisclosureStrategy) (minQuorum : Z)
| Vote (proposalId : Z) (encryptedOption : externalEuint8) (inputProof : InputProof)
| FinalizeProposal (proposalId : Z)
| GrantDecryptionPermission (proposalId : Z) (account : address)
| SetProposer (account : address) (status : bool)
| SetAdministrator (account : address) (status : bool)
| SetDefaultVotingDuration (duration : Z).

Definition run (env : Env) (c : Call) (s : State) : Receipt :=
  match c with
  | CreateProposal title description optionCount duration strategy minQuorum =>
      transact (createProposal env title description optionCount duration strategy minQuorum) s
  | Vote proposalId encryptedOption inputProof =>
      transact (vote env proposalId encryptedOption inputProof) s
  | FinalizeProposal proposalId => transact (finalizeProposal env proposalId) s
  | GrantDecryptionPermission proposalId account =>
      transact (grantDecryptionPermission env proposalId account) s
  | SetProposer account status => transact (setProposer env account status) s
  | SetAdministrator account status => transact (setAdministrator env account status) s
  | SetDefaultVotingDuration duration => transact (setDefaultVotingDuration env duration) s
  end.

(** [reachable_by ok s now]: the storage [s] results from deploying the
    contract and running transactions that satisfy [ok], with block
    timestamps that never decrease; [now] is the timestamp of the last
    block. *)
Inductive reachable_by (ok : State -> Env -> Call -> Prop) : State -> Z -> Prop :=
| reach_deploy (deployer : address) (now : Z) :
    reachable_by ok (constructor deployer) now
| reach_call (s : State) (now : Z) (env : Env) (c : Call) :
    reachable_by ok s now ->
    now <= timestamp env ->
    ok s env c ->
    reachable_by ok (post (run env c s)) (timestamp env).

Definition any_call (s : State) (env : Env) (c : Call) : Prop := True.

Definition reachable : State -> Z -> Prop := reachable_by any_call.

(** [later s0 t0 s t]: the storage [s] at time [t] results from [s0] at
    time [t0] by running further transactions. *)
Inductive later (s0 : State) (t0 : Z) : State -> Z -> Prop :=
| later_now : later s0 t0 s0 t0
| later_call (s : State) (now : Z) (env : Env) (c : Call) :
    later s0 t0 s now ->
    now <= timestamp env ->
    later s0 t0 (post (run env c s)) (timestamp env).

(** The calls in which a ballot that [vote] accepts on proposal [id]
    encrypts an index of one of its options.  Ballots cast on another
    proposal, and ballots [vote] turns down, are not constrained. *)
Definition ballots_in_range_on (id : Z) (s : State) (env : Env) (c : Call) : Prop :=
  match c with
  | Vote proposalId encryptedOption inputProof =>
      proposalId = id ->
      outcome (run env (Vote proposalId encryptedOption inputProof) s) = None ->
      0 <= ext_plain encryptedOption < Proposal.optionCount (proposal_at s id)
  | _ => True
  end.

(** A proposal exists when [createProposal] has allocated its id. *)
Definition created (s : State) (id : Z) : Prop := 0 <= id < proposalCount s.

(** ** What an observer holding every decryption right sees *)

Definition decrypted_options (s : State) (id : Z) : list Z :=
  map decrypt32 (optionVotes (results_at s id)).

Definition decrypted_total (s : State) (id : Z) : Z :=
  decrypt32 (totalVotes (results_at s id)).

(** ** The spec's error names, as the revert reasons of the contract *)

Definition NotStarted : Error := Revert "Voting not started".
Definition Ended : Error := Revert "Voting ended".
Definition AlreadyVoted : Error := Revert "Already voted".
Definition NotEnded : Error := Revert "Voting not ended".
Definition AlreadyFinalized : Error := Revert "Already finalized".
Definition Unauthorized : Error := Revert "Not proposer".

Definition InvalidParameters (e : Error) : Prop :=
  e = Revert "Invalid option count" \/ e = Revert "Invalid duration"
  \/ e = Revert "Invalid quorum".

(** ** Classifying the logged calls *)

(** A permission on a tally counter (a per-option counter or the total)
    given to an account or to the public. *)
Definition is_tally_permission (e : Effect) : bool :=
  match e with
  | AclAllow (H32 _) _ => true
  | AclAllowTransient (H32 _) _ => true
  | AclMakePubliclyDecryptable (H32 _) => true
  | _ => false
  end.

Definition tally_permissions (log : list Effect) : list Effect :=
  List.filter is_tally_permission log.

(** ** Closed forms of the loops *)

(** The encrypted increment the tally loop derives for option [i]. *)
Definition increment_for (option : euint8) (i : Z) : euint32 :=
  E32_select (EB_eq option (E8_trivial i)) (E32_trivial 1) (E32_trivial 0).

Fixpoint tally_from (option : euint8) (i : Z) (l : list euint32) : list euint32 :=
  match l with
  | [] => []
  | c :: l' => E32_add c (increment_for option i) :: tally_from option (i + 1) l'
  end.

Fixpoint tally_log (option : euint8) (i : Z) (l : list euint32) : list Effect :=
  match l with
  | [] => []
  | c :: l' =>
      [ FheTrivialEncrypt (H8 (E8_trivial i));
        FheEq option (E8_trivial i);
        FheTrivialEncrypt (H32 (E32_trivial 1));
        FheTrivialEncrypt (H32 (E32_trivial 0));
        FheSelect (EB_eq option (E8_trivial i)) (E32_trivial 1) (E32_trivial 0);
        FheAdd c (increment_for option i);
        AclAllowThis (H32 (E32_add c (increment_for option i))) ]
      ++ tally_log option (i + 1) l'
  end.

Fixpoint init_log (n : nat) : list Effect :=
  match n with
  | O => []
  | S n' => [ FheTrivialEncrypt (H32 (E32_trivial 0));
              AclAllowThis (H32 (E32_trivial 0)) ] ++ init_log n'
  end.

(* ===================================================================== *)
(** ** Closed forms of the external functions *)
(* ===================================================================== *)

Definition trivial_zero : euint32 := E32_trivial 0.

(** The storage after a successful [createProposal]. *)
Definition created_state (env : Env) (title description : string)
    (optionCount duration : Z) (strategy : ResultDisclosureStrategy)
    (minQuorum : Z) (s : State) : State :=
  let id := proposalCount s in
  with_results id
    {| optionVotes := replicate (Z.to_nat optionCount) trivial_zero;
       totalVotes := trivial_zero |}
    (set_proposals
       <[ id := Proposal.mk title description (timestamp env)
                  (timestamp env + duration) optionCount false (sender env)
                  strategy minQuorum ]>
       (set_proposalCount (id + 1) s)).

Definition created_log (env : Env) (title : string) (optionCount duration : Z)
    (s : State) : list Effect :=
  init_log (Z.to_nat optionCount)
  ++ [ FheTrivialEncrypt (H32 trivial_zero); AclAllowThis (H32 trivial_zero);
       Emit (ProposalCreated (proposalCount s) (sender env) title optionCount
               (timestamp env) (timestamp env + duration)) ].

(** The counters after a ballot [option] has been tallied. *)
Definition voted_results (option : euint8) (r : ProposalResults) : ProposalResults :=
  {| optionVotes := tally_from option 0 (optionVotes r);
     totalVotes := E32_add (totalVotes r) (E32_trivial 1) |}.

Definition voted_state (env : Env) (id : Z) (ct : externalEuint8) (s : State) : State :=
  set_hasVotedClear <[ (id, sender env) := true ]>
    (set_hasVoted <[ (id, sender env) := EB_trivial true ]>
       (with_results id (voted_results (E8_fromExternal ct) (results_at s id)) s)).

(** The permissions [vote] hands out, by strategy. *)
Definition vote_disclosure (p : Proposal.t) (voter : address) (r : ProposalResults) : list Effect :=
  match Proposal.strategy p with
  | PUBLIC_AFTER_END => []
  | OWNER_ONLY =>
      map (fun c => AclAllow (H32 c) (Proposal.owner p)) (optionVotes r)
      ++ [AclAllow (H32 (totalVotes r)) (Proposal.owner p)]
  | QUALIFIED_ONLY =>
      map (fun c => AclAllowTransient (H32 c) voter) (optionVotes r)
      ++ [AclAllowTransient (H32 (totalVotes r)) voter]
  end.

Definition vote_log (env : Env) (id : Z) (ct : externalEuint8) (s : State) : list Effect :=
  let r := results_at s id in
  let r' := voted_results (E8_fromExternal ct) r in
  [FheFromExternal ct]
  ++ tally_log (E8_fromExternal ct) 0 (optionVotes r)
  ++ [ FheTrivialEncrypt (H32 (E32_trivial 1));
       FheAdd (totalVotes r) (E32_trivial 1);
       AclAllowThis (H32 (totalVotes r'));
       FheTrivialEncrypt (HB (EB_trivial true));
       AclAllow (HB (EB_trivial true)) (sender env) ]
  ++ vote_disclosure (proposal_at s id) (sender env) r'
  ++ [Emit (VoteCast id (sender env))].

Definition finalized_state (id : Z) (s : State) : State :=
  set_proposals <[ id := Proposal.set_finalized true (proposal_at s id) ]> s.

(** The permissions [finalizeProposal] hands out, by strategy. *)
Definition finalize_disclosure (s : State) (id : Z) : list Effect :=
  let r := results_at s id in
  match Proposal.strategy (proposal_at s id) with
  | PUBLIC_AFTER_END =>
      map (fun c => AclMakePubliclyDecryptable (H32 c)) (optionVotes r)
      ++ [AclMakePubliclyDecryptable (H32 (totalVotes r))]
  | OWNER_ONLY =>
      map (fun c => AclAllow (H32 c) (owner s)) (optionVotes r)
      ++ [AclAllow (H32 (totalVotes r)) (owner s)]
  | QUALIFIED_ONLY => []
  end.

Definition finalized_log (s : State) (id : Z) : list Effect :=
  finalize_disclosure s id ++ [Emit (ProposalFinalized id)].

(** The array of a proposal has one counter per option. *)
Definition counters_match (s : State) (id : Z) : Prop :=
  Z.of_nat (length (optionVotes (results_at s id)))
  = Proposal.optionCount (proposal_at s id).

(** The counters of a proposal are handles the library returned, and so is
    its total: the handles the contract holds permission on. *)
Definition counters_initialized (s : State) (id : Z) : Prop :=
  Forall (fun c => initialized (H32 c) = true) (optionVotes (results_at s id)).

Definition total_initialized (s : State) (id : Z) : bool :=
  initialized (H32 (totalVotes (results_at s id))).

(** [finalizeProposal] passes the total to the library under every strategy
    but [QUALIFIED_ONLY]. *)
Definition finalize_permitted (s : State) (id : Z) : Prop :=
  Proposal.strategy (proposal_at s id) = QUALIFIED_ONLY
  \/ total_initialized s id = true.

(** How a transaction can change the storage: not at all as far as
    proposals, tallies and vote guards go (a reverted call, a read, a role
    update), or as one of the three successful state-changing calls. *)
Inductive effect_of (env : Env) (s : State) : Call -> State -> Prop :=
| eff_none (c : Call) (s' : State) :
    proposals s' = proposals s ->
    proposalResults s' = proposalResults s ->
    proposalCount s' = proposalCount s ->
    hasVotedClear s' = hasVotedClear s ->
    effect_of env s c s'
| eff_created title description oc d strat q :
    2 <= oc <= 10 -> 0 < d <= days 365 -> 0 < q ->
    effect_of env s (CreateProposal title description oc d strat q)
      (created_state env title description oc d strat q s)
| eff_voted id ct :
    Proposal.startTime (proposal_at s id) <= timestamp env
      <= Proposal.endTime (proposal_at s id) ->
    Proposal.finalized (proposal_at s id) = false ->
    voted_at s id (sender env) = false ->
    effect_of env s (Vote id ct ValidProof) (voted_state env id ct s)
| eff_finalized id :
    Proposal.endTime (proposal_at s id) < timestamp env ->
    Proposal.finalized (proposal_at s id) = false ->
    finalize_permitted s id ->
    effect_of env s (FinalizeProposal id) (finalized_state id s).

(* ===================================================================== *)
(** ** Invariants of the reachable states *)
(* ===================================================================== *)

(** An id that was never allocated reads as the zero proposal in every
    field but [finalized].  The flag stays unset as well when every block
    carries a positive timestamp; at block time 0 a vote on such an id is
    inside the window of the zero proposal and writes its total, after
    which [finalizeProposal] is no longer refused by the library. *)
Definition unallocated (p : Proposal.t) : Prop :=
  p = Proposal.set_finalized (Proposal.finalized p) Proposal.zero.

Record Inv (s : State) (now : Z) : Prop := {
  inv_count : 0 <= proposalCount s;
  inv_counters : forall id, counters_match s id;
  inv_initialized : forall id, counters_initialized s id;
  inv_total : forall id, created s id -> total_initialized s id = true;
  inv_window : forall id,
    Proposal.startTime (proposal_at s id) <= Proposal.endTime (proposal_at s id);
  inv_finalized : forall id,
    Proposal.finalized (proposal_at s id) = true ->
    Proposal.endTime (proposal_at s id) < now;
  inv_absent : forall id, ~ created s id -> unallocated (proposal_at s id);
  inv_options : forall id,
    created s id -> 2 <= Proposal.optionCount (proposal_at s id) <= 10;
  inv_stored : forall id, created s id -> is_Some (proposals s !! id)
}.

(** The tally invariant, for one proposal. *)
Definition tally_consistent (s : State) (id : Z) : Prop :=
  decrypted_total s id = sumZ (decrypted_options s id) mod uint32_mod.

(* ===================================================================== *)
(** ** Scenarios *)
(* ===================================================================== *)

Definition deployer : address := 1.
Definition alice : address := 2.
Definition bob : address := 3.

Definition at_time (who : address) (t : Z) : Env :=
  {| sender := who; timestamp := t |}.

Definition ballot (option : Z) : externalEuint8 := {| ext_plain := option |}.

(** The contract once [deployer] has deployed it and registered [alice] as
    a proposer, and after [alice] has created a proposal with two options
    that is open from 1000 to 1100. *)
Definition deployed : State :=
  post (run (at_time deployer 900) (SetProposer alice true) (constructor deployer)).

Definition open_call (strategy : ResultDisclosureStrategy) : Call :=
  CreateProposal "Budget" "Yes or no" 2 100 strategy 1.

Definition opened (strategy : ResultDisclosureStrategy) : State :=
  post (run (at_time alice 1000) (open_call strategy) deployed).

(** [bob] then votes for option [option] at time 1001. *)
Definition bob_votes (option : Z) : Call := Vote 0 (ballot option) ValidProof.

Definition after_bob (strategy : ResultDisclosureStrategy) (option : Z) : State :=
  post (run (at_time bob 1001) (bob_votes option) (opened strategy)).

(** [carol] holds no role in the contract. *)
Definition carol : address := 4.

(** The proposal of the scenario, finalized at time 1200. *)
Definition closed : State :=
  post (run (at_time alice 1200) (FinalizeProposal 0) (after_bob PUBLIC_AFTER_END 1)).

(** A second proposal, with id 1, opened beside the first: [bob] votes for
    option 1 of the first, and [carol] submits the index 5 on the second,
    which has two options. *)
Definition two_opened : State :=
  post (run (at_time alice 1000) (open_call PUBLIC_AFTER_END) (opened PUBLIC_AFTER_END)).

Definition two_voted : State :=
  post (run (at_time carol 1002) (Vote 1 (ballot 5) ValidProof)
          (post (run (at_time bob 1001) (bob_votes 1) two_opened))).

(* ===================================================================== *)
(** ** The remaining functions of the contract and their callers *)
(* ===================================================================== *)

(** [getHasVoted(proposalId, voter)]: the encrypted flag, as stored. *)
Definition getHasVoted (proposalId : Z) (voter : address) : M ebool :=
  gets (fun s => sload EB_uninit (hasVoted s) (proposalId, voter)).

(** The status the front end derives for a proposal
    ([getProposalStatus] of the [useSecretVoting] hook); [now] is the
    client's clock in seconds. *)
Inductive ProposalStatus := upcoming | active | ended | finalized.

Definition getProposalStatus (now : Z) (startTime endTime : Z) (isFinalized : bool)
    : ProposalStatus :=
  if isFinalized then finalized
  else if now <? startTime then upcoming
  else if endTime <? now then ended
  else active.

(** The status of proposal [id] as the front end shows it. *)
Definition status_at (now : Z) (s : State) (id : Z) : ProposalStatus :=
  let p := proposal_at s id in
  getProposalStatus now (Proposal.startTime p) (Proposal.endTime p)
    (Proposal.finalized p).

(** The storage after each of the three role and configuration updates. *)
Definition proposer_set (account : address) (status : bool) (s : State) : State :=
  set_proposers <[ account := status ]> s.

Definition administrator_set (account : address) (status : bool) (s : State) : State :=
  set_administrators <[ account := status ]> s.

(** The caller passes [onlyAdministrator]. *)
Definition privileged (s : State) (a : address) : bool :=
  is_administrator s a || (a =? owner s).

(** The exact storage a transaction leaves: the one it found (a reverted
    call, a read, a permission grant) or the result of one of the six
    state-changing calls, each under the checks that guard it. *)
Inductive step_of (env : Env) (s : State) : Call -> State -> Prop :=
| step_same (c : Call) : step_of env s c s
| step_created title description oc d strat q :
    2 <= oc <= 10 -> 0 < d <= days 365 -> 0 < q ->
    step_of env s (CreateProposal title description oc d strat q)
      (created_state env title description oc d strat q s)
| step_voted id ct :
    Proposal.startTime (proposal_at s id) <= timestamp env
      <= Proposal.endTime (proposal_at s id) ->
    Proposal.finalized (proposal_at s id) = false ->
    voted_at s id (sender env) = false ->
    step_of env s (Vote id ct ValidProof) (voted_state env id ct s)
| step_finalized id :
    Proposal.endTime (proposal_at s id) < timestamp env ->
    Proposal.finalized (proposal_at s id) = false ->
    finalize_permitted s id ->
    step_of env s (FinalizeProposal id) (finalized_state id s)
| step_proposer account status :
    privileged s (sender env) = true ->
    step_of env s (SetProposer account status) (proposer_set account status s)
| step_administrator account status :
    sender env = owner s ->
    step_of env s (SetAdministrator account status)
      (administrator_set account status s)
| step_duration d :
    sender env = owner s -> 0 < d <= days 365 ->
    step_of env s (SetDefaultVotingDuration d) (set_defaultVotingDuration d s).

(** The fields of a proposal that no function writes after creation. *)
Definition same_terms (p q : Proposal.t) : Prop :=
  Proposal.title p = Proposal.title q
  /\ Proposal.description p = Proposal.description q
  /\ Proposal.startTime p = Proposal.startTime q
  /\ Proposal.endTime p = Proposal.endTime q
  /\ Proposal.optionCount p = Proposal.optionCount q
  /\ Proposal.owner p = Proposal.owner q
  /\ Proposal.strategy p = Proposal.strategy q
  /\ Proposal.minQuorum p = Proposal.minQuorum q.

(** The vote guards that are set for proposal [id], and their number. *)
Definition guard_of (id : Z) (entry : (Z * address) * bool) : Prop :=
  entry.1.1 = id /\ entry.2 = true.

Definition voters (s : State) (id : Z) : nat :=
  size (filter (guard_of id) (hasVotedClear s)).

(** Blocks carry a positive timestamp. *)
Definition positive_time (s : State) (env : Env) (c : Call) : Prop :=
  0 < timestamp env.

(** The permissions a successful [grantDecryptionPermission] hands out. *)
Definition grant_log (s : State) (id : Z) (account : address) : list Effect :=
  map (fun c => AclAllow (H32 c) account) (optionVotes (results_at s id))
  ++ [AclAllow (H32 (totalVotes (results_at s id))) account].

(** The caller passes the check of [grantDecryptionPermission]. *)
Definition may_grant (s : State) (id : Z) (a : address) : bool :=
  (a =? Proposal.owner (proposal_at s id)) || (a =? owner s)
  || is_administrator s a.

(* ===================================================================== *)
(** ** GovernanceParams: the parameter store *)
(* ===================================================================== *)

Module GovernanceParams.
Record State := {
  owner : address;
  administrators : gmap address bool;
  minVotingDuration : Z;
  maxVotingDuration : Z;
  defaultQuorum : Z;
  maxOptions : Z;
  minOptions : Z
}.

Inductive Event :=
| ParameterUpdated (paramName : string) (oldValue newValue : Z)
| AdministratorSet (account : address) (status : bool).

(** A call either succeeds with a new storage and the events it emitted,
    or reverts with a reason and leaves the storage as it was. *)
Inductive Result :=
| Success (s : State) (events : list Event)
| Reverted (reason : string).

Definition hours (n : Z) : Z := n * 3600.

Definition constructor (deployer : address) : State :=
  {| owner := deployer;
     administrators := {[ deployer := true ]};
     minVotingDuration := hours 1;
     maxVotingDuration := days 365;
     defaultQuorum := 1;
     maxOptions := 10;
     minOptions := 2 |}.

Definition is_administrator (s : State) (a : address) : bool :=
  sload false (administrators s) a.

(** The conditions of the modifiers [onlyOwner] and [onlyAdministrator]. *)
Definition onlyOwner (env : Env) (s : State) : bool :=
  sender env =? owner s.

Definition onlyAdministrator (env : Env) (s : State) : bool :=
  is_administrator s (sender env) || (sender env =? owner s).

Definition setMinVotingDuration (env : Env) (duration : Z) (s : State) : Result :=
  if negb (onlyAdministrator env s) then Reverted "Not administrator"
  else if negb ((0 <? duration) && (duration <? maxVotingDuration s))
  then Reverted "Invalid duration"
  else
    let old := minVotingDuration s in
    Success
      {| owner := owner s; administrators := administrators s;
         minVotingDuration := duration;
         maxVotingDuration := maxVotingDuration s;
         defaultQuorum := defaultQuorum s; maxOptions := maxOptions s;
         minOptions := minOptions s |}
      [ParameterUpdated "minVotingDuration" old duration].

Definition setMaxVotingDuration (env : Env) (duration : Z) (s : State) : Result :=
  if negb (onlyAdministrator env s) then Reverted "Not administrator"
  else if negb (minVotingDuration s <? duration)
  then Reverted "Invalid duration"
  else
    let old := maxVotingDuration s in
    Success
      {| owner := owner s; administrators := administrators s;
         minVotingDuration := minVotingDuration s;
         maxVotingDuration := duration;
         defaultQuorum := defaultQuorum s; maxOptions := maxOptions s;
         minOptions := minOptions s |}
      [ParameterUpdated "maxVotingDuration" old duration].

Definition setDefaultQuorum (env : Env) (quorum : Z) (s : State) : Result :=
  if negb (onlyAdministrator env s) then Reverted "Not administrator"
  else
    let old := defaultQuorum s in
    Success
      {| owner := owner s; administrators := administrators s;
         minVotingDuration := minVotingDuration s;
         maxVotingDuration := maxVotingDuration s;
         defaultQuorum := quorum; maxOptions := maxOptions s;
         minOptions := minOptions s |}
      [ParameterUpdated "defaultQuorum" old quorum].

Definition setMaxOptions (env : Env) (max : Z) (s : State) : Result :=
  if negb (onlyAdministrator env s) then Reverted "Not administrator"
  else if negb ((minOptions s <=? max) && (max <=? 100))
  then Reverted "Invalid max options"
  else
    let old := maxOptions s in
    Success
      {| owner := owner s; administrators := administrators s;
         minVotingDuration := minVotingDuration s;
         maxVotingDuration := maxVotingDuration s;
         defaultQuorum := defaultQuorum s; maxOptions := max;
         minOptions := minOptions s |}
      [ParameterUpdated "maxOptions" old max].

Definition setAdministrator (env : Env) (account : address) (status : bool)
    (s : State) : Result :=
  if negb (onlyOwner env s) then Reverted "Not owner"
  else
    Success
      {| owner := owner s;
         administrators := <[ account := status ]> (administrators s);
         minVotingDuration := minVotingDuration s;
         maxVotingDuration := maxVotingDuration s;
         defaultQuorum := defaultQuorum s; maxOptions := maxOptions s;
         minOptions := minOptions s |}
      [AdministratorSet account status].

Definition transferOwnership (env : Env) (newOwner : address) (s : State) : Result :=
  if negb (onlyOwner env s) then Reverted "Not owner"
  else if newOwner =? 0 then Reverted "Invalid address"
  else
    Success
      {| owner := newOwner;
         administrators := <[ newOwner := true ]> (administrators s);
         minVotingDuration := minVotingDuration s;
         maxVotingDuration := maxVotingDuration s;
         defaultQuorum := defaultQuorum s; maxOptions := maxOptions s;
         minOptions := minOptions s |}
      [].

Inductive Call :=
| SetMinVotingDuration (duration : Z)
| SetMaxVotingDuration (duration : Z)
| SetDefaultQuorum (quorum : Z)
| SetMaxOptions (max : Z)
| SetAdministrator (account : address) (status : bool)
| TransferOwnership (newOwner : address).

Definition call (env : Env) (c : Call) (s : State) : Result :=
  match c with
  | SetMinVotingDuration duration => setMinVotingDuration env duration s
  | SetMaxVotingDuration duration => setMaxVotingDuration env duration s
  | SetDefaultQuorum quorum => setDefaultQuorum env quorum s
  | SetMaxOptions max => setMaxOptions env max s
  | SetAdministrator account status => setAdministrator env account status s
  | TransferOwnership newOwner => transferOwnership env newOwner s
  end.

(** The storage after a transaction. *)
Definition after (env : Env) (c : Call) (s : State) : State :=
  match call env c s with
  | Success s' _ => s'
  | Reverted _ => s
  end.

Inductive reachable : State -> Prop :=
| reach_deploy (deployer : address) : reachable (constructor deployer)
| reach_call (s : State) (env : Env) (c : Call) :
    reachable s -> reachable (after env c s).

(** The storage [s] results from [s0] by running further transactions. *)
Inductive later (s0 : State) : State -> Prop :=
| later_now : later s0 s0
| later_call (s : State) (env : Env) (c : Call) :
    later s0 s -> later s0 (after env c s).
End GovernanceParams.

(** The contract after [deployer] has stripped itself of the
    administrator flag. *)
Definition self_demoted : State :=
  post (run (at_time deployer 1000) (SetAdministrator deployer false)
          (constructor deployer)).

(** The encrypted flag decrypts to the clear flag. *)
Definition flags_agree (s : State) : Prop :=
  forall id voter,
    decryptBool (sload EB_uninit (hasVoted s) (id, voter)) = voted_at s id voter.

(** The total of a created proposal counts its voters, and an id that was
    never allocated has none. *)
Definition total_counts_voters (s : State) : Prop :=
  (forall id, created s id ->
     decrypted_total s id = Z.of_nat (voters s id) mod uint32_mod)
  /\ (forall id voter, ~ created s id -> voted_at s id voter = false).

(** The bounds the setters maintain. *)
Definition governance_bounds (s : GovernanceParams.State) : Prop :=
  0 < GovernanceParams.minVotingDuration s < GovernanceParams.maxVotingDuration s
  /\ GovernanceParams.minOptions s = 2
  /\ 2 <= GovernanceParams.maxOptions s <= 100.

(** The parameter store after its administrator has narrowed the range of
    durations to between one and seven days. *)
Definition governance_tuned : GovernanceParams.State :=
  GovernanceParams.after (at_time deployer 20)
    (GovernanceParams.SetMaxVotingDuration (days 7))
    (GovernanceParams.after (at_time deployer 10)
       (GovernanceParams.SetMinVotingDuration (days 1))
       (GovernanceParams.constructor deployer)).

(* ===================================================================== *)
(** ** Storage lemmas *)
(* ===================================================================== *)

Lemma sload_insert_eq {K V} `{Countable K} (zero v : V) (m : gmap K V) (k : K) :
  sload zero (<[ k := v ]> m) k = v.
Proof. unfold sload. by rewrite lookup_insert_eq. Qed.

Lemma sload_insert_ne {K V} `{Countable K} (zero v : V) (m : gmap K V) (k k' : K) :
  k <> k' -> sload zero (<[ k := v ]> m) k' = sload zero m k'.
Proof. intros Hne. unfold sload. by rewrite lookup_insert_ne. Qed.

Lemma sload_empty {K V} `{Countable K} (zero : V) (k : K) :
  sload zero (∅ : gmap K V) k = zero.
Proof. unfold sload. by rewrite lookup_empty. Qed.

Lemma results_at_with_results_eq id r s :
  results_at (with_results id r s) id = r.
Proof. unfold results_at, with_results. simpl. apply sload_insert_eq. Qed.

Lemma results_at_with_results_ne id id' r s :
  id <> id' -> results_at (with_results id r s) id' = results_at s id'.
Proof. intros Hne. unfold results_at, with_results. simpl. by apply sload_insert_ne. Qed.

Lemma with_results_twice id r1 r2 s :
  with_results id r2 (with_results id r1 s) = with_results id r2 s.
Proof.
  unfold with_results, set_proposalResults. simpl. by rewrite insert_insert_eq.
Qed.

Lemma with_results_same id r s :
  proposalResults s !! id = Some r -> with_results id r s = s.
Proof.
  intros Hr. destruct s. unfold with_results, set_proposalResults. simpl in *.
  f_equal. by apply insert_id.
Qed.

Lemma results_at_lookup id r s :
  proposalResults s !! id = Some r -> results_at s id = r.
Proof. intros Hr. unfold results_at, sload. by rewrite Hr. Qed.

(** A slot holding a non-empty array has been written. *)
Lemma results_at_present id s :
  optionVotes (results_at s id) <> [] ->
  proposalResults s !! id = Some (results_at s id).
Proof.
  unfold results_at, sload. destruct (proposalResults s !! id); simpl; [done|].
  intros Hne. by destruct Hne.
Qed.

(* ===================================================================== *)
(** ** The loops *)
(* ===================================================================== *)

Ltac munfold :=
  cbv beta iota zeta delta
    [bind ret gets modify perform throw require emit checked_add
     array_get for_range load_optionVote load_totalVotes push_optionVote
     store_optionVote store_totalVotes
     FHE.asEuint8 FHE.asEuint32 FHE.asEbool FHE.eq FHE.select FHE.add
     FHE.allowThis FHE.allow FHE.allowTransient FHE.makePubliclyDecryptable].

(** A permission primitive goes through on a handle the library returned. *)
Lemma guarded_ok h e s l :
  initialized h = true -> FHE.guarded h e s l = Ok tt s (l ++ [e]).
Proof. intros Hh. unfold FHE.guarded. by rewrite Hh. Qed.

Lemma guarded_refused h e s l :
  initialized h = false -> FHE.guarded h e s l = Fail SenderNotAllowed l.
Proof. intros Hh. unfold FHE.guarded. by rewrite Hh. Qed.

Lemma for_loop_step fuel i body s l :
  for_loop (S fuel) i body s l =
  match body i s l with
  | Ok _ s' l' => for_loop fuel (i + 1) body s' l'
  | Fail e l' => Fail e l'
  end.
Proof. reflexivity. Qed.

Lemma tally_body_spec id option i c L T s l :
  results_at s id = {| optionVotes := L; totalVotes := T |} ->
  L !! Z.to_nat i = Some c ->
  tally_body id option i s l =
  Ok tt
     (with_results id
        {| optionVotes := <[ Z.to_nat i := E32_add c (increment_for option i) ]> L;
           totalVotes := T |} s)
     (l ++ tally_log option i [c]).
Proof.
  intros Hr Hc. unfold tally_body. munfold.
  rewrite Hr. simpl. rewrite Hc.
  rewrite results_at_with_results_eq. rewrite ?Hr. simpl.
  rewrite list_lookup_insert_eq by (by eapply lookup_lt_Some).
  rewrite guarded_ok by reflexivity.
  rewrite <- !app_assoc. reflexivity.
Qed.

Lemma tally_loop_spec id option (todo : list euint32) :
  forall (pre rest : list euint32) T s l,
    proposalResults s !! id
      = Some {| optionVotes := pre ++ todo ++ rest; totalVotes := T |} ->
    for_loop (length todo) (Z.of_nat (length pre)) (tally_body id option) s l =
    Ok tt
       (with_results id
          {| optionVotes :=
               pre ++ tally_from option (Z.of_nat (length pre)) todo ++ rest;
             totalVotes := T |} s)
       (l ++ tally_log option (Z.of_nat (length pre)) todo).
Proof.
  induction todo as [|c todo IH]; intros pre rest T s l Hs.
  - simpl in *. rewrite app_nil_r. unfold ret.
    by rewrite (with_results_same _ _ _ Hs).
  - cbn [length]. rewrite for_loop_step.
    erewrite tally_body_spec; [| by apply results_at_lookup |].
    2:{ rewrite Nat2Z.id. rewrite lookup_app_r by lia.
        by rewrite Nat.sub_diag. }
    rewrite Nat2Z.id.
    set (new := E32_add c (increment_for option (Z.of_nat (length pre)))).
    replace (<[ length pre := new ]> (pre ++ (c :: todo) ++ rest))
      with ((pre ++ [new]) ++ todo ++ rest).
    2:{ rewrite insert_app_r_alt by lia. rewrite Nat.sub_diag. simpl.
        by rewrite <- app_assoc. }
    replace (Z.of_nat (length pre) + 1)
      with (Z.of_nat (length (pre ++ [new])))
      by (rewrite length_app; simpl; lia).
    rewrite (IH (pre ++ [new]) rest T).
    2:{ unfold with_results. simpl. by rewrite lookup_insert_eq. }
    rewrite with_results_twice. rewrite length_app. simpl.
    replace (Z.of_nat (length pre + 1)) with (Z.of_nat (length pre) + 1) by lia.
    rewrite <- !app_assoc. simpl. reflexivity.
Qed.

Lemma init_body_spec id L T s l :
  results_at s id = {| optionVotes := L; totalVotes := T |} ->
  init_body id (Z.of_nat (length L)) s l =
  Ok tt
     (with_results id {| optionVotes := L ++ [E32_trivial 0]; totalVotes := T |} s)
     (l ++ init_log 1).
Proof.
  intros Hr. unfold init_body. munfold. rewrite Hr. simpl.
  rewrite results_at_with_results_eq. rewrite ?Hr. simpl. rewrite Nat2Z.id.
  rewrite lookup_app_r by lia. rewrite Nat.sub_diag. simpl.
  rewrite guarded_ok by reflexivity.
  rewrite <- !app_assoc. reflexivity.
Qed.

Lemma init_loop_spec id (n : nat) :
  forall L T s l,
    results_at s id = {| optionVotes := L; totalVotes := T |} ->
    for_loop (S n) (Z.of_nat (length L)) (init_body id) s l =
    Ok tt
       (with_results id
          {| optionVotes := L ++ replicate (S n) (E32_trivial 0);
             totalVotes := T |} s)
       (l ++ init_log (S n)).
Proof.
  induction n as [|n IH]; intros L T s l Hr.
  - rewrite for_loop_step. rewrite (init_body_spec _ _ _ _ _ Hr). reflexivity.
  - rewrite for_loop_step. rewrite (init_body_spec _ _ _ _ _ Hr).
    replace (Z.of_nat (length L) + 1)
      with (Z.of_nat (length (L ++ [E32_trivial 0])))
      by (rewrite length_app; simpl; lia).
    rewrite (IH (L ++ [E32_trivial 0]) T)
      by apply results_at_with_results_eq.
    rewrite with_results_twice. rewrite <- !app_assoc. reflexivity.
Qed.

Lemma Forall_initialized_tally_from option (L : list euint32) :
  forall i, Forall (fun c => initialized (H32 c) = true) (tally_from option i L).
Proof. induction L as [|c L IH]; intros i; simpl; by constructor. Qed.

Lemma Forall_initialized_replicate n :
  Forall (fun c => initialized (H32 c) = true) (replicate n trivial_zero).
Proof. induction n; simpl; by constructor. Qed.

(** The permission loops read the array and leave the storage alone. *)
Lemma each_option_loop_spec id (action : Handle -> M unit) (eff : Handle -> Effect) :
  (forall h s l, initialized h = true -> action h s l = Ok tt s (l ++ [eff h])) ->
  forall (todo pre rest : list euint32) s l,
    Forall (fun c => initialized (H32 c) = true) todo ->
    optionVotes (results_at s id) = pre ++ todo ++ rest ->
    for_loop (length todo) (Z.of_nat (length pre)) (each_option id action) s l =
    Ok tt s (l ++ map (fun c => eff (H32 c)) todo).
Proof.
  intros Hact. induction todo as [|c todo IH]; intros pre rest s l Hall Hr.
  - simpl. by rewrite app_nil_r.
  - apply Forall_cons in Hall as [Hc Hall].
    cbn [length]. rewrite for_loop_step.
    unfold each_option at 1. munfold. rewrite Hr. rewrite Nat2Z.id.
    rewrite lookup_app_r by lia. rewrite Nat.sub_diag. simpl.
    rewrite Hact by done.
    replace (Z.of_nat (length pre) + 1)
      with (Z.of_nat (length (pre ++ [c]))) by (rewrite length_app; simpl; lia).
    rewrite (IH (pre ++ [c]) rest) by (done || by rewrite <- app_assoc).
    rewrite <- app_assoc. reflexivity.
Qed.

(** The tally loop over the whole array. *)
Lemma tally_range_spec id option L T s l :
  results_at s id = {| optionVotes := L; totalVotes := T |} ->
  exists s1,
    for_loop (length L) 0 (tally_body id option) s l
      = Ok tt s1 (l ++ tally_log option 0 L)
    /\ results_at s1 id = {| optionVotes := tally_from option 0 L; totalVotes := T |}
    /\ forall r', with_results id r' s1 = with_results id r' s.
Proof.
  intros Hr. destruct L as [|c L].
  - exists s. simpl. unfold ret. rewrite app_nil_r. by repeat split.
  - assert (Hs : proposalResults s !! id
                 = Some {| optionVotes := [] ++ (c :: L) ++ []; totalVotes := T |}).
    { rewrite app_nil_r. simpl. rewrite <- Hr. apply results_at_present.
      by rewrite Hr. }
    pose proof (tally_loop_spec id option (c :: L) [] [] T s l Hs) as Hloop.
    rewrite app_nil_r in Hloop. simpl length in Hloop. simpl Z.of_nat in Hloop.
    eexists. split; [exact Hloop|]. split.
    + by rewrite results_at_with_results_eq.
    + intros r'. by rewrite with_results_twice.
Qed.

Lemma each_option_range_spec id (action : Handle -> M unit) (eff : Handle -> Effect) s l :
  (forall h s l, initialized h = true -> action h s l = Ok tt s (l ++ [eff h])) ->
  Forall (fun c => initialized (H32 c) = true) (optionVotes (results_at s id)) ->
  for_loop (length (optionVotes (results_at s id))) 0 (each_option id action) s l
  = Ok tt s (l ++ map (fun c => eff (H32 c)) (optionVotes (results_at s id))).
Proof.
  intros Hact Hall.
  apply (each_option_loop_spec id action eff Hact
           (optionVotes (results_at s id)) [] [] s l); [done|].
  by rewrite app_nil_r.
Qed.

Lemma length_tally_from option (L : list euint32) :
  forall i, length (tally_from option i L) = length L.
Proof. induction L as [|c L IH]; intros i; simpl; [done|]. by rewrite IH. Qed.

(* ===================================================================== *)
(** ** The external functions, run by run *)
(* ===================================================================== *)

Lemma vote_ok env id ct s :
  counters_match s id ->
  Proposal.startTime (proposal_at s id) <= timestamp env ->
  timestamp env <= Proposal.endTime (proposal_at s id) ->
  Proposal.finalized (proposal_at s id) = false ->
  voted_at s id (sender env) = false ->
  vote env id ct ValidProof s [] = Ok tt (voted_state env id ct s) (vote_log env id ct s).
Proof.
  intros Hlen Hstart Hend Hfin Hvoted.
  destruct (results_at s id) as [L T] eqn:Hr.
  assert (Hn : Z.to_nat (Proposal.optionCount (proposal_at s id)) = length L).
  { unfold counters_match in Hlen. rewrite Hr in Hlen. simpl in Hlen. lia. }
  unfold vote, FHE.fromExternal. munfold. rewrite !Hn.
  apply Z.leb_le in Hstart as ->. cbn beta iota.
  apply Z.leb_le in Hend as ->. cbn beta iota.
  rewrite Hfin. cbn beta iota delta [negb].
  rewrite Hvoted. cbn beta iota delta [negb].
  destruct (tally_range_spec id (E8_fromExternal ct) L T s
              ([] ++ [FheFromExternal ct]) Hr) as (s1 & Hloop & Hr1 & Hsame).
  rewrite Hloop. rewrite Hr1. cbn beta iota.
  rewrite Hsame. cbn [optionVotes totalVotes].
  set (r' := {| optionVotes := tally_from (E8_fromExternal ct) 0 L;
                totalVotes := E32_add T (E32_trivial 1) |}).
  rewrite results_at_with_results_eq. cbn [totalVotes].
  rewrite guarded_ok by reflexivity. cbn beta iota.
  unfold voted_state, vote_log. rewrite Hr.
  unfold voted_results. cbn [optionVotes totalVotes]. fold r'.
  set (s2 := set_hasVotedClear _ _).
  assert (Hr2 : results_at s2 id = r').
  { subst s2. unfold results_at. simpl. apply sload_insert_eq. }
  assert (Hflag : sload EB_uninit (hasVoted s2) (id, sender env) = EB_trivial true).
  { subst s2. simpl. apply sload_insert_eq. }
  rewrite Hflag. rewrite guarded_ok by reflexivity. cbn beta iota.
  unfold vote_disclosure.
  assert (Hfuel : length L = length (optionVotes (results_at s2 id))).
  { rewrite Hr2. subst r'. simpl. by rewrite length_tally_from. }
  destruct (Proposal.strategy (proposal_at s id)).
  - rewrite <- !app_assoc. reflexivity.
  - rewrite Hfuel.
    rewrite (each_option_range_spec id _ (fun h => AclAllow h (Proposal.owner (proposal_at s id))));
      [|by intros; apply guarded_ok
       |rewrite Hr2; apply Forall_initialized_tally_from].
    rewrite Hr2. rewrite guarded_ok by reflexivity.
    rewrite <- !app_assoc. reflexivity.
  - rewrite Hfuel.
    rewrite (each_option_range_spec id _ (fun h => AclAllowTransient h (sender env)));
      [|by intros; apply guarded_ok
       |rewrite Hr2; apply Forall_initialized_tally_from].
    rewrite Hr2. rewrite guarded_ok by reflexivity.
    rewrite <- !app_assoc. reflexivity.
Qed.

Lemma vote_not_started env id ct pf s l :
  timestamp env < Proposal.startTime (proposal_at s id) ->
  vote env id ct pf s l = Fail NotStarted l.
Proof.
  intros H. unfold vote. munfold.
  apply Z.leb_gt in H as ->. reflexivity.
Qed.

Lemma vote_ended env id ct pf s l :
  Proposal.startTime (proposal_at s id) <= timestamp env ->
  Proposal.endTime (proposal_at s id) < timestamp env ->
  vote env id ct pf s l = Fail Ended l.
Proof.
  intros H1 H2. unfold vote. munfold.
  apply Z.leb_le in H1 as ->. cbn beta iota.
  apply Z.leb_gt in H2 as ->. reflexivity.
Qed.

Lemma vote_finalized env id ct pf s l :
  Proposal.startTime (proposal_at s id) <= timestamp env ->
  timestamp env <= Proposal.endTime (proposal_at s id) ->
  Proposal.finalized (proposal_at s id) = true ->
  vote env id ct pf s l = Fail (Revert "Proposal finalized") l.
Proof.
  intros H1 H2 H3. unfold vote. munfold.
  apply Z.leb_le in H1 as ->. cbn beta iota.
  apply Z.leb_le in H2 as ->. cbn beta iota.
  rewrite H3. reflexivity.
Qed.

Lemma vote_already_voted env id ct pf s l :
  Proposal.startTime (proposal_at s id) <= timestamp env ->
  timestamp env <= Proposal.endTime (proposal_at s id) ->
  Proposal.finalized (proposal_at s id) = false ->
  voted_at s id (sender env) = true ->
  vote env id ct pf s l = Fail AlreadyVoted l.
Proof.
  intros H1 H2 H3 H4. unfold vote. munfold.
  apply Z.leb_le in H1 as ->. cbn beta iota.
  apply Z.leb_le in H2 as ->. cbn beta iota.
  rewrite H3. cbn beta iota delta [negb].
  rewrite H4. reflexivity.
Qed.

Lemma vote_bad_proof env id ct s l :
  Proposal.startTime (proposal_at s id) <= timestamp env ->
  timestamp env <= Proposal.endTime (proposal_at s id) ->
  Proposal.finalized (proposal_at s id) = false ->
  voted_at s id (sender env) = false ->
  vote env id ct InvalidProof s l = Fail ProofVerificationFailed l.
Proof.
  intros H1 H2 H3 H4. unfold vote, FHE.fromExternal. munfold.
  apply Z.leb_le in H1 as ->. cbn beta iota.
  apply Z.leb_le in H2 as ->. cbn beta iota.
  rewrite H3. cbn beta iota delta [negb].
  rewrite H4. reflexivity.
Qed.

(** Every run of [vote] either fails before the first library call or is
    the successful run described by [vote_ok]. *)
Lemma vote_cases env id ct pf s :
  counters_match s id ->
  (exists e, vote env id ct pf s [] = Fail e [])
  \/ (pf = ValidProof
      /\ Proposal.startTime (proposal_at s id) <= timestamp env
         <= Proposal.endTime (proposal_at s id)
      /\ Proposal.finalized (proposal_at s id) = false
      /\ voted_at s id (sender env) = false
      /\ vote env id ct pf s [] = Ok tt (voted_state env id ct s) (vote_log env id ct s)).
Proof.
  intros Hlen.
  destruct (Z.lt_ge_cases (timestamp env) (Proposal.startTime (proposal_at s id)))
    as [H1|H1].
  { left. eexists. by apply vote_not_started. }
  destruct (Z.lt_ge_cases (Proposal.endTime (proposal_at s id)) (timestamp env))
    as [H2|H2].
  { left. eexists. by apply vote_ended. }
  destruct (Proposal.finalized (proposal_at s id)) eqn:H3.
  { left. eexists. by apply vote_finalized. }
  destruct (voted_at s id (sender env)) eqn:H4.
  { left. eexists. by apply vote_already_voted. }
  destruct pf.
  - right. repeat split; try done. by apply vote_ok.
  - left. eexists. by apply vote_bad_proof.
Qed.

Lemma createProposal_ok env title description oc d strat q s :
  optionVotes (results_at s (proposalCount s)) = [] ->
  2 <= oc <= 10 -> 0 < d <= days 365 -> 0 < q ->
  proposalCount s + 1 <= uint256_max ->
  timestamp env + d <= uint256_max ->
  createProposal env title description oc d strat q s []
  = Ok (proposalCount s)
       (created_state env title description oc d strat q s)
       (created_log env title oc d s).
Proof.
  intros Hfresh Hoc Hd Hq Hcount Htime.
  unfold createProposal. munfold.
  replace (2 <=? oc) with true by (symmetry; apply Z.leb_le; lia).
  replace (oc <=? 10) with true by (symmetry; apply Z.leb_le; lia).
  cbn beta iota delta [andb].
  replace (0 <? d) with true by (symmetry; apply Z.ltb_lt; lia).
  replace (d <=? days 365) with true by (symmetry; apply Z.leb_le; lia).
  cbn beta iota delta [andb].
  replace (0 <? q) with true by (symmetry; apply Z.ltb_lt; lia).
  cbn beta iota.
  apply Z.leb_le in Hcount as ->. cbn beta iota.
  apply Z.leb_le in Htime as ->. cbn beta iota.
  destruct (Z.to_nat oc) as [|n] eqn:Hn; [lia|].
  set (s1 := set_proposals _ _).
  assert (Hr1 : results_at s1 (proposalCount s)
                = {| optionVotes := [];
                     totalVotes := totalVotes (results_at s (proposalCount s)) |}).
  { subst s1. unfold results_at in *. simpl.
    destruct (sload ProposalResults_zero (proposalResults s) (proposalCount s)).
    simpl in Hfresh. by subst. }
  pose proof (init_loop_spec (proposalCount s) n [] _ s1 [] Hr1) as Hloop.
  change (Z.of_nat (length (@nil euint32))) with 0 in Hloop. rewrite Hloop.
  rewrite !results_at_with_results_eq. rewrite with_results_twice.
  cbn [optionVotes totalVotes]. rewrite guarded_ok by reflexivity.
  cbn beta iota.
  unfold created_state, created_log, trivial_zero. rewrite Hn.
  rewrite <- !app_assoc. reflexivity.
Qed.

Lemma createProposal_bad_options env title description oc d strat q s l :
  ~ (2 <= oc <= 10) ->
  createProposal env title description oc d strat q s l
  = Fail (Revert "Invalid option count") l.
Proof.
  intros H. unfold createProposal. munfold.
  replace ((2 <=? oc) && (oc <=? 10)) with false; [done|].
  symmetry. apply andb_false_iff.
  destruct (Z.lt_ge_cases oc 2); [left; apply Z.leb_gt; lia|].
  right. apply Z.leb_gt. lia.
Qed.

Lemma createProposal_bad_duration env title description oc d strat q s l :
  2 <= oc <= 10 -> ~ (0 < d <= days 365) ->
  createProposal env title description oc d strat q s l
  = Fail (Revert "Invalid duration") l.
Proof.
  intros Hoc H. unfold createProposal. munfold.
  replace (2 <=? oc) with true by (symmetry; apply Z.leb_le; lia).
  replace (oc <=? 10) with true by (symmetry; apply Z.leb_le; lia).
  cbn beta iota delta [andb].
  replace ((0 <? d) && (d <=? days 365)) with false; [done|].
  symmetry. apply andb_false_iff.
  destruct (Z.lt_ge_cases 0 d); [|left; apply Z.ltb_ge; lia].
  right. apply Z.leb_gt. lia.
Qed.

Lemma createProposal_bad_quorum env title description oc d strat q s l :
  2 <= oc <= 10 -> 0 < d <= days 365 -> ~ 0 < q ->
  createProposal env title description oc d strat q s l
  = Fail (Revert "Invalid quorum") l.
Proof.
  intros Hoc Hd H. unfold createProposal. munfold.
  replace (2 <=? oc) with true by (symmetry; apply Z.leb_le; lia).
  replace (oc <=? 10) with true by (symmetry; apply Z.leb_le; lia).
  cbn beta iota delta [andb].
  replace (0 <? d) with true by (symmetry; apply Z.ltb_lt; lia).
  replace (d <=? days 365) with true by (symmetry; apply Z.leb_le; lia).
  cbn beta iota delta [andb].
  replace (0 <? q) with false by (symmetry; apply Z.ltb_ge; lia).
  reflexivity.
Qed.

Lemma createProposal_overflow env title description oc d strat q s l :
  2 <= oc <= 10 -> 0 < d <= days 365 -> 0 < q ->
  ~ (proposalCount s + 1 <= uint256_max /\ timestamp env + d <= uint256_max) ->
  createProposal env title description oc d strat q s l = Fail (Panic 17) l.
Proof.
  intros Hoc Hd Hq H. unfold createProposal. munfold.
  replace (2 <=? oc) with true by (symmetry; apply Z.leb_le; lia).
  replace (oc <=? 10) with true by (symmetry; apply Z.leb_le; lia).
  cbn beta iota delta [andb].
  replace (0 <? d) with true by (symmetry; apply Z.ltb_lt; lia).
  replace (d <=? days 365) with true by (symmetry; apply Z.leb_le; lia).
  cbn beta iota delta [andb].
  replace (0 <? q) with true by (symmetry; apply Z.ltb_lt; lia).
  cbn beta iota.
  destruct (proposalCount s + 1 <=? uint256_max) eqn:H1; [|done].
  cbn beta iota.
  destruct (timestamp env + d <=? uint256_max) eqn:H2; [|done].
  apply Z.leb_le in H1, H2. by destruct H.
Qed.

Lemma finalizeProposal_ok env id s :
  counters_match s id ->
  counters_initialized s id ->
  finalize_permitted s id ->
  Proposal.endTime (proposal_at s id) < timestamp env ->
  Proposal.finalized (proposal_at s id) = false ->
  finalizeProposal env id s [] = Ok tt (finalized_state id s) (finalized_log s id).
Proof.
  intros Hlen Hall Hperm Hend Hfin.
  assert (Hn : Z.to_nat (Proposal.optionCount (proposal_at s id))
               = length (optionVotes (results_at (finalized_state id s) id))).
  { unfold counters_match in Hlen. unfold finalized_state, results_at in *.
    simpl. lia. }
  unfold finalizeProposal. munfold. rewrite !Hn.
  apply Z.ltb_lt in Hend as ->. cbn beta iota.
  rewrite Hfin. cbn beta iota delta [negb].
  fold (finalized_state id s).
  unfold finalized_log, finalize_disclosure.
  assert (Hr : results_at (finalized_state id s) id = results_at s id) by reflexivity.
  unfold finalize_permitted, total_initialized in Hperm.
  destruct (Proposal.strategy (proposal_at s id)).
  - destruct Hperm as [?|Ht]; [done|].
    rewrite (each_option_range_spec id _ (fun h => AclMakePubliclyDecryptable h));
      [|by intros; apply guarded_ok|by rewrite Hr].
    rewrite Hr. rewrite guarded_ok by done.
    rewrite <- !app_assoc. reflexivity.
  - destruct Hperm as [?|Ht]; [done|].
    rewrite (each_option_range_spec id _ (fun h => AclAllow h (owner (finalized_state id s))));
      [|by intros; apply guarded_ok|by rewrite Hr].
    rewrite Hr. rewrite guarded_ok by done.
    rewrite <- !app_assoc. reflexivity.
  - reflexivity.
Qed.

(** On a total that was never written the library refuses the call, and
    the transaction reverts after the counters were handled. *)
Lemma finalizeProposal_refused env id s :
  counters_match s id ->
  counters_initialized s id ->
  ~ finalize_permitted s id ->
  Proposal.endTime (proposal_at s id) < timestamp env ->
  Proposal.finalized (proposal_at s id) = false ->
  finalizeProposal env id s []
  = Fail SenderNotAllowed
      (match Proposal.strategy (proposal_at s id) with
       | PUBLIC_AFTER_END =>
           map (fun c => AclMakePubliclyDecryptable (H32 c)) (optionVotes (results_at s id))
       | OWNER_ONLY =>
           map (fun c => AclAllow (H32 c) (owner s)) (optionVotes (results_at s id))
       | QUALIFIED_ONLY => []
       end).
Proof.
  intros Hlen Hall Hperm Hend Hfin.
  assert (Hn : Z.to_nat (Proposal.optionCount (proposal_at s id))
               = length (optionVotes (results_at (finalized_state id s) id))).
  { unfold counters_match in Hlen. unfold finalized_state, results_at in *.
    simpl. lia. }
  unfold finalizeProposal. munfold. rewrite !Hn.
  apply Z.ltb_lt in Hend as ->. cbn beta iota.
  rewrite Hfin. cbn beta iota delta [negb].
  fold (finalized_state id s).
  assert (Hr : results_at (finalized_state id s) id = results_at s id) by reflexivity.
  assert (Ht : initialized (H32 (totalVotes (results_at s id))) = false).
  { unfold finalize_permitted, total_initialized in Hperm.
    destruct (initialized _); [|done]. destruct Hperm. by right. }
  unfold finalize_permitted in Hperm.
  destruct (Proposal.strategy (proposal_at s id)).
  - rewrite (each_option_range_spec id _ (fun h => AclMakePubliclyDecryptable h));
      [|by intros; apply guarded_ok|by rewrite Hr].
    rewrite Hr. by rewrite guarded_refused by done.
  - rewrite (each_option_range_spec id _ (fun h => AclAllow h (owner (finalized_state id s))));
      [|by intros; apply guarded_ok|by rewrite Hr].
    rewrite Hr. by rewrite guarded_refused by done.
  - destruct Hperm. by left.
Qed.

Lemma finalizeProposal_not_ended env id s l :
  timestamp env <= Proposal.endTime (proposal_at s id) ->
  finalizeProposal env id s l = Fail NotEnded l.
Proof.
  intros H. unfold finalizeProposal. munfold.
  apply Z.ltb_ge in H as ->. reflexivity.
Qed.

Lemma finalizeProposal_already env id s l :
  Proposal.endTime (proposal_at s id) < timestamp env ->
  Proposal.finalized (proposal_at s id) = true ->
  finalizeProposal env id s l = Fail AlreadyFinalized l.
Proof.
  intros H1 H2. unfold finalizeProposal. munfold.
  apply Z.ltb_lt in H1 as ->. cbn beta iota.
  rewrite H2. reflexivity.
Qed.

Lemma finalize_permitted_dec s id :
  finalize_permitted s id \/ ~ finalize_permitted s id.
Proof.
  unfold finalize_permitted.
  destruct (Proposal.strategy (proposal_at s id)), (total_initialized s id);
    (by left; (by left) || (by right)) || (right; by intros [|]).
Qed.

(** A call of [finalizeProposal] fails, or its guards hold and it runs to
    the end. *)
Lemma finalizeProposal_cases env id s :
  counters_match s id ->
  counters_initialized s id ->
  (exists e l, finalizeProposal env id s [] = Fail e l)
  \/ (Proposal.endTime (proposal_at s id) < timestamp env
      /\ Proposal.finalized (proposal_at s id) = false
      /\ finalize_permitted s id
      /\ finalizeProposal env id s []
         = Ok tt (finalized_state id s) (finalized_log s id)).
Proof.
  intros Hlen Hall.
  destruct (Z.lt_ge_cases (Proposal.endTime (proposal_at s id)) (timestamp env))
    as [H1|H1].
  2:{ left. eexists _, _. by apply finalizeProposal_not_ended. }
  destruct (Proposal.finalized (proposal_at s id)) eqn:H2.
  { left. eexists _, _. by apply finalizeProposal_already. }
  destruct (finalize_permitted_dec s id) as [H3|H3].
  2:{ left. eexists _, _. by apply finalizeProposal_refused. }
  right. repeat split; try done. by apply finalizeProposal_ok.
Qed.

Lemma grantDecryptionPermission_state env id account s :
  counters_match s id ->
  counters_initialized s id ->
  post (transact (grantDecryptionPermission env id account) s) = s.
Proof.
  intros Hlen Hall.
  assert (Hn : Z.to_nat (Proposal.optionCount (proposal_at s id))
               = length (optionVotes (results_at s id))).
  { unfold counters_match in Hlen. lia. }
  unfold transact, grantDecryptionPermission. munfold. rewrite Hn.
  destruct ((sender env =? Proposal.owner (proposal_at s id))
            || (sender env =? owner s) || is_administrator s (sender env));
    [|reflexivity].
  cbn beta iota.
  rewrite (each_option_range_spec id _ (fun h => AclAllow h account));
    [|by intros; apply guarded_ok|done].
  unfold FHE.guarded. by destruct (initialized _).
Qed.

(* ===================================================================== *)
(** ** The effect of one transaction on the storage *)
(* ===================================================================== *)

Lemma transact_fail {A} (m : M A) s e l :
  m s [] = Fail e l ->
  transact m s = {| outcome := Some e; post := s; trace := l |}.
Proof. intros H. unfold transact. by rewrite H. Qed.

Lemma transact_ok {A} (m : M A) s a s' l :
  m s [] = Ok a s' l ->
  transact m s = {| outcome := None; post := s'; trace := l |}.
Proof. intros H. unfold transact. by rewrite H. Qed.

Lemma effect_of_same env s c : effect_of env s c s.
Proof. by apply eff_none. Qed.

Lemma run_effect env c s :
  (forall id, counters_match s id) ->
  (forall id, counters_initialized s id) ->
  optionVotes (results_at s (proposalCount s)) = [] ->
  effect_of env s c (post (run env c s)).
Proof.
  intros Hlen Hall Hfresh. destruct c as [title description oc d strat q|id ct pf|id|id account
                                    |account status|account status|d]; simpl.
  - destruct (decide (2 <= oc <= 10)) as [Hoc|Hoc].
    2:{ erewrite transact_fail by (by apply createProposal_bad_options).
        apply effect_of_same. }
    destruct (decide (0 < d <= days 365)) as [Hd|Hd].
    2:{ erewrite transact_fail by (by apply createProposal_bad_duration).
        apply effect_of_same. }
    destruct (decide (0 < q)) as [Hq|Hq].
    2:{ erewrite transact_fail by (by apply createProposal_bad_quorum).
        apply effect_of_same. }
    destruct (decide (proposalCount s + 1 <= uint256_max
                      /\ timestamp env + d <= uint256_max)) as [[H1 H2]|Hov].
    2:{ erewrite transact_fail by (by apply createProposal_overflow).
        apply effect_of_same. }
    erewrite transact_ok by (by apply createProposal_ok). simpl.
    by apply eff_created.
  - destruct (vote_cases env id ct pf s (Hlen id))
      as [[e He]|(-> & Hwin & Hfin & Hv & Hok)].
    + erewrite transact_fail by exact He. apply effect_of_same.
    + erewrite transact_ok by exact Hok. simpl. by apply eff_voted.
  - destruct (finalizeProposal_cases env id s (Hlen id) (Hall id))
      as [(e & l & He)|(H1 & H2 & H3 & Hok)].
    + erewrite transact_fail by exact He. apply effect_of_same.
    + erewrite transact_ok by exact Hok. simpl. by apply eff_finalized.
  - rewrite grantDecryptionPermission_state by done. apply effect_of_same.
  - unfold transact, setProposer, onlyAdministrator. munfold.
    destruct (is_administrator s (sender env) || (sender env =? owner s));
      simpl; by apply eff_none.
  - unfold transact, setAdministrator, onlyOwner. munfold.
    destruct (sender env =? owner s); simpl; by apply eff_none.
  - unfold transact, setDefaultVotingDuration, onlyOwner. munfold.
    destruct (sender env =? owner s); simpl; [|by apply eff_none].
    destruct ((0 <? d) && (d <=? days 365)); simpl; by apply eff_none.
Qed.

(** *** Reading the three successor states *)

Lemma proposal_at_created env title description oc d strat q s id :
  proposal_at (created_state env title description oc d strat q s) id
  = if decide (proposalCount s = id)
    then Proposal.mk title description (timestamp env) (timestamp env + d)
           oc false (sender env) strat q
    else proposal_at s id.
Proof.
  unfold proposal_at, created_state. simpl. case_decide as Hid.
  - subst. apply sload_insert_eq.
  - by apply sload_insert_ne.
Qed.

Lemma results_at_created env title description oc d strat q s id :
  results_at (created_state env title description oc d strat q s) id
  = if decide (proposalCount s = id)
    then {| optionVotes := replicate (Z.to_nat oc) trivial_zero;
            totalVotes := trivial_zero |}
    else results_at s id.
Proof.
  unfold created_state. case_decide as Hid.
  - subst. apply results_at_with_results_eq.
  - by rewrite results_at_with_results_ne.
Qed.

Lemma proposalCount_created env title description oc d strat q s :
  proposalCount (created_state env title description oc d strat q s)
  = proposalCount s + 1.
Proof. reflexivity. Qed.

Lemma proposal_at_voted env id ct s id' :
  proposal_at (voted_state env id ct s) id' = proposal_at s id'.
Proof. reflexivity. Qed.

Lemma results_at_voted env id ct s id' :
  results_at (voted_state env id ct s) id'
  = if decide (id = id')
    then voted_results (E8_fromExternal ct) (results_at s id)
    else results_at s id'.
Proof.
  unfold voted_state. case_decide as Hid.
  - subst. unfold results_at. simpl. apply sload_insert_eq.
  - unfold results_at. simpl. by apply sload_insert_ne.
Qed.

Lemma voted_at_voted env id ct s id' voter :
  voted_at (voted_state env id ct s) id' voter
  = if decide ((id, sender env) = (id', voter)) then true else voted_at s id' voter.
Proof.
  unfold voted_at, voted_state. simpl. case_decide as Hid.
  - rewrite Hid. apply sload_insert_eq.
  - by apply sload_insert_ne.
Qed.

Lemma proposal_at_finalized id s id' :
  proposal_at (finalized_state id s) id'
  = if decide (id = id')
    then Proposal.set_finalized true (proposal_at s id)
    else proposal_at s id'.
Proof.
  unfold proposal_at, finalized_state. simpl. case_decide as Hid.
  - subst. apply sload_insert_eq.
  - by apply sload_insert_ne.
Qed.

Lemma results_at_finalized id s id' :
  results_at (finalized_state id s) id' = results_at s id'.
Proof. reflexivity. Qed.

(* ===================================================================== *)
(** ** The invariants hold in every reachable state *)
(* ===================================================================== *)

Lemma Inv_fresh s now :
  Inv s now -> optionVotes (results_at s (proposalCount s)) = [].
Proof.
  intros HI.
  pose proof (inv_counters _ _ HI (proposalCount s)) as Hlen.
  pose proof (inv_absent _ _ HI (proposalCount s)) as Habs.
  unfold counters_match in Hlen. rewrite Habs in Hlen by (unfold created; lia).
  simpl in Hlen. destruct (optionVotes _); [done|simpl in Hlen; lia].
Qed.

Lemma Inv_constructor deployer now : Inv (constructor deployer) now.
Proof.
  split; intros;
    unfold counters_match, counters_initialized, total_initialized,
      proposal_at, results_at, created in *;
    simpl in *; rewrite ?sload_empty in *; simpl in *; try done; lia.
Qed.

Lemma Inv_later s now now' : Inv s now -> now <= now' -> Inv s now'.
Proof.
  intros [] Hle. split; try done.
  intros id Hf. specialize (inv_finalized0 id Hf). lia.
Qed.

Lemma Inv_effect env c s s' now :
  Inv s now -> now <= timestamp env -> effect_of env s c s' ->
  Inv s' (timestamp env).
Proof.
  intros HI Hnow Heff. apply (Inv_later _ _ _ HI) in Hnow as HI'.
  destruct HI' as [Hc Hlen Hini Htot Hwin Hfin Habs Hopt Hsto].
  destruct Heff as [c s' Hp Hr Hn Hv|title description oc d strat q Hoc Hd Hq
                   |id ct Hw Hf Hv|id He Hf Hperm].
  - split;
      unfold counters_match, counters_initialized, total_initialized,
        created, proposal_at, results_at in *;
      rewrite ?Hp, ?Hr, ?Hn; done.
  - split.
    + rewrite proposalCount_created. lia.
    + intros id. unfold counters_match.
      rewrite results_at_created, proposal_at_created. case_decide.
      * simpl. rewrite length_replicate. lia.
      * apply Hlen.
    + intros id. unfold counters_initialized.
      rewrite results_at_created. case_decide; [|apply Hini].
      apply Forall_initialized_replicate.
    + intros id Hid. unfold created in Hid. rewrite proposalCount_created in Hid.
      unfold total_initialized. rewrite results_at_created.
      case_decide; [done|]. apply Htot. unfold created. lia.
    + intros id. rewrite proposal_at_created. case_decide; [simpl; lia|apply Hwin].
    + intros id. rewrite proposal_at_created. case_decide; [done|apply Hfin].
    + intros id Hid. unfold created in Hid. rewrite proposalCount_created in Hid.
      rewrite proposal_at_created. case_decide; [lia|].
      apply Habs. unfold created. lia.
    + intros id Hid. unfold created in Hid. rewrite proposalCount_created in Hid.
      rewrite proposal_at_created. case_decide; [simpl; lia|].
      apply Hopt. unfold created. lia.
    + intros id Hid. unfold created in Hid. rewrite proposalCount_created in Hid.
      unfold created_state. simpl. rewrite lookup_insert. case_decide; [done|].
      apply Hsto. unfold created. lia.
  - split; try done.
    + intros id'. unfold counters_match.
      rewrite results_at_voted, proposal_at_voted. case_decide.
      * subst. unfold voted_results. simpl. rewrite length_tally_from. apply Hlen.
      * apply Hlen.
    + intros id'. unfold counters_initialized.
      rewrite results_at_voted. case_decide; [|apply Hini].
      apply Forall_initialized_tally_from.
    + intros id' Hid. unfold total_initialized.
      rewrite results_at_voted. case_decide; [done|]. by apply Htot.
  - split; try done.
    + intros id'. unfold counters_match.
      rewrite results_at_finalized, proposal_at_finalized.
      case_decide; [subst; simpl|]; apply Hlen.
    + intros id'. rewrite proposal_at_finalized.
      case_decide; [subst; simpl|]; apply Hwin.
    + intros id'. rewrite proposal_at_finalized.
      case_decide; [subst; simpl; intros _; lia|apply Hfin].
    + intros id' Hid. rewrite proposal_at_finalized.
      case_decide; [subst|by apply Habs].
      unfold unallocated. simpl. specialize (Habs _ Hid).
      unfold unallocated in Habs. rewrite Habs. reflexivity.
    + intros id' Hid. rewrite proposal_at_finalized.
      case_decide; [subst; simpl|]; by apply Hopt.
    + intros id' Hid. unfold finalized_state. simpl. rewrite lookup_insert.
      case_decide; [done|]. by apply Hsto.
Qed.

Lemma reachable_by_Inv ok s now : reachable_by ok s now -> Inv s now.
Proof.
  induction 1 as [deployer now|s now env c Hreach IH Hnow Hok].
  - apply Inv_constructor.
  - eapply Inv_effect; [exact IH|exact Hnow|].
    apply run_effect; [apply IH|apply IH|by eapply Inv_fresh].
Qed.

Lemma reachable_by_weaken (ok ok' : State -> Env -> Call -> Prop) s now :
  (forall s env c, ok s env c -> ok' s env c) ->
  reachable_by ok s now -> reachable_by ok' s now.
Proof.
  intros Himp. induction 1; [apply reach_deploy|].
  apply reach_call with (now := now); auto.
Qed.

(** The vote guard is never cleared. *)
Lemma voted_at_effect env c s s' id voter :
  effect_of env s c s' -> voted_at s id voter = true -> voted_at s' id voter = true.
Proof.
  intros Heff Hv. destruct Heff as [c s' _ _ _ Hvc| | |]; try done.
  - unfold voted_at. by rewrite Hvc.
  - rewrite voted_at_voted. by case_decide.
Qed.

(* ===================================================================== *)
(** ** Plaintexts of the tally *)
(* ===================================================================== *)

Lemma uint32_mod_pos : 0 < uint32_mod.
Proof. reflexivity. Qed.

Lemma decrypt32_range (h : euint32) : 0 <= decrypt32 h < uint32_mod.
Proof.
  induction h as [|v|a IHa b IHb|c a IHa b IHb]; simpl.
  - split; [lia|reflexivity].
  - apply Z.mod_pos_bound, uint32_mod_pos.
  - apply Z.mod_pos_bound, uint32_mod_pos.
  - by destruct (decryptBool c).
Qed.

Lemma sumZ_decrypt32_nonneg (L : list euint32) : 0 <= sumZ (map decrypt32 L).
Proof.
  induction L as [|c L IH]; simpl; [lia|].
  pose proof (decrypt32_range c). lia.
Qed.

(** What one iteration of the tally loop adds to counter [i]: one when the
    ballot encrypts [i], zero otherwise. *)
Lemma decrypt32_increment ct i c :
  0 <= ext_plain ct < uint8_mod -> 0 <= i < uint8_mod ->
  decrypt32 (E32_add c (increment_for (E8_fromExternal ct) i))
  = (decrypt32 c + (if decide (ext_plain ct = i) then 1 else 0)) mod uint32_mod.
Proof.
  intros Hp Hi. cbn [decrypt32 increment_for decryptBool decrypt8].
  rewrite (Z.mod_small (ext_plain ct)), (Z.mod_small i) by done.
  change (1 mod uint32_mod) with 1. change (0 mod uint32_mod) with 0.
  case_decide as Heq.
  - subst. by rewrite Z.eqb_refl.
  - apply Z.eqb_neq in Heq as ->. reflexivity.
Qed.

(** A ballot outside the range of a slice of counters leaves their
    plaintexts as they were. *)
Lemma decrypt_tally_from_outside ct (L : list euint32) :
  forall i,
    0 <= ext_plain ct < uint8_mod ->
    0 <= i -> i + Z.of_nat (length L) <= uint8_mod ->
    ~ (i <= ext_plain ct < i + Z.of_nat (length L)) ->
    map decrypt32 (tally_from (E8_fromExternal ct) i L) = map decrypt32 L.
Proof.
  induction L as [|c L IH]; intros i Hp Hi Hlen Hout; [done|].
  cbn [tally_from map]. cbn [length] in Hlen, Hout.
  rewrite decrypt32_increment by lia.
  rewrite decide_False by lia. rewrite Z.add_0_r.
  rewrite Z.mod_small by apply decrypt32_range.
  f_equal. apply IH; lia.
Qed.

(** A ballot inside the range adds exactly one to the sum of the slice,
    modulo the width of the counters. *)
Lemma sum_tally_from ct (L : list euint32) :
  forall i,
    0 <= ext_plain ct < uint8_mod ->
    0 <= i -> i + Z.of_nat (length L) <= uint8_mod ->
    sumZ (map decrypt32 (tally_from (E8_fromExternal ct) i L)) mod uint32_mod
    = (sumZ (map decrypt32 L)
       + (if decide (i <= ext_plain ct < i + Z.of_nat (length L)) then 1 else 0))
      mod uint32_mod.
Proof.
  induction L as [|c L IH]; intros i Hp Hi Hlen.
  - simpl. rewrite decide_False by lia. reflexivity.
  - cbn [tally_from map sumZ]. cbn [length] in *.
    rewrite decrypt32_increment by lia.
    rewrite Zplus_mod_idemp_l.
    rewrite <- Zplus_mod_idemp_r. rewrite IH by lia. rewrite Zplus_mod_idemp_r.
    f_equal.
    destruct (decide (ext_plain ct = i)) as [Heq|Hne].
    + rewrite (decide_False (P := i + 1 <= _ < _)) by lia.
      rewrite decide_True by lia. lia.
    + destruct (decide (i + 1 <= ext_plain ct < i + 1 + Z.of_nat (length L))).
      * rewrite decide_True by lia. lia.
      * rewrite decide_False by lia. lia.
Qed.

Lemma tally_consistent_effect env c s s' now id :
  Inv s now ->
  ballots_in_range_on id s env c ->
  effect_of env s c s' ->
  (created s id -> tally_consistent s id) ->
  created s' id -> tally_consistent s' id.
Proof.
  intros HI Hrange Heff IH Hid.
  destruct Heff as [c s' Hp Hr Hn Hv|title description oc d strat q Hoc Hd Hq
                   |id0 ct Hw Hf Hv|id0 He Hf Hperm].
  - unfold tally_consistent, decrypted_total, decrypted_options, results_at, created in *.
    rewrite Hr. apply IH. by rewrite <- Hn.
  - unfold tally_consistent, decrypted_total, decrypted_options.
    rewrite results_at_created. case_decide as Hnew.
    + simpl. clear. induction (Z.to_nat oc) as [|n IHn]; [done|].
      simpl. rewrite Z.add_0_l. by rewrite <- IHn.
    + apply IH. unfold created in *. rewrite proposalCount_created in Hid. lia.
  - unfold tally_consistent, decrypted_total, decrypted_options.
    rewrite results_at_voted. case_decide as Hsame; [subst id0|by apply IH].
    assert (Hc : created s id) by exact Hid.
    specialize (IH Hc). unfold tally_consistent, decrypted_total, decrypted_options in IH.
    pose proof (inv_counters _ _ HI id) as Hlen.
    pose proof (inv_options _ _ HI id Hc) as Hopt.
    assert (Hin : 0 <= ext_plain ct < Proposal.optionCount (proposal_at s id)).
    { apply Hrange; [done|]. cbn [run].
      by erewrite transact_ok by (apply vote_ok; [done|lia|lia|done..]). }
    unfold counters_match in Hlen.
    unfold voted_results. cbn [optionVotes totalVotes].
    cbn [decrypt32]. rewrite IH.
    rewrite sum_tally_from by (unfold uint8_mod; simpl; lia).
    rewrite decide_True by lia.
    rewrite Zplus_mod_idemp_l. rewrite Zplus_mod_idemp_r. reflexivity.
  - unfold tally_consistent, decrypted_total, decrypted_options.
    rewrite results_at_finalized. by apply IH.
Qed.

Lemma tally_consistent_reachable s now id :
  reachable_by (ballots_in_range_on id) s now ->
  created s id -> tally_consistent s id.
Proof.
  induction 1 as [deployer now|s now env c Hreach IH Hnow Hok].
  - intros Hid. unfold created in Hid. simpl in Hid. lia.
  - pose proof (reachable_by_Inv _ _ _ Hreach) as HI.
    eapply tally_consistent_effect; eauto.
    apply run_effect; [apply HI|apply HI|by eapply Inv_fresh].
Qed.

(* ===================================================================== *)
(** ** The scenarios are reachable *)
(* ===================================================================== *)

(** Replace a closed term of the goal by its value. *)
Ltac evaluate t :=
  let v := eval vm_compute in t in
  let H := fresh "Hval" in
  assert (H : t = v) by (vm_compute; reflexivity);
  rewrite H; clear H.

Lemma reachable_by_opened ok strategy :
  ok (constructor deployer) (at_time deployer 900) (SetProposer alice true) ->
  ok deployed (at_time alice 1000) (open_call strategy) ->
  reachable_by ok (opened strategy) 1000.
Proof.
  intros Hok0 Hok.
  apply (reach_call ok deployed 900 (at_time alice 1000) (open_call strategy));
    [|simpl; lia|exact Hok].
  apply (reach_call ok (constructor deployer) 900 (at_time deployer 900)
           (SetProposer alice true));
    [apply reach_deploy|simpl; lia|exact Hok0].
Defined.

Lemma reachable_by_after_bob ok strategy option :
  ok (constructor deployer) (at_time deployer 900) (SetProposer alice true) ->
  ok deployed (at_time alice 1000) (open_call strategy) ->
  ok (opened strategy) (at_time bob 1001) (bob_votes option) ->
  reachable_by ok (after_bob strategy option) 1001.
Proof.
  intros Hok0 Hok1 Hok2.
  apply (reach_call ok (opened strategy) 1000 (at_time bob 1001) (bob_votes option));
    [by apply reachable_by_opened|simpl; lia|exact Hok2].
Defined.

(* ===================================================================== *)
(** ** C1: the total and the per-option counters *)
(* ===================================================================== *)

(** C1, counterexample.  The claim is that the decrypted total equals the
    sum of the decrypted per-option counters after any sequence of accepted
    votes.  On a proposal with two options, a ballot that encrypts 5 is
    accepted; it adds one to the total and nothing to either option, so
    the total is 1 and the options sum to 0. *)
Lemma tally_total_is_sum_counterexample :
  reachable (after_bob PUBLIC_AFTER_END 5) 1001
  /\ created (after_bob PUBLIC_AFTER_END 5) 0
  /\ outcome (run (at_time bob 1001) (bob_votes 5) (opened PUBLIC_AFTER_END)) = None
  /\ decrypted_total (after_bob PUBLIC_AFTER_END 5) 0 = 1
  /\ decrypted_options (after_bob PUBLIC_AFTER_END 5) 0 = [0; 0]
  /\ decrypted_total (after_bob PUBLIC_AFTER_END 5) 0
     <> sumZ (decrypted_options (after_bob PUBLIC_AFTER_END 5) 0).
Proof.
  split; [by apply reachable_by_after_bob|].
  split; [by vm_compute|].
  split; [by vm_compute|].
  evaluate (decrypted_total (after_bob PUBLIC_AFTER_END 5) 0).
  evaluate (decrypted_options (after_bob PUBLIC_AFTER_END 5) 0).
  split; [reflexivity|]. split; [reflexivity|]. simpl. lia.
Qed.

(** C1, as amended.  For a created proposal, in every state reached by
    transactions in which each ballot accepted on that proposal encrypts
    an index below its option count, whatever is submitted on the other
    proposals, the decrypted total equals the sum of the decrypted
    per-option counters modulo 2^32 (the counters are [euint32]); the two
    are equal as integers whenever that sum is below 2^32. *)
Theorem tally_total_is_sum s now id :
  reachable_by (ballots_in_range_on id) s now ->
  created s id ->
  decrypted_total s id = sumZ (decrypted_options s id) mod uint32_mod
  /\ (sumZ (decrypted_options s id) < uint32_mod ->
      decrypted_total s id = sumZ (decrypted_options s id)).
Proof.
  intros Hreach Hid.
  pose proof (tally_consistent_reachable s now id Hreach Hid) as Hcons.
  unfold tally_consistent in Hcons. split; [exact Hcons|].
  intros Hsmall. rewrite Hcons. apply Z.mod_small. split; [|exact Hsmall].
  apply sumZ_decrypt32_nonneg.
Qed.

(** The first proposal of [two_voted] received one ballot, in range; the
    second received the index 5, which its two options do not have. *)
Lemma tally_total_is_sum_witness :
  decrypted_total two_voted 0
  = sumZ (decrypted_options two_voted 0) mod uint32_mod
  /\ (sumZ (decrypted_options two_voted 0) < uint32_mod ->
      decrypted_total two_voted 0 = sumZ (decrypted_options two_voted 0)).
Proof.
  apply (tally_total_is_sum two_voted 1002 0).
  - apply (reach_call _ _ 1001 (at_time carol 1002) (Vote 1 (ballot 5) ValidProof));
      [|simpl; lia|intros Hid; discriminate Hid].
    apply (reach_call _ two_opened 1000 (at_time bob 1001) (bob_votes 1));
      [|simpl; lia|intros _ _; vm_compute; split; [discriminate|reflexivity]].
    apply (reach_call _ (opened PUBLIC_AFTER_END) 1000 (at_time alice 1000)
             (open_call PUBLIC_AFTER_END)); [|simpl; lia|exact I].
    apply reachable_by_opened; exact I.
  - vm_compute. split; [discriminate|reflexivity].
Defined.

(** In the same state the second proposal, on which the index 5 was
    accepted, has a total of 1 and counters that sum to 0. *)
Lemma two_voted_second_proposal :
  outcome (run (at_time carol 1002) (Vote 1 (ballot 5) ValidProof)
             (post (run (at_time bob 1001) (bob_votes 1) two_opened))) = None
  /\ decrypted_total two_voted 1 = 1
  /\ sumZ (decrypted_options two_voted 1) = 0.
Proof.
  split; [by vm_compute|]. split; by vm_compute.
Qed.

(* ===================================================================== *)
(** ** Permissions handed out by a call *)
(* ===================================================================== *)

Lemma tally_permissions_app (l1 l2 : list Effect) :
  tally_permissions (l1 ++ l2) = tally_permissions l1 ++ tally_permissions l2.
Proof. apply List.filter_app. Qed.

Lemma tally_permissions_tally_log option (L : list euint32) :
  forall i, tally_permissions (tally_log option i L) = [].
Proof.
  induction L as [|c L IH]; intros i; [done|].
  cbn [tally_log]. rewrite tally_permissions_app, IH. reflexivity.
Qed.

Lemma tally_permissions_grants (eff : Handle -> Effect) (L : list euint32) :
  (forall c, is_tally_permission (eff (H32 c)) = true) ->
  tally_permissions (map (fun c => eff (H32 c)) L) = map (fun c => eff (H32 c)) L.
Proof.
  intros Heff. induction L as [|c L IH]; [done|].
  unfold tally_permissions in *. simpl. by rewrite Heff, IH.
Qed.

Lemma tally_permissions_vote_log env id ct s :
  tally_permissions (vote_log env id ct s)
  = vote_disclosure (proposal_at s id) (sender env)
      (voted_results (E8_fromExternal ct) (results_at s id)).
Proof.
  unfold vote_log. rewrite !tally_permissions_app, tally_permissions_tally_log.
  unfold vote_disclosure. destruct (Proposal.strategy (proposal_at s id)).
  - reflexivity.
  - rewrite tally_permissions_app.
    rewrite (tally_permissions_grants (fun h => AclAllow h _)) by done.
    simpl. by rewrite app_nil_r.
  - rewrite tally_permissions_app.
    rewrite (tally_permissions_grants (fun h => AclAllowTransient h _)) by done.
    simpl. by rewrite app_nil_r.
Qed.

Lemma tally_permissions_finalized_log s id :
  tally_permissions (finalized_log s id) = finalize_disclosure s id.
Proof.
  unfold finalized_log. rewrite tally_permissions_app. simpl. rewrite app_nil_r.
  unfold finalize_disclosure. destruct (Proposal.strategy (proposal_at s id)).
  - rewrite tally_permissions_app.
    by rewrite (tally_permissions_grants (fun h => AclMakePubliclyDecryptable h)).
  - rewrite tally_permissions_app.
    by rewrite (tally_permissions_grants (fun h => AclAllow h _)).
  - reflexivity.
Qed.

(** What a successful [finalizeProposal] grants on an [OWNER_ONLY]
    proposal: persistent permissions to the contract's [owner]. *)
Lemma finalizeProposal_owner_only_permissions s now env id :
  reachable s now ->
  Proposal.strategy (proposal_at s id) = OWNER_ONLY ->
  outcome (run env (FinalizeProposal id) s) = None ->
  tally_permissions (trace (run env (FinalizeProposal id) s))
  = map (fun c => AclAllow (H32 c) (owner s)) (optionVotes (results_at s id))
    ++ [AclAllow (H32 (totalVotes (results_at s id))) (owner s)].
Proof.
  intros Hreach Hstrat Hout. apply reachable_by_Inv in Hreach as HI.
  simpl in *.
  destruct (Z.lt_ge_cases (Proposal.endTime (proposal_at s id)) (timestamp env))
    as [H1|H1].
  2:{ erewrite transact_fail in Hout by (by apply finalizeProposal_not_ended).
      discriminate. }
  destruct (Proposal.finalized (proposal_at s id)) eqn:H2.
  { erewrite transact_fail in Hout by (by apply finalizeProposal_already).
    discriminate. }
  destruct (finalize_permitted_dec s id) as [H3|H3].
  2:{ erewrite transact_fail in Hout
        by (apply finalizeProposal_refused; [apply HI|apply HI|done..]).
      discriminate. }
  erewrite transact_ok by (apply finalizeProposal_ok; [apply HI|apply HI|done..]).
  simpl. rewrite tally_permissions_finalized_log.
  unfold finalize_disclosure. by rewrite Hstrat.
Qed.

(* ===================================================================== *)
(** ** C2: finalizing an OWNER_ONLY proposal *)
(* ===================================================================== *)

(** C2.  The claim is that finalizing an [OWNER_ONLY] proposal grants the
    persistent decrypt permissions to the proposal's owner, the creator
    stored in the [Proposal] record, and to no one else.  Evaluated on a
    proposal created by [alice] in a contract owned by [deployer]: the call
    succeeds, every permission it grants goes to [deployer], and [alice]
    is granted nothing. *)
Theorem finalize_owner_only_grants_contract_owner :
  let s := after_bob OWNER_ONLY 1 in
  let r := run (at_time bob 2000) (FinalizeProposal 0) s in
  Proposal.strategy (proposal_at s 0) = OWNER_ONLY
  /\ Proposal.owner (proposal_at s 0) = alice
  /\ owner s = deployer
  /\ outcome r = None
  /\ tally_permissions (trace r)
     = map (fun c => AclAllow (H32 c) deployer) (optionVotes (results_at s 0))
       ++ [AclAllow (H32 (totalVotes (results_at s 0))) deployer]
  /\ forall h, ~ In (AclAllow h alice) (trace r).
Proof.
  cbv zeta. repeat split; try by vm_compute.
  intros h.
  evaluate (trace (run (at_time bob 2000) (FinalizeProposal 0) (after_bob OWNER_ONLY 1))).
  intros Hin. simpl in Hin.
  repeat (destruct Hin as [Hin|Hin]; [discriminate Hin|]). exact Hin.
Qed.

(* ===================================================================== *)
(** ** C3: a ballot for an option that does not exist *)
(* ===================================================================== *)

(** C3, counterexample.  The claim is that a vote whose option index is at
    least [optionCount] is rejected before any encrypted update.  [vote]
    receives the index encrypted and has no check on it: on a proposal with
    two options a ballot that encrypts 5 is accepted, and both per-option
    counters and the total are replaced by new ciphertexts. *)
Lemma vote_out_of_range_counterexample :
  let s := opened PUBLIC_AFTER_END in
  let r := run (at_time bob 1001) (bob_votes 5) s in
  Proposal.optionCount (proposal_at s 0) <= 5
  /\ outcome r = None
  /\ optionVotes (results_at (post r) 0) <> optionVotes (results_at s 0)
  /\ totalVotes (results_at (post r) 0) <> totalVotes (results_at s 0)
  /\ decrypted_total s 0 = 0
  /\ decrypted_total (post r) 0 = 1.
Proof.
  cbv zeta.
  evaluate (optionVotes (results_at (opened PUBLIC_AFTER_END) 0)).
  evaluate (totalVotes (results_at (opened PUBLIC_AFTER_END) 0)).
  evaluate (optionVotes (results_at
    (post (run (at_time bob 1001) (bob_votes 5) (opened PUBLIC_AFTER_END))) 0)).
  evaluate (totalVotes (results_at
    (post (run (at_time bob 1001) (bob_votes 5) (opened PUBLIC_AFTER_END))) 0)).
  split; [by vm_compute|]. split; [by vm_compute|].
  split; [discriminate|]. split; [discriminate|].
  split; by vm_compute.
Qed.

(** C3, as amended.  A vote whose ballot encrypts an index at or above the
    proposal's [optionCount] is not rejected on that account: when the
    voting window, finalized, double-vote and proof checks pass, the call
    succeeds, every per-option counter decrypts to the value it had before,
    and the total is incremented by one (modulo 2^32). *)
Theorem vote_out_of_range_accepted s now env id ct :
  reachable s now ->
  created s id ->
  Proposal.optionCount (proposal_at s id) <= ext_plain ct < uint8_mod ->
  Proposal.startTime (proposal_at s id) <= timestamp env
    <= Proposal.endTime (proposal_at s id) ->
  Proposal.finalized (proposal_at s id) = false ->
  voted_at s id (sender env) = false ->
  outcome (run env (Vote id ct ValidProof) s) = None
  /\ decrypted_options (post (run env (Vote id ct ValidProof) s)) id
     = decrypted_options s id
  /\ decrypted_total (post (run env (Vote id ct ValidProof) s)) id
     = (decrypted_total s id + 1) mod uint32_mod.
Proof.
  intros Hreach Hid Hplain [Hstart Hend] Hfin Hvoted.
  apply reachable_by_Inv in Hreach as HI.
  pose proof (inv_counters _ _ HI id) as Hlen. unfold counters_match in Hlen.
  pose proof (inv_options _ _ HI id Hid) as Hopt.
  simpl. erewrite transact_ok by (apply vote_ok; [apply HI|done..]).
  simpl. split; [done|].
  unfold decrypted_options, decrypted_total. rewrite results_at_voted.
  rewrite decide_True by done. unfold voted_results. cbn [optionVotes totalVotes].
  split.
  - apply decrypt_tally_from_outside; unfold uint8_mod in *; simpl; lia.
  - cbn [decrypt32]. change (1 mod uint32_mod) with 1. reflexivity.
Qed.

Lemma vote_out_of_range_accepted_witness :
  outcome (run (at_time bob 1001) (bob_votes 5) (opened PUBLIC_AFTER_END)) = None
  /\ decrypted_options
       (post (run (at_time bob 1001) (bob_votes 5) (opened PUBLIC_AFTER_END))) 0
     = decrypted_options (opened PUBLIC_AFTER_END) 0
  /\ decrypted_total
       (post (run (at_time bob 1001) (bob_votes 5) (opened PUBLIC_AFTER_END))) 0
     = (decrypted_total (opened PUBLIC_AFTER_END) 0 + 1) mod uint32_mod.
Proof.
  apply (vote_out_of_range_accepted (opened PUBLIC_AFTER_END) 1000
           (at_time bob 1001) 0 (ballot 5)).
  - by apply reachable_by_opened.
  - vm_compute. split; [discriminate|reflexivity].
  - vm_compute. split; [discriminate|reflexivity].
  - vm_compute. split; discriminate.
  - reflexivity.
  - reflexivity.
Defined.

(* ===================================================================== *)
(** ** C4: who may create a proposal *)
(* ===================================================================== *)

(** C4.  The claim is that [createProposal] fails with [Unauthorized] for
    a caller that is neither the owner, an administrator nor a proposer.
    [carol] holds none of the three roles and the [onlyProposer] check
    rejects her, yet her [createProposal] call succeeds and stores a
    proposal she owns: the function does not run the check. *)
Theorem createProposal_by_stranger_succeeds :
  let env := at_time carol 1000 in
  let r := run env (open_call PUBLIC_AFTER_END) deployed in
  is_proposer deployed carol = false
  /\ is_administrator deployed carol = false
  /\ carol <> owner deployed
  /\ onlyProposer env deployed [] = Fail Unauthorized []
  /\ outcome r = None
  /\ proposalCount deployed = 0
  /\ proposalCount (post r) = 1
  /\ Proposal.owner (proposal_at (post r) 0) = carol.
Proof.
  cbv zeta. repeat split; by vm_compute.
Qed.

(* ===================================================================== *)
(** ** C5: voting twice *)
(* ===================================================================== *)

Lemma later_reachable s0 t0 s t :
  reachable s0 t0 -> later s0 t0 s t -> reachable s t.
Proof.
  intros Hreach. induction 1 as [|s now env c Hlater IH Hnow]; [done|].
  by apply reach_call with (now := now).
Qed.

Lemma voted_at_later s0 t0 s t id voter :
  reachable s0 t0 -> later s0 t0 s t ->
  voted_at s0 id voter = true -> voted_at s id voter = true.
Proof.
  intros Hreach Hlater Hv.
  induction Hlater as [|s now env c Hlater IH Hnow]; [done|].
  pose proof (reachable_by_Inv _ _ _ (later_reachable _ _ _ _ Hreach Hlater)) as HI.
  eapply voted_at_effect; [|exact IH].
  apply run_effect; [apply HI|apply HI|by eapply Inv_fresh].
Qed.

(** A proposal never starts in the future. *)
Lemma startTime_later s0 t0 s t id :
  reachable s0 t0 -> later s0 t0 s t ->
  Proposal.startTime (proposal_at s0 id) <= t0 ->
  Proposal.startTime (proposal_at s id) <= t.
Proof.
  intros Hreach Hlater H0.
  induction Hlater as [|s now env c Hlater IH Hnow]; [done|].
  pose proof (reachable_by_Inv _ _ _ (later_reachable _ _ _ _ Hreach Hlater)) as HI.
  assert (Heff : effect_of env s c (post (run env c s))).
  { apply run_effect; [apply HI|apply HI|by eapply Inv_fresh]. }
  destruct Heff as [c s' Hp _ _ _|title description oc d strat q _ _ _
                   |id0 ct _ _ _|id0 _ _ _].
  - unfold proposal_at in *. rewrite Hp. lia.
  - rewrite proposal_at_created. case_decide; [simpl; lia|lia].
  - rewrite proposal_at_voted. lia.
  - rewrite proposal_at_finalized. case_decide; [subst; simpl|]; lia.
Qed.

(** A successful vote sets the guard of its caller. *)
Lemma vote_sets_guard s now env id ct pf :
  reachable s now ->
  outcome (run env (Vote id ct pf) s) = None ->
  voted_at (post (run env (Vote id ct pf) s)) id (sender env) = true.
Proof.
  intros Hreach Hout. apply reachable_by_Inv in Hreach as HI. simpl in *.
  destruct (vote_cases env id ct pf s (inv_counters _ _ HI id))
    as [[e He]|(-> & Hwin & Hfin & Hv & Hok)].
  - erewrite transact_fail in Hout by exact He. discriminate.
  - erewrite transact_ok by exact Hok. simpl.
    rewrite voted_at_voted. by rewrite decide_True.
Qed.

(** A caller whose guard is set cannot vote: the call fails before the
    first library call, with [AlreadyVoted] once the checks that precede
    the guard have passed. *)
Lemma vote_guarded env id ct pf s :
  voted_at s id (sender env) = true ->
  exists e,
    vote env id ct pf s [] = Fail e []
    /\ (Proposal.startTime (proposal_at s id) <= timestamp env
          <= Proposal.endTime (proposal_at s id) ->
        Proposal.finalized (proposal_at s id) = false ->
        e = AlreadyVoted).
Proof.
  intros Hv.
  destruct (Z.lt_ge_cases (timestamp env) (Proposal.startTime (proposal_at s id)))
    as [H1|H1].
  { eexists. split; [by apply vote_not_started|]. lia. }
  destruct (Z.lt_ge_cases (Proposal.endTime (proposal_at s id)) (timestamp env))
    as [H2|H2].
  { eexists. split; [by apply vote_ended|]. lia. }
  destruct (Proposal.finalized (proposal_at s id)) eqn:H3.
  { eexists. split; [by apply vote_finalized|]. done. }
  eexists. split; [by apply vote_already_voted|]. done.
Qed.

(** C5, counterexample.  The claim is that every later attempt of a voter
    who has voted fails with [AlreadyVoted].  [bob] votes at time 1001 on a
    proposal that closes at 1100; his second attempt, at time 2000, fails
    with [Ended]: the window is checked before the guard. *)
Lemma revote_counterexample :
  let s := after_bob PUBLIC_AFTER_END 1 in
  let r := run (at_time bob 2000) (bob_votes 0) s in
  outcome (run (at_time bob 1001) (bob_votes 1) (opened PUBLIC_AFTER_END)) = None
  /\ voted_at s 0 bob = true
  /\ outcome r = Some Ended
  /\ outcome r <> Some AlreadyVoted.
Proof.
  cbv zeta. repeat split; by vm_compute.
Qed.

(** C5, as amended.  Once a vote by a voter on a proposal has succeeded,
    every later vote call by that voter on that proposal fails, whatever
    ballot and proof it carries; it leaves the storage as it was and makes
    no call to the encryption library.  Made at a block time up to the
    proposal's [endTime] it fails with [AlreadyVoted]; made after
    [endTime] it fails with [Ended], the window being checked before the
    guard. *)
Theorem revote_rejected s now env id ct pf s1 now1 env1 ct1 pf1 :
  reachable s now ->
  now <= timestamp env ->
  outcome (run env (Vote id ct pf) s) = None ->
  later (post (run env (Vote id ct pf) s)) (timestamp env) s1 now1 ->
  sender env1 = sender env ->
  now1 <= timestamp env1 ->
  outcome (run env1 (Vote id ct1 pf1) s1)
  = Some (if decide (timestamp env1 <= Proposal.endTime (proposal_at s1 id))
          then AlreadyVoted else Ended)
  /\ post (run env1 (Vote id ct1 pf1) s1) = s1
  /\ trace (run env1 (Vote id ct1 pf1) s1) = [].
Proof.
  intros Hreach Hnow Hout Hlater Hsender Hnow1.
  assert (Hreach' : reachable (post (run env (Vote id ct pf) s)) (timestamp env)).
  { by apply reach_call with (now := now). }
  pose proof (vote_sets_guard _ _ _ _ _ _ Hreach Hout) as Hguard.
  pose proof (voted_at_later _ _ _ _ _ _ Hreach' Hlater Hguard) as Hguard1.
  rewrite <- Hsender in Hguard1.
  pose proof (reachable_by_Inv _ _ _ (later_reachable _ _ _ _ Hreach' Hlater)) as HI1.
  assert (Hstart : Proposal.startTime (proposal_at s1 id) <= now1).
  { apply (startTime_later _ _ _ _ _ Hreach' Hlater).
    apply reachable_by_Inv in Hreach as HI. cbn [run] in *.
    destruct (vote_cases env id ct pf s (inv_counters _ _ HI id))
      as [[e He]|(-> & Hwin & Hfin & Hv & Hok)].
    - erewrite transact_fail in Hout by exact He. discriminate.
    - erewrite transact_ok by exact Hok. cbn [post].
      rewrite proposal_at_voted. lia. }
  cbn [run]. case_decide as Hend.
  - assert (Hfin : Proposal.finalized (proposal_at s1 id) = false).
    { destruct (Proposal.finalized (proposal_at s1 id)) eqn:Hf; [|done].
      pose proof (inv_finalized _ _ HI1 id Hf). lia. }
    by erewrite transact_fail by (apply vote_already_voted; [lia|done..]).
  - by erewrite transact_fail by (apply vote_ended; lia).
Qed.

(** [bob], who voted at time 1001 on the proposal that closes at 1100,
    tries again at time 1002 and at time 2000. *)
Lemma revote_rejected_witness :
  (outcome (run (at_time bob 1002) (bob_votes 0) (after_bob PUBLIC_AFTER_END 1))
   = Some AlreadyVoted
   /\ post (run (at_time bob 1002) (bob_votes 0) (after_bob PUBLIC_AFTER_END 1))
      = after_bob PUBLIC_AFTER_END 1
   /\ trace (run (at_time bob 1002) (bob_votes 0) (after_bob PUBLIC_AFTER_END 1)) = [])
  /\ (outcome (run (at_time bob 2000) (bob_votes 0) (after_bob PUBLIC_AFTER_END 1))
      = Some Ended
      /\ post (run (at_time bob 2000) (bob_votes 0) (after_bob PUBLIC_AFTER_END 1))
         = after_bob PUBLIC_AFTER_END 1
      /\ trace (run (at_time bob 2000) (bob_votes 0) (after_bob PUBLIC_AFTER_END 1)) = []).
Proof.
  split.
  - apply (revote_rejected (opened PUBLIC_AFTER_END) 1000 (at_time bob 1001) 0
             (ballot 1) ValidProof (after_bob PUBLIC_AFTER_END 1) 1001
             (at_time bob 1002) (ballot 0) ValidProof).
    + by apply reachable_by_opened.
    + simpl. lia.
    + reflexivity.
    + apply later_now.
    + reflexivity.
    + simpl. lia.
  - apply (revote_rejected (opened PUBLIC_AFTER_END) 1000 (at_time bob 1001) 0
             (ballot 1) ValidProof (after_bob PUBLIC_AFTER_END 1) 1001
             (at_time bob 2000) (ballot 0) ValidProof).
    + by apply reachable_by_opened.
    + simpl. lia.
    + reflexivity.
    + apply later_now.
    + reflexivity.
    + simpl. lia.
Defined.

(* ===================================================================== *)
(** ** C6: permissions granted while voting on an OWNER_ONLY proposal *)
(* ===================================================================== *)

(** C6, counterexample.  The claim is that a successful vote on an
    [OWNER_ONLY] proposal grants no decrypt permission.  [bob]'s vote on
    [alice]'s proposal grants [alice] a persistent permission on both
    per-option counters and on the total. *)
Lemma vote_owner_only_counterexample :
  let s := opened OWNER_ONLY in
  let r := run (at_time bob 1001) (bob_votes 1) s in
  Proposal.strategy (proposal_at s 0) = OWNER_ONLY
  /\ outcome r = None
  /\ tally_permissions (trace r)
     = [ AclAllow (H32 (E32_add trivial_zero (increment_for (E8_fromExternal (ballot 1)) 0))) alice;
         AclAllow (H32 (E32_add trivial_zero (increment_for (E8_fromExternal (ballot 1)) 1))) alice;
         AclAllow (H32 (E32_add trivial_zero (E32_trivial 1))) alice ]
  /\ tally_permissions (trace r) <> [].
Proof.
  cbv zeta. repeat split; by vm_compute.
Qed.

(** C6, as amended.  A successful vote on an [OWNER_ONLY] proposal grants
    persistent decrypt permission on every per-option counter and on the
    total to the proposal's owner, and grants nothing else on the tally:
    no transient permission, no public decryption, no permission to any
    other account. *)
Theorem vote_owner_only_permissions s now env id ct pf :
  reachable s now ->
  Proposal.strategy (proposal_at s id) = OWNER_ONLY ->
  outcome (run env (Vote id ct pf) s) = None ->
  tally_permissions (trace (run env (Vote id ct pf) s))
  = map (fun c => AclAllow (H32 c) (Proposal.owner (proposal_at s id)))
        (optionVotes (results_at (post (run env (Vote id ct pf) s)) id))
    ++ [AclAllow (H32 (totalVotes (results_at (post (run env (Vote id ct pf) s)) id)))
                 (Proposal.owner (proposal_at s id))].
Proof.
  intros Hreach Hstrat Hout. apply reachable_by_Inv in Hreach as HI. simpl in *.
  destruct (vote_cases env id ct pf s (inv_counters _ _ HI id))
    as [[e He]|(-> & Hwin & Hfin & Hv & Hok)].
  - erewrite transact_fail in Hout by exact He. discriminate.
  - erewrite transact_ok by exact Hok. cbn [trace post].
    rewrite tally_permissions_vote_log. unfold vote_disclosure. rewrite Hstrat.
    rewrite results_at_voted. by rewrite decide_True.
Qed.

Lemma vote_owner_only_permissions_witness :
  tally_permissions (trace (run (at_time bob 1001) (bob_votes 1) (opened OWNER_ONLY)))
  = map (fun c => AclAllow (H32 c) (Proposal.owner (proposal_at (opened OWNER_ONLY) 0)))
        (optionVotes (results_at (after_bob OWNER_ONLY 1) 0))
    ++ [AclAllow (H32 (totalVotes (results_at (after_bob OWNER_ONLY 1) 0)))
                 (Proposal.owner (proposal_at (opened OWNER_ONLY) 0))].
Proof.
  apply (vote_owner_only_permissions (opened OWNER_ONLY) 1000 (at_time bob 1001) 0
           (ballot 1) ValidProof).
  - by apply reachable_by_opened.
  - reflexivity.
  - reflexivity.
Defined.

(* ===================================================================== *)
(** ** C7: lifecycle failures *)
(* ===================================================================== *)

(** C7.  Whatever the storage holds, a vote before [startTime] fails with
    [NotStarted] and [finalizeProposal] at or before [endTime] fails with
    [NotEnded].  In every reachable state a vote after [endTime] fails
    with [Ended], and [finalizeProposal] on a proposal that is already
    finalized, at any block time not before that of the state, fails with
    [AlreadyFinalized].  Each of these failing calls leaves the storage
    unchanged. *)
Theorem lifecycle_failures s env id ct pf :
  (timestamp env < Proposal.startTime (proposal_at s id) ->
     outcome (run env (Vote id ct pf) s) = Some NotStarted
     /\ post (run env (Vote id ct pf) s) = s)
  /\ (timestamp env <= Proposal.endTime (proposal_at s id) ->
     outcome (run env (FinalizeProposal id) s) = Some NotEnded
     /\ post (run env (FinalizeProposal id) s) = s)
  /\ (forall now, reachable s now ->
       (Proposal.endTime (proposal_at s id) < timestamp env ->
          outcome (run env (Vote id ct pf) s) = Some Ended
          /\ post (run env (Vote id ct pf) s) = s)
       /\ (now <= timestamp env ->
           Proposal.finalized (proposal_at s id) = true ->
           outcome (run env (FinalizeProposal id) s) = Some AlreadyFinalized
           /\ post (run env (FinalizeProposal id) s) = s)).
Proof.
  cbn [run]. split; [|split].
  - intros H. by erewrite transact_fail by (by apply vote_not_started).
  - intros H. by erewrite transact_fail by (by apply finalizeProposal_not_ended).
  - intros now Hreach. apply reachable_by_Inv in Hreach as HI.
    pose proof (inv_window _ _ HI id) as Hwin.
    pose proof (inv_finalized _ _ HI id) as Hfin.
    split.
    + intros H. by erewrite transact_fail by (apply vote_ended; lia).
    + intros Hnow H. specialize (Hfin H).
      by erewrite transact_fail by (apply finalizeProposal_already; [lia|done]).
Qed.

Lemma reachable_closed : reachable closed 1200.
Proof.
  apply (reach_call any_call (after_bob PUBLIC_AFTER_END 1) 1001
           (at_time alice 1200) (FinalizeProposal 0));
    [by apply reachable_by_after_bob|simpl; lia|exact I].
Defined.

(** The four failures on the proposal of the scenario, open from 1000 to
    1100: a vote at 500 and a [finalizeProposal] at 1050 while it is open,
    a vote and a [finalizeProposal] at 1300 once it is finalized. *)
Lemma lifecycle_failures_witness :
  (outcome (run (at_time bob 500) (Vote 0 (ballot 0) ValidProof) (opened PUBLIC_AFTER_END))
   = Some NotStarted
   /\ post (run (at_time bob 500) (Vote 0 (ballot 0) ValidProof) (opened PUBLIC_AFTER_END))
      = opened PUBLIC_AFTER_END)
  /\ (outcome (run (at_time bob 1050) (FinalizeProposal 0) (opened PUBLIC_AFTER_END))
      = Some NotEnded
      /\ post (run (at_time bob 1050) (FinalizeProposal 0) (opened PUBLIC_AFTER_END))
         = opened PUBLIC_AFTER_END)
  /\ (outcome (run (at_time bob 1300) (Vote 0 (ballot 0) ValidProof) closed) = Some Ended
      /\ post (run (at_time bob 1300) (Vote 0 (ballot 0) ValidProof) closed) = closed)
  /\ (outcome (run (at_time bob 1300) (FinalizeProposal 0) closed) = Some AlreadyFinalized
      /\ post (run (at_time bob 1300) (FinalizeProposal 0) closed) = closed).
Proof.
  destruct (lifecycle_failures (opened PUBLIC_AFTER_END) (at_time bob 500) 0
              (ballot 0) ValidProof) as (Hearly & _ & _).
  destruct (lifecycle_failures (opened PUBLIC_AFTER_END) (at_time bob 1050) 0
              (ballot 0) ValidProof) as (_ & Hopen & _).
  destruct (lifecycle_failures closed (at_time bob 1300) 0 (ballot 0) ValidProof)
    as (_ & _ & Hlate).
  destruct (Hlate 1200 reachable_closed) as (Hended & Hfinal).
  split; [apply Hearly; vm_compute; reflexivity|].
  split; [apply Hopen; vm_compute; discriminate|].
  split; [apply Hended; vm_compute; reflexivity|].
  apply Hfinal; [simpl; lia|vm_compute; reflexivity].
Defined.

(* ===================================================================== *)
(** ** C8: the parameters of createProposal *)
(* ===================================================================== *)

(** C8.  In a reachable state and with a duration and a quorum that are
    unsigned integers, [createProposal] fails with [InvalidParameters] exactly when
    [optionCount] is outside [2, 10], or [duration] is 0 or above 365 days,
    or [minQuorum] is 0.  With valid parameters, and as long as the
    proposal counter and the end time fit in a [uint256], it returns the
    current proposal count as the new id, stores the proposal under that
    id and increments the count. *)
Theorem createProposal_parameters s now env title description oc d strat q :
  reachable s now ->
  0 <= d -> 0 <= q ->
  ((exists e, outcome (run env (CreateProposal title description oc d strat q) s) = Some e
              /\ InvalidParameters e)
   <-> (oc < 2 \/ 10 < oc \/ d = 0 \/ days 365 < d \/ q = 0))
  /\ (2 <= oc <= 10 -> 0 < d <= days 365 -> 0 < q ->
      proposalCount s + 1 <= uint256_max ->
      timestamp env + d <= uint256_max ->
      exists s' log,
        createProposal env title description oc d strat q s []
          = Ok (proposalCount s) s' log
        /\ proposals s' !! proposalCount s
           = Some (Proposal.mk title description (timestamp env)
                     (timestamp env + d) oc false (sender env) strat q)
        /\ proposalCount s' = proposalCount s + 1).
Proof.
  intros Hreach Hd0 Hq0. apply reachable_by_Inv in Hreach as HI.
  pose proof (Inv_fresh _ _ HI) as Hfresh. split.
  - simpl. split.
    + intros (e & Hout & Hinv).
      destruct (decide (2 <= oc <= 10)) as [Hoc|Hoc]; [|lia].
      destruct (decide (0 < d <= days 365)) as [Hd|Hd]; [|lia].
      destruct (decide (0 < q)) as [Hq|Hq]; [|lia].
      exfalso.
      destruct (decide (proposalCount s + 1 <= uint256_max
                        /\ timestamp env + d <= uint256_max)) as [[H1 H2]|Hov].
      * erewrite transact_ok in Hout by (by apply createProposal_ok). discriminate.
      * erewrite transact_fail in Hout by (by apply createProposal_overflow).
        simpl in Hout. injection Hout as <-.
        destruct Hinv as [Hinv|[Hinv|Hinv]]; discriminate.
    + intros Hbad.
      destruct (decide (2 <= oc <= 10)) as [Hoc|Hoc].
      2:{ eexists. erewrite transact_fail by (by apply createProposal_bad_options).
          split; [reflexivity|]. by left. }
      destruct (decide (0 < d <= days 365)) as [Hd|Hd].
      2:{ eexists. erewrite transact_fail by (by apply createProposal_bad_duration).
          split; [reflexivity|]. right. by left. }
      assert (Hq : ~ 0 < q) by lia.
      eexists. erewrite transact_fail by (by apply createProposal_bad_quorum).
      split; [reflexivity|]. right. by right.
  - intros Hoc Hd Hq H1 H2. eexists _, _.
    split; [by apply createProposal_ok|]. split; [|reflexivity].
    unfold created_state. simpl. apply lookup_insert_eq.
Qed.

Lemma createProposal_parameters_witness :
  ((exists e, outcome (run (at_time alice 1000) (open_call OWNER_ONLY) deployed) = Some e
              /\ InvalidParameters e)
   <-> (2 < 2 \/ 10 < 2 \/ 100 = 0 \/ days 365 < 100 \/ 1 = 0))
  /\ (2 <= 2 <= 10 -> 0 < 100 <= days 365 -> 0 < 1 ->
      proposalCount deployed + 1 <= uint256_max ->
      timestamp (at_time alice 1000) + 100 <= uint256_max ->
      exists s' log,
        createProposal (at_time alice 1000) "Budget" "Yes or no" 2 100 OWNER_ONLY 1
          deployed []
          = Ok (proposalCount deployed) s' log
        /\ proposals s' !! proposalCount deployed
           = Some (Proposal.mk "Budget" "Yes or no" (timestamp (at_time alice 1000))
                     (timestamp (at_time alice 1000) + 100) 2 false
                     (sender (at_time alice 1000)) OWNER_ONLY 1)
        /\ proposalCount s' = proposalCount deployed + 1).
Proof.
  apply (createProposal_parameters deployed 900 (at_time alice 1000)
           "Budget" "Yes or no" 2 100 OWNER_ONLY 1).
  - apply (reach_call any_call (constructor deployer) 900 (at_time deployer 900)
             (SetProposer alice true));
      [apply reach_deploy|simpl; lia|exact I].
  - lia.
  - lia.
Defined.

(* ===================================================================== *)
(** ** Slots that were never written *)
(* ===================================================================== *)

(** With positive block times no call writes the slot of an id that was
    not allocated: a vote is outside its window, and [finalizeProposal] is
    refused by the library. *)
Lemma never_written_effect env c s s' id :
  0 <= proposalCount s ->
  0 < timestamp env ->
  effect_of env s c s' ->
  (~ created s id ->
   proposal_at s id = Proposal.zero /\ results_at s id = ProposalResults_zero) ->
  ~ created s' id ->
  proposal_at s' id = Proposal.zero /\ results_at s' id = ProposalResults_zero.
Proof.
  intros Hcount Htime Heff IH Hid.
  destruct Heff as [c s' Hp Hr Hn Hv|title description oc d strat q Hoc Hd Hq
                   |id0 ct Hw Hf Hv|id0 He Hf Hperm].
  - unfold proposal_at, results_at, created in *. rewrite Hp, Hr.
    apply IH. by rewrite <- Hn.
  - unfold created in *. rewrite proposalCount_created in Hid.
    rewrite proposal_at_created, results_at_created.
    destruct (decide (proposalCount s = id)) as [Heq|Hne]; [lia|apply IH; lia].
  - rewrite proposal_at_voted, results_at_voted.
    destruct (decide (id0 = id)) as [->|Hne]; [|by apply IH].
    destruct (IH Hid) as [Hp _]. rewrite Hp in Hw. simpl in Hw. lia.
  - rewrite proposal_at_finalized, results_at_finalized.
    destruct (decide (id0 = id)) as [->|Hne]; [|by apply IH].
    destruct (IH Hid) as [Hp Hr]. exfalso.
    unfold finalize_permitted, total_initialized in Hperm.
    rewrite Hp, Hr in Hperm. by destruct Hperm.
Qed.

Lemma never_touched s now :
  reachable_by positive_time s now ->
  forall id, ~ created s id ->
  proposal_at s id = Proposal.zero /\ results_at s id = ProposalResults_zero.
Proof.
  induction 1 as [deployer now|s now env c Hreach IH Hnow Hok]; intros id Hid.
  - unfold proposal_at, results_at. simpl. by rewrite !sload_empty.
  - pose proof (reachable_by_Inv _ _ _ Hreach) as HI.
    eapply never_written_effect; [apply HI|exact Hok| |apply IH|exact Hid].
    apply run_effect; [apply HI|apply HI|by eapply Inv_fresh].
Qed.

Lemma never_written s now :
  reachable_by positive_time s now ->
  forall id, ~ created s id -> proposal_at s id = Proposal.zero.
Proof. intros Hreach id Hid. by apply (never_touched s now). Qed.

Lemma never_tallied s now :
  reachable_by positive_time s now ->
  forall id, ~ created s id -> results_at s id = ProposalResults_zero.
Proof. intros Hreach id Hid. by apply (never_touched s now). Qed.

(* ===================================================================== *)
(** ** C9: reading a proposal *)
(* ===================================================================== *)

(** C9, counterexample.  The claim is that [getProposal] fails with
    [NotFound] for every id at or above the proposal count.  The getter is
    the one generated for the public mapping: on the freshly deployed
    contract, whose count is 0, reading id 0 succeeds and returns the zero
    record. *)
Lemma getProposal_counterexample :
  proposalCount (constructor deployer) <= 0
  /\ getProposal 0 (constructor deployer) [] = Ok Proposal.zero (constructor deployer) []
  /\ outcome (transact (getProposal 0) (constructor deployer)) = None.
Proof.
  repeat split; by vm_compute.
Qed.

(** C9, as amended.  [getProposal] is read-only and never fails.  For an
    id below the proposal count it returns the proposal stored under that
    id.  For an id at or above the count it returns the record of a slot
    that was never written, every field other than [finalized] being
    zero; when every block so far carried a positive timestamp
    [finalized] is false as well, and the record is the zero record. *)
Theorem getProposal_total s now id :
  reachable s now ->
  getProposal id s [] = Ok (proposal_at s id) s []
  /\ (created s id -> proposals s !! id = Some (proposal_at s id))
  /\ (proposalCount s <= id ->
      proposal_at s id
      = Proposal.set_finalized (Proposal.finalized (proposal_at s id)) Proposal.zero)
  /\ (reachable_by positive_time s now -> proposalCount s <= id ->
      proposal_at s id = Proposal.zero).
Proof.
  intros Hreach. apply reachable_by_Inv in Hreach as HI.
  split; [reflexivity|]. split; [|split].
  - intros Hid. destruct (inv_stored _ _ HI id Hid) as [p Hp].
    unfold proposal_at, sload. by rewrite Hp.
  - intros Hid. apply (inv_absent _ _ HI). unfold created. lia.
  - intros Hpos Hid. apply (never_written _ _ Hpos). unfold created. lia.
Qed.

(** Read in the scenario with one proposal: id 0, which is stored, and
    id 7, which is not. *)
Lemma getProposal_total_witness :
  proposals (opened OWNER_ONLY) !! 0 = Some (proposal_at (opened OWNER_ONLY) 0)
  /\ getProposal 7 (opened OWNER_ONLY) [] = Ok Proposal.zero (opened OWNER_ONLY) [].
Proof.
  destruct (getProposal_total (opened OWNER_ONLY) 1000 0) as (_ & Hstored & _).
  { by apply reachable_by_opened. }
  destruct (getProposal_total (opened OWNER_ONLY) 1000 7) as (Hread & _ & _ & Hzero).
  { by apply reachable_by_opened. }
  split.
  - apply Hstored. vm_compute. split; [discriminate|reflexivity].
  - rewrite Hread. rewrite Hzero; [reflexivity| |vm_compute; discriminate].
    apply reachable_by_opened; reflexivity.
Defined.

(* ===================================================================== *)
(** ** C10: finalizing an id that was never allocated *)
(* ===================================================================== *)

(** C10, counterexample.  The claim is that [finalizeProposal] on an id at
    or above the proposal count, not finalized before, at a block time
    above 0, succeeds, sets [finalized] and emits [ProposalFinalized].  In
    the scenario with one proposal, [bob] calls it on id 7 at time 1500:
    the two checks of the function pass, the library refuses the total
    handle of the slot, which was never written, and the call reverts. *)
Lemma finalize_unallocated_counterexample :
  let r := run (at_time bob 1500) (FinalizeProposal 7) (opened OWNER_ONLY) in
  reachable (opened OWNER_ONLY) 1000
  /\ proposalCount (opened OWNER_ONLY) <= 7
  /\ Proposal.finalized (proposal_at (opened OWNER_ONLY) 7) = false
  /\ outcome r = Some SenderNotAllowed
  /\ outcome r <> None
  /\ Proposal.finalized (proposal_at (post r) 7) = false
  /\ ~ In (Emit (ProposalFinalized 7)) (trace r).
Proof.
  cbv zeta. split; [by apply reachable_by_opened|].
  split; [by vm_compute|]. split; [by vm_compute|]. split; [by vm_compute|].
  split; [by vm_compute|]. split; [by vm_compute|].
  evaluate (trace (run (at_time bob 1500) (FinalizeProposal 7) (opened OWNER_ONLY))).
  by intros [].
Qed.

(** C10, as amended.  [finalizeProposal] has no existence check of its own,
    but it does not succeed on an id that was never allocated.  In every
    state reached at positive block times, for an id at or above the
    proposal count, [finalized] is not set, and a call at a block time
    above 0 passes the two checks of the function and is then refused by
    the encryption library on the total handle of the slot, which was
    never written: it fails with [SenderNotAllowed], not with [NotEnded]
    or [AlreadyFinalized], leaves the storage unchanged, so that
    [finalized] stays unset, and emits no event. *)
Theorem finalize_unallocated s now env id :
  reachable_by positive_time s now ->
  proposalCount s <= id ->
  0 < timestamp env ->
  Proposal.finalized (proposal_at s id) = false
  /\ run env (FinalizeProposal id) s
     = {| outcome := Some SenderNotAllowed; post := s; trace := [] |}.
Proof.
  intros Hreach Hid Htime. apply reachable_by_Inv in Hreach as HI.
  assert (Hnot : ~ created s id) by (unfold created; lia).
  pose proof (never_written _ _ Hreach id Hnot) as Hp.
  pose proof (never_tallied _ _ Hreach id Hnot) as Hr.
  split; [by rewrite Hp|].
  cbn [run]. erewrite transact_fail.
  2:{ apply finalizeProposal_refused; [apply HI|apply HI| |by rewrite Hp..].
      unfold finalize_permitted, total_initialized. rewrite Hp, Hr.
      by intros [|]. }
  by rewrite Hp, Hr.
Qed.

Lemma finalize_unallocated_witness :
  Proposal.finalized (proposal_at (opened OWNER_ONLY) 7) = false
  /\ run (at_time bob 1500) (FinalizeProposal 7) (opened OWNER_ONLY)
     = {| outcome := Some SenderNotAllowed; post := opened OWNER_ONLY; trace := [] |}.
Proof.
  apply (finalize_unallocated (opened OWNER_ONLY) 1000 (at_time bob 1500) 7).
  - apply reachable_by_opened; reflexivity.
  - vm_compute. discriminate.
  - reflexivity.
Defined.

(* ===================================================================== *)
(** ** One transaction, exactly *)
(* ===================================================================== *)

Lemma setProposer_run env account status s :
  transact (setProposer env account status) s
  = if privileged s (sender env)
    then {| outcome := None; post := proposer_set account status s; trace := [] |}
    else {| outcome := Some (Revert "Not administrator"); post := s; trace := [] |}.
Proof.
  unfold transact, setProposer, onlyAdministrator, privileged. munfold.
  by destruct (is_administrator s (sender env) || (sender env =? owner s)).
Qed.

Lemma setAdministrator_run env account status s :
  transact (setAdministrator env account status) s
  = if sender env =? owner s
    then {| outcome := None; post := administrator_set account status s; trace := [] |}
    else {| outcome := Some (Revert "Not owner"); post := s; trace := [] |}.
Proof.
  unfold transact, setAdministrator, onlyOwner. munfold.
  by destruct (sender env =? owner s).
Qed.

Lemma setDefaultVotingDuration_run env d s :
  transact (setDefaultVotingDuration env d) s
  = if sender env =? owner s
    then if (0 <? d) && (d <=? days 365)
         then {| outcome := None; post := set_defaultVotingDuration d s; trace := [] |}
         else {| outcome := Some (Revert "Invalid duration"); post := s; trace := [] |}
    else {| outcome := Some (Revert "Not owner"); post := s; trace := [] |}.
Proof.
  unfold transact, setDefaultVotingDuration, onlyOwner. munfold.
  destruct (sender env =? owner s); [|done].
  by destruct ((0 <? d) && (d <=? days 365)).
Qed.

Lemma run_step env c s :
  (forall id, counters_match s id) ->
  (forall id, counters_initialized s id) ->
  optionVotes (results_at s (proposalCount s)) = [] ->
  step_of env s c (post (run env c s)).
Proof.
  intros Hlen Hall Hfresh. destruct c as [title description oc d strat q|id ct pf|id|id account
                                    |account status|account status|d];
    cbn [run].
  - destruct (decide (2 <= oc <= 10)) as [Hoc|Hoc].
    2:{ erewrite transact_fail by (by apply createProposal_bad_options).
        apply step_same. }
    destruct (decide (0 < d <= days 365)) as [Hd|Hd].
    2:{ erewrite transact_fail by (by apply createProposal_bad_duration).
        apply step_same. }
    destruct (decide (0 < q)) as [Hq|Hq].
    2:{ erewrite transact_fail by (by apply createProposal_bad_quorum).
        apply step_same. }
    destruct (decide (proposalCount s + 1 <= uint256_max
                      /\ timestamp env + d <= uint256_max)) as [[H1 H2]|Hov].
    2:{ erewrite transact_fail by (by apply createProposal_overflow).
        apply step_same. }
    erewrite transact_ok by (by apply createProposal_ok). cbn [post].
    by apply step_created.
  - destruct (vote_cases env id ct pf s (Hlen id))
      as [[e He]|(-> & Hwin & Hfin & Hv & Hok)].
    + erewrite transact_fail by exact He. apply step_same.
    + erewrite transact_ok by exact Hok. cbn [post]. by apply step_voted.
  - destruct (finalizeProposal_cases env id s (Hlen id) (Hall id))
      as [(e & l & He)|(H1 & H2 & H3 & Hok)].
    + erewrite transact_fail by exact He. apply step_same.
    + erewrite transact_ok by exact Hok. cbn [post]. by apply step_finalized.
  - rewrite grantDecryptionPermission_state by done. apply step_same.
  - rewrite setProposer_run. destruct (privileged s (sender env)) eqn:Hp; cbn [post].
    + by apply step_proposer.
    + apply step_same.
  - rewrite setAdministrator_run.
    destruct (sender env =? owner s) eqn:Ho; cbn [post].
    + apply step_administrator. by apply Z.eqb_eq.
    + apply step_same.
  - rewrite setDefaultVotingDuration_run.
    destruct (sender env =? owner s) eqn:Ho; cbn [post]; [|apply step_same].
    destruct ((0 <? d) && (d <=? days 365)) eqn:Hd; cbn [post]; [|apply step_same].
    apply andb_true_iff in Hd as [Hd1 Hd2].
    apply step_duration; [by apply Z.eqb_eq|]. lia.
Qed.

Lemma reachable_run_step s now env c :
  reachable s now -> step_of env s c (post (run env c s)).
Proof.
  intros Hreach. apply reachable_by_Inv in Hreach as HI.
  apply run_step; [apply HI|apply HI|by eapply Inv_fresh].
Qed.

(** A property kept by every step holds all along a run. *)
Lemma later_ind_step (P : State -> Prop) s0 t0 s t :
  reachable s0 t0 ->
  (forall s env c, step_of env s c (post (run env c s)) -> P s -> P (post (run env c s))) ->
  later s0 t0 s t -> P s0 -> P s.
Proof.
  intros Hreach Hstep Hlater H0.
  induction Hlater as [|s now env c Hlater IH Hnow]; [done|].
  apply Hstep; [|exact IH].
  eapply reachable_run_step, later_reachable; eauto.
Qed.

(* ===================================================================== *)
(** ** Successful calls *)
(* ===================================================================== *)

Lemma create_succeeded s now env title description oc d strat q :
  reachable s now ->
  outcome (run env (CreateProposal title description oc d strat q) s) = None ->
  2 <= oc <= 10
  /\ run env (CreateProposal title description oc d strat q) s
     = {| outcome := None;
          post := created_state env title description oc d strat q s;
          trace := created_log env title oc d s |}.
Proof.
  intros Hreach Hout. apply reachable_by_Inv in Hreach as HI.
  pose proof (Inv_fresh _ _ HI) as Hfresh. cbn [run] in *.
  destruct (decide (2 <= oc <= 10)) as [Hoc|Hoc].
  2:{ erewrite transact_fail in Hout by (by apply createProposal_bad_options).
      discriminate. }
  destruct (decide (0 < d <= days 365)) as [Hd|Hd].
  2:{ erewrite transact_fail in Hout by (by apply createProposal_bad_duration).
      discriminate. }
  destruct (decide (0 < q)) as [Hq|Hq].
  2:{ erewrite transact_fail in Hout by (by apply createProposal_bad_quorum).
      discriminate. }
  destruct (decide (proposalCount s + 1 <= uint256_max
                    /\ timestamp env + d <= uint256_max)) as [[H1 H2]|Hov].
  2:{ erewrite transact_fail in Hout by (by apply createProposal_overflow).
      discriminate. }
  split; [done|]. by erewrite transact_ok by (by apply createProposal_ok).
Qed.

Lemma vote_succeeded s now env id ct pf :
  reachable s now ->
  outcome (run env (Vote id ct pf) s) = None ->
  Proposal.startTime (proposal_at s id) <= timestamp env
    <= Proposal.endTime (proposal_at s id)
  /\ Proposal.finalized (proposal_at s id) = false
  /\ voted_at s id (sender env) = false
  /\ run env (Vote id ct pf) s
     = {| outcome := None; post := voted_state env id ct s;
          trace := vote_log env id ct s |}.
Proof.
  intros Hreach Hout. apply reachable_by_Inv in Hreach as HI. cbn [run] in *.
  destruct (vote_cases env id ct pf s (inv_counters _ _ HI id))
    as [[e He]|(-> & Hwin & Hfin & Hv & Hok)].
  - erewrite transact_fail in Hout by exact He. discriminate.
  - repeat split; try done; try lia. by erewrite transact_ok by exact Hok.
Qed.

Lemma finalize_succeeded s now env id :
  reachable s now ->
  outcome (run env (FinalizeProposal id) s) = None ->
  Proposal.endTime (proposal_at s id) < timestamp env
  /\ Proposal.finalized (proposal_at s id) = false
  /\ run env (FinalizeProposal id) s
     = {| outcome := None; post := finalized_state id s;
          trace := finalized_log s id |}.
Proof.
  intros Hreach Hout. apply reachable_by_Inv in Hreach as HI. cbn [run] in *.
  destruct (finalizeProposal_cases env id s (inv_counters _ _ HI id)
              (inv_initialized _ _ HI id))
    as [(e & l & He)|(H1 & H2 & H3 & Hok)].
  - erewrite transact_fail in Hout by exact He. discriminate.
  - repeat split; try done. by erewrite transact_ok by exact Hok.
Qed.

(* ===================================================================== *)
(** ** X1: the tally of a new proposal *)
(* ===================================================================== *)

Lemma decrypt_replicate_zero (n : nat) :
  map decrypt32 (replicate n trivial_zero) = replicate n 0.
Proof. induction n as [|n IH]; [done|]. simpl. by rewrite IH. Qed.

(** X1.  A successful [createProposal] gives the new proposal one counter
    per option; every counter and the total decrypt to 0.  The tallies and
    the records of all other ids are left as they were, and the call emits
    [ProposalCreated] with the new id, the caller, the title, the option
    count and the voting window. *)
Theorem createProposal_initial_tally s now env title description oc d strat q :
  reachable s now ->
  outcome (run env (CreateProposal title description oc d strat q) s) = None ->
  decrypted_options
    (post (run env (CreateProposal title description oc d strat q) s))
    (proposalCount s) = replicate (Z.to_nat oc) 0
  /\ decrypted_total
       (post (run env (CreateProposal title description oc d strat q) s))
       (proposalCount s) = 0
  /\ (forall id, id <> proposalCount s ->
        results_at (post (run env (CreateProposal title description oc d strat q) s)) id
        = results_at s id
        /\ proposal_at (post (run env (CreateProposal title description oc d strat q) s)) id
           = proposal_at s id)
  /\ In (Emit (ProposalCreated (proposalCount s) (sender env) title oc
                 (timestamp env) (timestamp env + d)))
        (trace (run env (CreateProposal title description oc d strat q) s)).
Proof.
  intros Hreach Hout.
  destruct (create_succeeded _ _ _ _ _ _ _ _ _ Hreach Hout) as [Hoc ->].
  cbn [post trace]. unfold decrypted_options, decrypted_total.
  rewrite results_at_created, decide_True by done. cbn [optionVotes totalVotes].
  split; [apply decrypt_replicate_zero|]. split; [reflexivity|]. split.
  - intros id Hid. rewrite results_at_created, proposal_at_created.
    by rewrite !decide_False by done.
  - unfold created_log. apply in_or_app. right. right. right. by left.
Qed.

Lemma createProposal_initial_tally_witness :
  decrypted_options (opened OWNER_ONLY) (proposalCount deployed)
  = replicate (Z.to_nat 2) 0
  /\ decrypted_total (opened OWNER_ONLY) (proposalCount deployed) = 0
  /\ (forall id, id <> proposalCount deployed ->
        results_at (opened OWNER_ONLY) id = results_at deployed id
        /\ proposal_at (opened OWNER_ONLY) id = proposal_at deployed id)
  /\ In (Emit (ProposalCreated (proposalCount deployed) (sender (at_time alice 1000))
                 "Budget" 2 (timestamp (at_time alice 1000))
                 (timestamp (at_time alice 1000) + 100)))
        (trace (run (at_time alice 1000) (open_call OWNER_ONLY) deployed)).
Proof.
  apply (createProposal_initial_tally deployed 900 (at_time alice 1000)
           "Budget" "Yes or no" 2 100 OWNER_ONLY 1).
  - apply (reach_call any_call (constructor deployer) 900 (at_time deployer 900)
             (SetProposer alice true));
      [apply reach_deploy|simpl; lia|exact I].
  - vm_compute. reflexivity.
Defined.

(* ===================================================================== *)
(** ** X2, X3: what a successful vote changes *)
(* ===================================================================== *)

Lemma lookup_decrypt_tally_from ct (L : list euint32) :
  forall (k : Z) (i : nat),
    0 <= ext_plain ct < uint8_mod ->
    0 <= k -> k + Z.of_nat (length L) <= uint8_mod ->
    map decrypt32 (tally_from (E8_fromExternal ct) k L) !! i
    = (fun c => (decrypt32 c
                 + (if decide (ext_plain ct = k + Z.of_nat i) then 1 else 0))
                mod uint32_mod) <$> (L !! i).
Proof.
  induction L as [|c L IH]; intros k i Hp Hk Hlen; [done|].
  cbn [length] in Hlen. cbn [tally_from map]. destruct i as [|i].
  - change (Some (decrypt32 (E32_add c (increment_for (E8_fromExternal ct) k)))
            = Some ((decrypt32 c
                     + (if decide (ext_plain ct = k + Z.of_nat 0) then 1 else 0))
                    mod uint32_mod)).
    rewrite decrypt32_increment by lia. by rewrite Z.add_0_r.
  - change (map decrypt32 (tally_from (E8_fromExternal ct) (k + 1) L) !! i
            = (fun c => (decrypt32 c
                         + (if decide (ext_plain ct = k + Z.of_nat (S i)) then 1 else 0))
                        mod uint32_mod) <$> (L !! i)).
    rewrite (IH (k + 1) i) by lia.
    replace (k + 1 + Z.of_nat i) with (k + Z.of_nat (S i)) by lia. reflexivity.
Qed.

Lemma created_of_options s now id :
  Inv s now -> 0 < Proposal.optionCount (proposal_at s id) -> created s id.
Proof.
  intros HI Hpos. destruct (decide (0 <= id < proposalCount s)) as [Hc|Hc]; [done|].
  pose proof (inv_absent _ _ HI id Hc) as Habs. unfold unallocated in Habs.
  rewrite Habs in Hpos. simpl in Hpos. lia.
Qed.

(** X2.  A successful vote whose ballot encrypts the index of an option
    adds one (modulo 2^32) to the plaintext of that option's counter, leaves
    the plaintext of every other counter of the proposal as it was, keeps
    the number of counters, and adds one to the total. *)
Theorem vote_counts_ballot s now env id ct pf :
  reachable s now ->
  outcome (run env (Vote id ct pf) s) = None ->
  0 <= ext_plain ct < Proposal.optionCount (proposal_at s id) ->
  length (decrypted_options (post (run env (Vote id ct pf) s)) id)
  = length (decrypted_options s id)
  /\ (forall (i : nat) (d : Z),
        decrypted_options s id !! i = Some d ->
        decrypted_options (post (run env (Vote id ct pf) s)) id !! i
        = Some (if decide (Z.of_nat i = ext_plain ct)
                then (d + 1) mod uint32_mod else d))
  /\ decrypted_total (post (run env (Vote id ct pf) s)) id
     = (decrypted_total s id + 1) mod uint32_mod.
Proof.
  intros Hreach Hout Hplain.
  destruct (vote_succeeded _ _ _ _ _ _ Hreach Hout) as (_ & _ & _ & ->).
  apply reachable_by_Inv in Hreach as HI.
  pose proof (inv_counters _ _ HI id) as Hlen. unfold counters_match in Hlen.
  assert (Hpos : 0 < Proposal.optionCount (proposal_at s id)) by lia.
  pose proof (inv_options _ _ HI id (created_of_options _ _ _ HI Hpos)) as Hopt.
  cbn [post]. unfold decrypted_options, decrypted_total.
  rewrite results_at_voted, decide_True by done.
  unfold voted_results. cbn [optionVotes totalVotes]. split; [|split].
  - by rewrite !length_map, length_tally_from.
  - intros i d Hd.
    rewrite lookup_decrypt_tally_from by (unfold uint8_mod; simpl; lia).
    rewrite list_lookup_fmap in Hd.
    destruct (optionVotes (results_at s id) !! i) as [c|]; [|done].
    cbn in Hd. injection Hd as <-. cbn [fmap option_fmap option_map].
    rewrite Z.add_0_l. f_equal.
    destruct (decide (ext_plain ct = Z.of_nat i)) as [Heq|Hne].
    + by rewrite decide_True by lia.
    + rewrite decide_False by lia. rewrite Z.add_0_r.
      apply Z.mod_small, decrypt32_range.
  - cbn [decrypt32]. by change (1 mod uint32_mod) with 1.
Qed.

Lemma vote_counts_ballot_witness :
  length (decrypted_options (after_bob PUBLIC_AFTER_END 1) 0)
  = length (decrypted_options (opened PUBLIC_AFTER_END) 0)
  /\ (forall (i : nat) (d : Z),
        decrypted_options (opened PUBLIC_AFTER_END) 0 !! i = Some d ->
        decrypted_options (after_bob PUBLIC_AFTER_END 1) 0 !! i
        = Some (if decide (Z.of_nat i = ext_plain (ballot 1))
                then (d + 1) mod uint32_mod else d))
  /\ decrypted_total (after_bob PUBLIC_AFTER_END 1) 0
     = (decrypted_total (opened PUBLIC_AFTER_END) 0 + 1) mod uint32_mod.
Proof.
  apply (vote_counts_ballot (opened PUBLIC_AFTER_END) 1000 (at_time bob 1001) 0
           (ballot 1) ValidProof).
  - by apply reachable_by_opened.
  - vm_compute. reflexivity.
  - vm_compute. split; [discriminate|reflexivity].
Defined.

(** X3.  A successful vote writes nothing but the tally of its proposal and
    the two has-voted flags of its caller on that proposal: the proposal
    records, the proposal count, the role tables, the contract owner, the
    default voting duration, the tallies of all other proposals, and the
    clear and the encrypted flags of all other (proposal, voter) pairs are
    left as they were; the caller's clear flag, unset before, is set, and
    the caller's encrypted flag is an encryption of true. *)
Theorem vote_frame s now env id ct pf :
  reachable s now ->
  outcome (run env (Vote id ct pf) s) = None ->
  proposals (post (run env (Vote id ct pf) s)) = proposals s
  /\ proposalCount (post (run env (Vote id ct pf) s)) = proposalCount s
  /\ proposers (post (run env (Vote id ct pf) s)) = proposers s
  /\ administrators (post (run env (Vote id ct pf) s)) = administrators s
  /\ owner (post (run env (Vote id ct pf) s)) = owner s
  /\ defaultVotingDuration (post (run env (Vote id ct pf) s)) = defaultVotingDuration s
  /\ (forall id', id' <> id ->
        proposalResults (post (run env (Vote id ct pf) s)) !! id'
        = proposalResults s !! id')
  /\ (forall key, key <> (id, sender env) ->
        hasVotedClear (post (run env (Vote id ct pf) s)) !! key = hasVotedClear s !! key)
  /\ (forall key, key <> (id, sender env) ->
        hasVoted (post (run env (Vote id ct pf) s)) !! key = hasVoted s !! key)
  /\ voted_at s id (sender env) = false
  /\ hasVotedClear (post (run env (Vote id ct pf) s)) !! (id, sender env) = Some true
  /\ hasVoted (post (run env (Vote id ct pf) s)) !! (id, sender env)
     = Some (EB_trivial true).
Proof.
  intros Hreach Hout.
  destruct (vote_succeeded _ _ _ _ _ _ Hreach Hout) as (_ & _ & Hv & ->).
  cbn [post]. unfold voted_state, with_results. simpl.
  repeat split; try done.
  - intros id' Hid. by rewrite lookup_insert_ne.
  - intros key Hne. by rewrite lookup_insert_ne.
  - intros key Hne. by rewrite lookup_insert_ne.
  - by rewrite lookup_insert_eq.
  - by rewrite lookup_insert_eq.
Qed.

Lemma vote_frame_witness :
  proposals (after_bob PUBLIC_AFTER_END 1) = proposals (opened PUBLIC_AFTER_END)
  /\ proposalCount (after_bob PUBLIC_AFTER_END 1) = proposalCount (opened PUBLIC_AFTER_END)
  /\ proposers (after_bob PUBLIC_AFTER_END 1) = proposers (opened PUBLIC_AFTER_END)
  /\ administrators (after_bob PUBLIC_AFTER_END 1)
     = administrators (opened PUBLIC_AFTER_END)
  /\ owner (after_bob PUBLIC_AFTER_END 1) = owner (opened PUBLIC_AFTER_END)
  /\ defaultVotingDuration (after_bob PUBLIC_AFTER_END 1)
     = defaultVotingDuration (opened PUBLIC_AFTER_END)
  /\ (forall id', id' <> 0 ->
        proposalResults (after_bob PUBLIC_AFTER_END 1) !! id'
        = proposalResults (opened PUBLIC_AFTER_END) !! id')
  /\ (forall key, key <> (0, sender (at_time bob 1001)) ->
        hasVotedClear (after_bob PUBLIC_AFTER_END 1) !! key
        = hasVotedClear (opened PUBLIC_AFTER_END) !! key)
  /\ (forall key, key <> (0, sender (at_time bob 1001)) ->
        hasVoted (after_bob PUBLIC_AFTER_END 1) !! key
        = hasVoted (opened PUBLIC_AFTER_END) !! key)
  /\ voted_at (opened PUBLIC_AFTER_END) 0 (sender (at_time bob 1001)) = false
  /\ hasVotedClear (after_bob PUBLIC_AFTER_END 1) !! (0, sender (at_time bob 1001))
     = Some true
  /\ hasVoted (after_bob PUBLIC_AFTER_END 1) !! (0, sender (at_time bob 1001))
     = Some (EB_trivial true).
Proof.
  apply (vote_frame (opened PUBLIC_AFTER_END) 1000 (at_time bob 1001) 0
           (ballot 1) ValidProof).
  - by apply reachable_by_opened.
  - vm_compute. reflexivity.
Defined.

(* ===================================================================== *)
(** ** X4, X5, X6: disclosure by strategy *)
(* ===================================================================== *)

(** X4.  A successful vote always grants its caller a persistent permission
    on the caller's own encrypted has-voted flag.  On the tally, a vote on
    a [PUBLIC_AFTER_END] proposal grants nothing, and a vote on a
    [QUALIFIED_ONLY] proposal grants the caller, and nobody else, a
    transient permission on every per-option counter and on the total. *)
Theorem vote_disclosure_by_strategy s now env id ct pf :
  reachable s now ->
  outcome (run env (Vote id ct pf) s) = None ->
  In (AclAllow (HB (EB_trivial true)) (sender env))
     (trace (run env (Vote id ct pf) s))
  /\ (Proposal.strategy (proposal_at s id) = PUBLIC_AFTER_END ->
      tally_permissions (trace (run env (Vote id ct pf) s)) = [])
  /\ (Proposal.strategy (proposal_at s id) = QUALIFIED_ONLY ->
      tally_permissions (trace (run env (Vote id ct pf) s))
      = map (fun c => AclAllowTransient (H32 c) (sender env))
            (optionVotes (results_at (post (run env (Vote id ct pf) s)) id))
        ++ [AclAllowTransient
              (H32 (totalVotes (results_at (post (run env (Vote id ct pf) s)) id)))
              (sender env)]).
Proof.
  intros Hreach Hout.
  destruct (vote_succeeded _ _ _ _ _ _ Hreach Hout) as (_ & _ & _ & ->).
  cbn [post trace]. rewrite tally_permissions_vote_log.
  rewrite results_at_voted, decide_True by done. split; [|split].
  - unfold vote_log. apply in_or_app. right. apply in_or_app. right.
    apply in_or_app. left. simpl. tauto.
  - intros Hs. unfold vote_disclosure. by rewrite Hs.
  - intros Hs. unfold vote_disclosure. by rewrite Hs.
Qed.

Lemma vote_disclosure_by_strategy_witness :
  In (AclAllow (HB (EB_trivial true)) (sender (at_time bob 1001)))
     (trace (run (at_time bob 1001) (bob_votes 1) (opened QUALIFIED_ONLY)))
  /\ (Proposal.strategy (proposal_at (opened QUALIFIED_ONLY) 0) = PUBLIC_AFTER_END ->
      tally_permissions
        (trace (run (at_time bob 1001) (bob_votes 1) (opened QUALIFIED_ONLY))) = [])
  /\ (Proposal.strategy (proposal_at (opened QUALIFIED_ONLY) 0) = QUALIFIED_ONLY ->
      tally_permissions
        (trace (run (at_time bob 1001) (bob_votes 1) (opened QUALIFIED_ONLY)))
      = map (fun c => AclAllowTransient (H32 c) (sender (at_time bob 1001)))
            (optionVotes (results_at (after_bob QUALIFIED_ONLY 1) 0))
        ++ [AclAllowTransient
              (H32 (totalVotes (results_at (after_bob QUALIFIED_ONLY 1) 0)))
              (sender (at_time bob 1001))]).
Proof.
  apply (vote_disclosure_by_strategy (opened QUALIFIED_ONLY) 1000
           (at_time bob 1001) 0 (ballot 1) ValidProof).
  - by apply reachable_by_opened.
  - vm_compute. reflexivity.
Defined.

(** X5.  A successful [finalizeProposal] on a [PUBLIC_AFTER_END] proposal
    marks every per-option counter and the total as publicly decryptable
    and grants no account anything; on a [QUALIFIED_ONLY] proposal it
    performs no permission action on the tally. *)
Theorem finalize_disclosure_by_strategy s now env id :
  reachable s now ->
  outcome (run env (FinalizeProposal id) s) = None ->
  (Proposal.strategy (proposal_at s id) = PUBLIC_AFTER_END ->
   tally_permissions (trace (run env (FinalizeProposal id) s))
   = map (fun c => AclMakePubliclyDecryptable (H32 c)) (optionVotes (results_at s id))
     ++ [AclMakePubliclyDecryptable (H32 (totalVotes (results_at s id)))])
  /\ (Proposal.strategy (proposal_at s id) = QUALIFIED_ONLY ->
      tally_permissions (trace (run env (FinalizeProposal id) s)) = []).
Proof.
  intros Hreach Hout.
  destruct (finalize_succeeded _ _ _ _ Hreach Hout) as (_ & _ & ->).
  cbn [trace]. rewrite tally_permissions_finalized_log.
  unfold finalize_disclosure. split; intros Hs; by rewrite Hs.
Qed.

Lemma finalize_disclosure_by_strategy_witness :
  (Proposal.strategy (proposal_at (after_bob PUBLIC_AFTER_END 1) 0) = PUBLIC_AFTER_END ->
   tally_permissions
     (trace (run (at_time alice 1200) (FinalizeProposal 0) (after_bob PUBLIC_AFTER_END 1)))
   = map (fun c => AclMakePubliclyDecryptable (H32 c))
         (optionVotes (results_at (after_bob PUBLIC_AFTER_END 1) 0))
     ++ [AclMakePubliclyDecryptable
           (H32 (totalVotes (results_at (after_bob PUBLIC_AFTER_END 1) 0)))])
  /\ (Proposal.strategy (proposal_at (after_bob PUBLIC_AFTER_END 1) 0) = QUALIFIED_ONLY ->
      tally_permissions
        (trace (run (at_time alice 1200) (FinalizeProposal 0)
                  (after_bob PUBLIC_AFTER_END 1))) = []).
Proof.
  apply (finalize_disclosure_by_strategy (after_bob PUBLIC_AFTER_END 1) 1001
           (at_time alice 1200) 0).
  - by apply reachable_by_after_bob.
  - vm_compute. reflexivity.
Defined.

(** X6.  A successful [finalizeProposal] writes one thing, the [finalized]
    flag of its proposal, unset before: the other fields of that proposal,
    every other proposal, all tallies, the clear and the encrypted
    has-voted flags, the role tables, the contract owner, the proposal
    count and the default voting duration are left as they were.  It
    emits [ProposalFinalized]. *)
Theorem finalize_only_sets_flag s now env id :
  reachable s now ->
  outcome (run env (FinalizeProposal id) s) = None ->
  Proposal.finalized (proposal_at s id) = false
  /\ Proposal.finalized (proposal_at (post (run env (FinalizeProposal id) s)) id) = true
  /\ same_terms (proposal_at s id)
       (proposal_at (post (run env (FinalizeProposal id) s)) id)
  /\ (forall id', id' <> id ->
        proposals (post (run env (FinalizeProposal id) s)) !! id' = proposals s !! id')
  /\ proposalResults (post (run env (FinalizeProposal id) s)) = proposalResults s
  /\ hasVoted (post (run env (FinalizeProposal id) s)) = hasVoted s
  /\ hasVotedClear (post (run env (FinalizeProposal id) s)) = hasVotedClear s
  /\ proposers (post (run env (FinalizeProposal id) s)) = proposers s
  /\ administrators (post (run env (FinalizeProposal id) s)) = administrators s
  /\ owner (post (run env (FinalizeProposal id) s)) = owner s
  /\ proposalCount (post (run env (FinalizeProposal id) s)) = proposalCount s
  /\ defaultVotingDuration (post (run env (FinalizeProposal id) s))
     = defaultVotingDuration s
  /\ In (Emit (ProposalFinalized id)) (trace (run env (FinalizeProposal id) s)).
Proof.
  intros Hreach Hout.
  destruct (finalize_succeeded _ _ _ _ Hreach Hout) as (_ & Hfin & ->).
  cbn [post trace]. split; [done|]. rewrite proposal_at_finalized, decide_True by done.
  split; [done|]. split; [by repeat split|]. split.
  - intros id' Hne. unfold finalized_state. simpl. by rewrite lookup_insert_ne.
  - repeat split. unfold finalized_log. apply in_or_app. right. by left.
Qed.

Lemma finalize_only_sets_flag_witness :
  Proposal.finalized (proposal_at (after_bob PUBLIC_AFTER_END 1) 0) = false
  /\ Proposal.finalized (proposal_at closed 0) = true
  /\ same_terms (proposal_at (after_bob PUBLIC_AFTER_END 1) 0) (proposal_at closed 0)
  /\ (forall id', id' <> 0 ->
        proposals closed !! id' = proposals (after_bob PUBLIC_AFTER_END 1) !! id')
  /\ proposalResults closed = proposalResults (after_bob PUBLIC_AFTER_END 1)
  /\ hasVoted closed = hasVoted (after_bob PUBLIC_AFTER_END 1)
  /\ hasVotedClear closed = hasVotedClear (after_bob PUBLIC_AFTER_END 1)
  /\ proposers closed = proposers (after_bob PUBLIC_AFTER_END 1)
  /\ administrators closed = administrators (after_bob PUBLIC_AFTER_END 1)
  /\ owner closed = owner (after_bob PUBLIC_AFTER_END 1)
  /\ proposalCount closed = proposalCount (after_bob PUBLIC_AFTER_END 1)
  /\ defaultVotingDuration closed = defaultVotingDuration (after_bob PUBLIC_AFTER_END 1)
  /\ In (Emit (ProposalFinalized 0))
        (trace (run (at_time alice 1200) (FinalizeProposal 0)
                  (after_bob PUBLIC_AFTER_END 1))).
Proof.
  apply (finalize_only_sets_flag (after_bob PUBLIC_AFTER_END 1) 1001
           (at_time alice 1200) 0).
  - by apply reachable_by_after_bob.
  - vm_compute. reflexivity.
Defined.

(* ===================================================================== *)
(** ** X7, X8: votes the lifecycle rules out *)
(* ===================================================================== *)

(** X7.  In a reachable state, at a block time not before the last one, a
    vote on a finalized proposal fails with [Ended], and no vote at all
    fails with the reason of the contract's "Proposal finalized" check: a
    proposal is only finalized after its end time, and the end-time check
    comes first. *)
Theorem vote_on_finalized s now env id ct pf :
  reachable s now ->
  now <= timestamp env ->
  outcome (run env (Vote id ct pf) s) <> Some (Revert "Proposal finalized")
  /\ (Proposal.finalized (proposal_at s id) = true ->
      outcome (run env (Vote id ct pf) s) = Some Ended
      /\ post (run env (Vote id ct pf) s) = s).
Proof.
  intros Hreach Hnow. apply reachable_by_Inv in Hreach as HI.
  pose proof (inv_window _ _ HI id) as Hwin.
  pose proof (inv_finalized _ _ HI id) as Hfin.
  assert (Hended : Proposal.finalized (proposal_at s id) = true ->
                   run env (Vote id ct pf) s
                   = {| outcome := Some Ended; post := s; trace := [] |}).
  { intros Hf. specialize (Hfin Hf). cbn [run].
    by erewrite transact_fail by (apply vote_ended; lia). }
  split.
  - destruct (Proposal.finalized (proposal_at s id)) eqn:Hf.
    + by rewrite Hended.
    + cbn [run].
      destruct (vote_cases env id ct pf s (inv_counters _ _ HI id))
        as [[e He]|(_ & _ & _ & _ & Hok)].
      2:{ by erewrite transact_ok by exact Hok. }
      erewrite transact_fail by exact He. cbn [outcome]. intros [= ->].
      revert He.
      destruct (Z.lt_ge_cases (timestamp env) (Proposal.startTime (proposal_at s id)))
        as [H1|H1]; [by rewrite vote_not_started|].
      destruct (Z.lt_ge_cases (Proposal.endTime (proposal_at s id)) (timestamp env))
        as [H2|H2]; [by rewrite vote_ended|].
      destruct (voted_at s id (sender env)) eqn:H4;
        [by rewrite vote_already_voted|].
      destruct pf; [by rewrite vote_ok by (try apply HI; done)|].
      by rewrite vote_bad_proof.
  - intros Hf. by rewrite (Hended Hf).
Qed.

Lemma vote_on_finalized_witness :
  outcome (run (at_time bob 1300) (Vote 0 (ballot 0) ValidProof) closed)
  <> Some (Revert "Proposal finalized")
  /\ (Proposal.finalized (proposal_at closed 0) = true ->
      outcome (run (at_time bob 1300) (Vote 0 (ballot 0) ValidProof) closed) = Some Ended
      /\ post (run (at_time bob 1300) (Vote 0 (ballot 0) ValidProof) closed) = closed).
Proof.
  apply (vote_on_finalized closed 1200 (at_time bob 1300) 0 (ballot 0) ValidProof).
  - exact reachable_closed.
  - simpl. lia.
Defined.

(** X8.  [vote] has no existence check either, but the window check stands
    in for one: in a reachable state, a vote on an id that was never
    allocated fails with [Ended] at every positive block time and leaves
    the storage as it was. *)
Theorem vote_unallocated s now env id ct pf :
  reachable s now ->
  proposalCount s <= id ->
  0 < timestamp env ->
  outcome (run env (Vote id ct pf) s) = Some Ended
  /\ post (run env (Vote id ct pf) s) = s
  /\ trace (run env (Vote id ct pf) s) = [].
Proof.
  intros Hreach Hid Htime. apply reachable_by_Inv in Hreach as HI.
  pose proof (inv_absent _ _ HI id) as Habs. unfold unallocated in Habs.
  specialize (Habs ltac:(unfold created; lia)).
  cbn [run]. erewrite transact_fail; [done|].
  apply vote_ended; rewrite Habs; simpl; lia.
Qed.

Lemma vote_unallocated_witness :
  outcome (run (at_time bob 1001) (Vote 7 (ballot 0) ValidProof) (opened OWNER_ONLY))
  = Some Ended
  /\ post (run (at_time bob 1001) (Vote 7 (ballot 0) ValidProof) (opened OWNER_ONLY))
     = opened OWNER_ONLY
  /\ trace (run (at_time bob 1001) (Vote 7 (ballot 0) ValidProof) (opened OWNER_ONLY))
     = [].
Proof.
  apply (vote_unallocated (opened OWNER_ONLY) 1000 (at_time bob 1001) 7
           (ballot 0) ValidProof).
  - by apply reachable_by_opened.
  - vm_compute. discriminate.
  - reflexivity.
Defined.

(* ===================================================================== *)
(** ** X9, X10: granting permissions and reading counters *)
(* ===================================================================== *)

Lemma grantDecryptionPermission_run env id account s :
  counters_match s id ->
  counters_initialized s id ->
  total_initialized s id = true ->
  transact (grantDecryptionPermission env id account) s
  = if may_grant s id (sender env)
    then {| outcome := None; post := s; trace := grant_log s id account |}
    else {| outcome := Some (Revert "Not authorized"); post := s; trace := [] |}.
Proof.
  intros Hlen Hall Htot.
  assert (Hn : Z.to_nat (Proposal.optionCount (proposal_at s id))
               = length (optionVotes (results_at s id))).
  { unfold counters_match in Hlen. lia. }
  unfold transact, grantDecryptionPermission, may_grant. munfold. rewrite Hn.
  destruct ((sender env =? Proposal.owner (proposal_at s id))
            || (sender env =? owner s) || is_administrator s (sender env));
    [|reflexivity].
  cbn beta iota.
  rewrite (each_option_range_spec id _ (fun h => AclAllow h account));
    [|by intros; apply guarded_ok|done].
  rewrite guarded_ok by done.
  unfold grant_log. by rewrite <- app_assoc.
Qed.

(** X9.  In a reachable state and for a created proposal,
    [grantDecryptionPermission] succeeds exactly for the proposal's owner,
    the contract owner and the administrators, and fails with "Not
    authorized" for everyone else.  When it succeeds it grants [account] a
    persistent permission on every per-option counter and on the total, in
    this order, does nothing else, and leaves the storage as it was; it can
    be called at any time of the lifecycle. *)
Theorem grantDecryptionPermission_spec s now env id account :
  reachable s now ->
  created s id ->
  ((sender env = Proposal.owner (proposal_at s id) \/ sender env = owner s
    \/ is_administrator s (sender env) = true) ->
   run env (GrantDecryptionPermission id account) s
   = {| outcome := None; post := s;
        trace := map (fun c => AclAllow (H32 c) account) (optionVotes (results_at s id))
                 ++ [AclAllow (H32 (totalVotes (results_at s id))) account] |})
  /\ (~ (sender env = Proposal.owner (proposal_at s id) \/ sender env = owner s
         \/ is_administrator s (sender env) = true) ->
      run env (GrantDecryptionPermission id account) s
      = {| outcome := Some (Revert "Not authorized"); post := s; trace := [] |}).
Proof.
  intros Hreach Hid. apply reachable_by_Inv in Hreach as HI. cbn [run].
  rewrite (grantDecryptionPermission_run env id account s
             (inv_counters _ _ HI id) (inv_initialized _ _ HI id)
             (inv_total _ _ HI id Hid)).
  unfold may_grant. split.
  - intros Hauth.
    replace ((sender env =? Proposal.owner (proposal_at s id))
             || (sender env =? owner s) || is_administrator s (sender env))
      with true; [done|].
    symmetry. rewrite !orb_true_iff, !Z.eqb_eq. tauto.
  - intros Hauth.
    replace ((sender env =? Proposal.owner (proposal_at s id))
             || (sender env =? owner s) || is_administrator s (sender env))
      with false; [done|].
    symmetry. apply not_true_is_false. rewrite !orb_true_iff, !Z.eqb_eq. tauto.
Qed.

Lemma grantDecryptionPermission_spec_witness :
  ((sender (at_time alice 1500) = Proposal.owner (proposal_at closed 0)
    \/ sender (at_time alice 1500) = owner closed
    \/ is_administrator closed (sender (at_time alice 1500)) = true) ->
   run (at_time alice 1500) (GrantDecryptionPermission 0 carol) closed
   = {| outcome := None; post := closed;
        trace := map (fun c => AclAllow (H32 c) carol) (optionVotes (results_at closed 0))
                 ++ [AclAllow (H32 (totalVotes (results_at closed 0))) carol] |})
  /\ (~ (sender (at_time alice 1500) = Proposal.owner (proposal_at closed 0)
         \/ sender (at_time alice 1500) = owner closed
         \/ is_administrator closed (sender (at_time alice 1500)) = true) ->
      run (at_time alice 1500) (GrantDecryptionPermission 0 carol) closed
      = {| outcome := Some (Revert "Not authorized"); post := closed; trace := [] |}).
Proof.
  apply (grantDecryptionPermission_spec closed 1200 (at_time alice 1500) 0 carol).
  - exact reachable_closed.
  - vm_compute. split; [discriminate|reflexivity].
Defined.

(** X10.  In a reachable state [getOptionVotes] never runs past the end of
    the counter array: for an index below the proposal's [optionCount] it
    returns the counter stored at that index, and for any other index it
    fails with "Invalid option"; it never changes the storage.  For an id
    that was never allocated every index is invalid. *)
Theorem getOptionVotes_spec s now id i :
  reachable s now ->
  0 <= i ->
  (i < Proposal.optionCount (proposal_at s id) ->
   exists c, optionVotes (results_at s id) !! Z.to_nat i = Some c
             /\ getOptionVotes id i s [] = Ok c s [])
  /\ (Proposal.optionCount (proposal_at s id) <= i ->
      getOptionVotes id i s [] = Fail (Revert "Invalid option") [])
  /\ (proposalCount s <= id ->
      getOptionVotes id i s [] = Fail (Revert "Invalid option") []).
Proof.
  intros Hreach Hi. apply reachable_by_Inv in Hreach as HI.
  pose proof (inv_counters _ _ HI id) as Hlen. unfold counters_match in Hlen.
  assert (Hbad : Proposal.optionCount (proposal_at s id) <= i ->
                 getOptionVotes id i s [] = Fail (Revert "Invalid option") []).
  { intros Hge. unfold getOptionVotes. munfold.
    by apply Z.ltb_ge in Hge as ->. }
  split; [|split; [exact Hbad|]].
  - intros Hlt.
    destruct (lookup_lt_is_Some_2 (optionVotes (results_at s id)) (Z.to_nat i))
      as [c Hc]; [lia|].
    exists c. split; [done|]. unfold getOptionVotes. munfold.
    apply Z.ltb_lt in Hlt as ->. cbn beta iota. by rewrite Hc.
  - intros Hid. apply Hbad.
    pose proof (inv_absent _ _ HI id) as Habs. unfold unallocated in Habs.
    rewrite Habs by (unfold created; lia). simpl. lia.
Qed.

Lemma getOptionVotes_spec_witness :
  (1 < Proposal.optionCount (proposal_at (after_bob OWNER_ONLY 1) 0) ->
   exists c, optionVotes (results_at (after_bob OWNER_ONLY 1) 0) !! Z.to_nat 1 = Some c
             /\ getOptionVotes 0 1 (after_bob OWNER_ONLY 1) []
                = Ok c (after_bob OWNER_ONLY 1) [])
  /\ (Proposal.optionCount (proposal_at (after_bob OWNER_ONLY 1) 0) <= 1 ->
      getOptionVotes 0 1 (after_bob OWNER_ONLY 1) []
      = Fail (Revert "Invalid option") [])
  /\ (proposalCount (after_bob OWNER_ONLY 1) <= 0 ->
      getOptionVotes 0 1 (after_bob OWNER_ONLY 1) []
      = Fail (Revert "Invalid option") []).
Proof.
  apply (getOptionVotes_spec (after_bob OWNER_ONLY 1) 1001 0 1).
  - by apply reachable_by_after_bob.
  - lia.
Defined.

(* ===================================================================== *)
(** ** X11, X12: roles *)
(* ===================================================================== *)

(** X11.  Who can change what, over all external functions.  In a reachable
    state, whatever the call: the contract owner never changes; the
    administrators table and [defaultVotingDuration] change only when the
    caller is the owner; the proposers table changes only when the caller
    is the owner or an administrator. *)
Theorem roles_change_only_by_privileged s now env c :
  reachable s now ->
  owner (post (run env c s)) = owner s
  /\ (sender env <> owner s ->
      administrators (post (run env c s)) = administrators s
      /\ defaultVotingDuration (post (run env c s)) = defaultVotingDuration s)
  /\ (sender env <> owner s -> is_administrator s (sender env) = false ->
      proposers (post (run env c s)) = proposers s).
Proof.
  intros Hreach.
  destruct (reachable_run_step s now env c Hreach); repeat split; try done.
  intros Hne Hadm. unfold privileged in *.
  rewrite Hadm in *. apply Z.eqb_neq in Hne. by rewrite Hne in *.
Qed.

Lemma roles_change_only_by_privileged_witness :
  owner (post (run (at_time carol 1500) (SetAdministrator carol true) closed))
  = owner closed
  /\ (sender (at_time carol 1500) <> owner closed ->
      administrators (post (run (at_time carol 1500) (SetAdministrator carol true) closed))
      = administrators closed
      /\ defaultVotingDuration
           (post (run (at_time carol 1500) (SetAdministrator carol true) closed))
         = defaultVotingDuration closed)
  /\ (sender (at_time carol 1500) <> owner closed ->
      is_administrator closed (sender (at_time carol 1500)) = false ->
      proposers (post (run (at_time carol 1500) (SetAdministrator carol true) closed))
      = proposers closed).
Proof.
  apply (roles_change_only_by_privileged closed 1200 (at_time carol 1500)
           (SetAdministrator carol true)).
  exact reachable_closed.
Defined.

Lemma owner_later s0 t0 s t :
  reachable s0 t0 -> later s0 t0 s t -> owner s = owner s0.
Proof.
  intros Hreach Hlater.
  apply (later_ind_step (fun s => owner s = owner s0) s0 t0 s t Hreach);
    [|done|done].
  intros s1 env c Hstep IH. rewrite <- IH. by destruct Hstep.
Qed.

(** X12.  The contract has no way to transfer ownership: in every state
    reached from a deployment the owner is still the deployer.  Whatever
    has been done to the role tables, the deployer's calls to
    [setAdministrator] and [setProposer] succeed and install the given
    status. *)
Theorem deployer_keeps_control d t0 s t env account status :
  later (constructor d) t0 s t ->
  sender env = d ->
  owner s = d
  /\ outcome (run env (SetAdministrator account status) s) = None
  /\ is_administrator (post (run env (SetAdministrator account status) s)) account
     = status
  /\ outcome (run env (SetProposer account status) s) = None
  /\ is_proposer (post (run env (SetProposer account status) s)) account = status.
Proof.
  intros Hlater Hsender.
  assert (Howner : owner s = d).
  { by rewrite (owner_later (constructor d) t0 s t (reach_deploy _ d t0) Hlater). }
  split; [done|]. cbn [run].
  rewrite setAdministrator_run, setProposer_run. unfold privileged.
  replace (sender env =? owner s) with true by (symmetry; apply Z.eqb_eq; congruence).
  rewrite orb_true_r. cbn [outcome post].
  repeat split.
  - unfold is_administrator, administrator_set. simpl. apply sload_insert_eq.
  - unfold is_proposer, proposer_set. simpl. apply sload_insert_eq.
Qed.

Lemma deployer_keeps_control_witness :
  owner self_demoted = deployer
  /\ outcome (run (at_time deployer 1100) (SetAdministrator alice true) self_demoted)
     = None
  /\ is_administrator
       (post (run (at_time deployer 1100) (SetAdministrator alice true) self_demoted))
       alice = true
  /\ outcome (run (at_time deployer 1100) (SetProposer alice true) self_demoted) = None
  /\ is_proposer
       (post (run (at_time deployer 1100) (SetProposer alice true) self_demoted))
       alice = true.
Proof.
  apply (deployer_keeps_control deployer 900 self_demoted 1000
           (at_time deployer 1100) alice true).
  - apply (later_call (constructor deployer) 900 (constructor deployer) 900
             (at_time deployer 1000) (SetAdministrator deployer false));
      [apply later_now|simpl; lia].
  - reflexivity.
Defined.

(* ===================================================================== *)
(** ** X13: a proposal after its creation *)
(* ===================================================================== *)

Lemma same_terms_refl p : same_terms p p.
Proof. by repeat split. Qed.

Lemma same_terms_trans p q r : same_terms p q -> same_terms q r -> same_terms p r.
Proof.
  unfold same_terms. intros (?&?&?&?&?&?&?&?) (?&?&?&?&?&?&?&?).
  repeat split; congruence.
Qed.

Lemma proposal_step env s c s' id :
  step_of env s c s' ->
  created s id ->
  created s' id
  /\ same_terms (proposal_at s id) (proposal_at s' id)
  /\ (Proposal.finalized (proposal_at s id) = true ->
      Proposal.finalized (proposal_at s' id) = true).
Proof.
  intros Hstep Hid. destruct Hstep; try (split; [done|split; [apply same_terms_refl|done]]).
  - unfold created in *. rewrite proposalCount_created, proposal_at_created.
    rewrite decide_False by lia.
    split; [lia|]. split; [apply same_terms_refl|done].
  - split; [done|]. rewrite proposal_at_finalized. case_decide.
    + subst. split; [by repeat split|done].
    + split; [apply same_terms_refl|done].
Qed.

(** X13.  Once created, a proposal stays created and nothing but its
    [finalized] flag ever changes: after any further transactions its
    title, description, start and end time, option count, owner, strategy
    and quorum are the ones it was created with, and a [finalized] flag
    that is set stays set. *)
Theorem proposal_terms_are_final s0 t0 s t id :
  reachable s0 t0 ->
  later s0 t0 s t ->
  created s0 id ->
  created s id
  /\ same_terms (proposal_at s0 id) (proposal_at s id)
  /\ (Proposal.finalized (proposal_at s0 id) = true ->
      Proposal.finalized (proposal_at s id) = true).
Proof.
  intros Hreach Hlater Hid.
  apply (later_ind_step
           (fun s => created s id
                     /\ same_terms (proposal_at s0 id) (proposal_at s id)
                     /\ (Proposal.finalized (proposal_at s0 id) = true ->
                         Proposal.finalized (proposal_at s id) = true))
           s0 t0 s t Hreach); [|done|].
  - intros s1 env c Hstep (Hc & Hterms & Hfin).
    destruct (proposal_step _ _ _ _ id Hstep Hc) as (Hc' & Hterms' & Hfin').
    split; [done|]. split; [by eapply same_terms_trans|]. auto.
  - split; [done|]. split; [apply same_terms_refl|done].
Qed.

Lemma proposal_terms_are_final_witness :
  created closed 0
  /\ same_terms (proposal_at (opened PUBLIC_AFTER_END) 0) (proposal_at closed 0)
  /\ (Proposal.finalized (proposal_at (opened PUBLIC_AFTER_END) 0) = true ->
      Proposal.finalized (proposal_at closed 0) = true).
Proof.
  apply (proposal_terms_are_final (opened PUBLIC_AFTER_END) 1000 closed 1200 0).
  - by apply reachable_by_opened.
  - apply (later_call (opened PUBLIC_AFTER_END) 1000 (after_bob PUBLIC_AFTER_END 1)
             1001 (at_time alice 1200) (FinalizeProposal 0)); [|simpl; lia].
    apply (later_call (opened PUBLIC_AFTER_END) 1000 (opened PUBLIC_AFTER_END) 1000
             (at_time bob 1001) (bob_votes 1)); [apply later_now|simpl; lia].
  - vm_compute. split; [discriminate|reflexivity].
Defined.

(* ===================================================================== *)
(** ** X14: the two has-voted flags *)
(* ===================================================================== *)

Lemma flags_agree_step env s c s' :
  step_of env s c s' -> flags_agree s -> flags_agree s'.
Proof.
  intros Hstep Hagree. destruct Hstep; try done.
  intros id' voter. rewrite voted_at_voted. unfold voted_state. simpl.
  case_decide as Hk.
  - rewrite <- Hk. by rewrite sload_insert_eq.
  - rewrite sload_insert_ne by done. apply Hagree.
Qed.

Lemma flags_agree_reachable s now : reachable s now -> flags_agree s.
Proof.
  induction 1 as [d now|s now env c Hreach IH Hnow _].
  - intros id voter. unfold voted_at. simpl. by rewrite !sload_empty.
  - eapply flags_agree_step; [|exact IH]. by eapply reachable_run_step.
Qed.

(** X14.  The contract keeps the has-voted flag twice, encrypted and in
    the clear, and the two never disagree: in every reachable state
    [getHasVoted] returns, without failing or changing the storage, a
    handle that decrypts to the clear flag that guards [vote]. *)
Theorem getHasVoted_matches_guard s now id voter :
  reachable s now ->
  exists flag,
    getHasVoted id voter s [] = Ok flag s []
    /\ decryptBool flag = voted_at s id voter.
Proof.
  intros Hreach. eexists. split; [reflexivity|].
  by apply flags_agree_reachable with (now := now).
Qed.

Lemma getHasVoted_matches_guard_witness :
  exists flag,
    getHasVoted 0 bob (after_bob OWNER_ONLY 1) [] = Ok flag (after_bob OWNER_ONLY 1) []
    /\ decryptBool flag = voted_at (after_bob OWNER_ONLY 1) 0 bob.
Proof.
  apply (getHasVoted_matches_guard (after_bob OWNER_ONLY 1) 1001 0 bob).
  by apply reachable_by_after_bob.
Defined.

(* ===================================================================== *)
(** ** X15: the total counts the voters *)
(* ===================================================================== *)

Lemma voters_voted env id ct s id' :
  voted_at s id (sender env) = false ->
  voters (voted_state env id ct s) id'
  = if decide (id = id') then S (voters s id) else voters s id'.
Proof.
  intros Hv. unfold voters, voted_state. simpl. case_decide as Hid.
  - subst id'. rewrite map_filter_insert_True by done.
    apply map_size_insert_None. apply map_lookup_filter_None.
    unfold voted_at, sload in Hv.
    destruct (hasVotedClear s !! (id, sender env)) as [b|] eqn:Hb; [|by left].
    right. intros x [= <-] [_ Htrue]. simpl in *. congruence.
  - rewrite map_filter_insert_not; [done|]. intros y [Hk _]. by simpl in Hk.
Qed.

Lemma voters_none s id :
  (forall voter, voted_at s id voter = false) -> voters s id = 0%nat.
Proof.
  intros Hnone. unfold voters. apply map_size_empty_iff, map_empty.
  intros [id' voter]. apply map_lookup_filter_None.
  destruct (hasVotedClear s !! (id', voter)) as [b|] eqn:Hb; [|by left].
  right. intros x [= <-] [Hk Htrue]. simpl in *. subst.
  specialize (Hnone voter). unfold voted_at, sload in Hnone.
  rewrite Hb in Hnone. by simpl in Hnone.
Qed.

Lemma total_counts_voters_step env s c s' now :
  Inv s now ->
  0 < timestamp env ->
  step_of env s c s' ->
  total_counts_voters s -> total_counts_voters s'.
Proof.
  intros HI Htime Hstep [Htot Hnone].
  destruct Hstep as [c|title description oc d strat q Hoc Hd Hq
                    |id ct Hw Hf Hv|id He Hf|account status Hp
                    |account status Ho|d Ho Hd]; try done.
  - split.
    + intros id Hid. unfold decrypted_total. rewrite results_at_created.
      unfold created in Hid. rewrite proposalCount_created in Hid.
      case_decide as Hnew.
      * subst id. simpl.
        replace (voters (created_state env title description oc d strat q s)
                   (proposalCount s)) with 0%nat; [done|].
        symmetry. apply voters_none. intros voter.
        apply Hnone. unfold created. lia.
      * apply Htot. unfold created. lia.
    + intros id voter Hid. apply Hnone. unfold created in *.
      rewrite proposalCount_created in Hid. lia.
  - assert (Hc : created s id).
    { destruct (decide (0 <= id < proposalCount s)) as [Hc|Hc]; [done|].
      pose proof (inv_absent _ _ HI id Hc) as Habs. unfold unallocated in Habs.
      rewrite Habs in Hw. simpl in Hw. lia. }
    split.
    + intros id' Hid'. unfold decrypted_total.
      rewrite results_at_voted, voters_voted by done. case_decide as Hsame.
      * subst id'. unfold voted_results. cbn [totalVotes decrypt32].
        change (1 mod uint32_mod) with 1.
        specialize (Htot id Hc). unfold decrypted_total in Htot. rewrite Htot.
        rewrite Zplus_mod_idemp_l. f_equal. lia.
      * by apply Htot.
    + intros id' voter Hid'. rewrite voted_at_voted. case_decide as Hk.
      * injection Hk as <- <-. by destruct Hid'.
      * by apply Hnone.
Qed.

Lemma total_counts_voters_reachable s now :
  reachable_by positive_time s now -> total_counts_voters s.
Proof.
  induction 1 as [d now|s now env c Hreach IH Hnow Hpos].
  - split.
    + intros id Hid. unfold created in Hid. simpl in Hid. lia.
    + intros id voter _. unfold voted_at. simpl. apply sload_empty.
  - pose proof (reachable_by_Inv _ _ _ Hreach) as HI.
    eapply total_counts_voters_step; [exact HI|exact Hpos| |exact IH].
    apply run_step; [apply HI|apply HI|by eapply Inv_fresh].
Qed.

(** X15.  With positive block times, the total of a created proposal
    decrypts to the number of accounts whose vote guard is set for that
    proposal, modulo 2^32, whatever their ballots encrypt; and no guard is
    ever set for an id that was never allocated. *)
Theorem total_is_number_of_voters s now id :
  reachable_by positive_time s now ->
  (created s id ->
   decrypted_total s id = Z.of_nat (voters s id) mod uint32_mod)
  /\ (~ created s id -> forall voter, voted_at s id voter = false).
Proof.
  intros Hreach. destruct (total_counts_voters_reachable s now Hreach) as [Htot Hnone].
  split; [apply Htot|]. intros Hid voter. by apply Hnone.
Qed.

Lemma total_is_number_of_voters_witness :
  (created (after_bob PUBLIC_AFTER_END 5) 0 ->
   decrypted_total (after_bob PUBLIC_AFTER_END 5) 0
   = Z.of_nat (voters (after_bob PUBLIC_AFTER_END 5) 0) mod uint32_mod)
  /\ (~ created (after_bob PUBLIC_AFTER_END 5) 0 ->
      forall voter, voted_at (after_bob PUBLIC_AFTER_END 5) 0 voter = false).
Proof.
  apply (total_is_number_of_voters (after_bob PUBLIC_AFTER_END 5) 1001 0).
  apply reachable_by_after_bob; reflexivity.
Defined.

(* ===================================================================== *)
(** ** X16: the status shown by the front end *)
(* ===================================================================== *)

(** X16.  The status the front end computes agrees with the contract when
    the client's clock shows the block time.  In a reachable state and for
    a created proposal, the status is [ended] exactly when
    [finalizeProposal] would succeed, and, for a caller who has not voted
    and sends a valid proof, it is [active] exactly when [vote] would
    succeed. *)
Theorem status_matches_contract s now env id ct :
  reachable s now ->
  created s id ->
  (status_at (timestamp env) s id = ended
   <-> outcome (run env (FinalizeProposal id) s) = None)
  /\ (voted_at s id (sender env) = false ->
      (status_at (timestamp env) s id = active
       <-> outcome (run env (Vote id ct ValidProof) s) = None)).
Proof.
  intros Hreach Hid. apply reachable_by_Inv in Hreach as HI.
  pose proof (inv_window _ _ HI id) as Hwin.
  pose proof (inv_counters _ _ HI id) as Hlen.
  pose proof (inv_initialized _ _ HI id) as Hall.
  assert (Hperm : finalize_permitted s id) by (right; by apply (inv_total _ _ HI)).
  unfold status_at, getProposalStatus. cbn [run].
  destruct (Proposal.finalized (proposal_at s id)) eqn:Hfin.
  - split.
    + split; [done|]. intros Hout.
      destruct (Z.lt_ge_cases (Proposal.endTime (proposal_at s id)) (timestamp env)).
      * by erewrite transact_fail in Hout by (by apply finalizeProposal_already).
      * by erewrite transact_fail in Hout by (by apply finalizeProposal_not_ended).
    + intros Hv. split; [done|]. intros Hout.
      destruct (vote_cases env id ct ValidProof s Hlen)
        as [[e He]|(_ & _ & Hf & _)]; [|congruence].
      by erewrite transact_fail in Hout by exact He.
  - destruct (timestamp env <? Proposal.startTime (proposal_at s id)) eqn:Hs.
    + apply Z.ltb_lt in Hs. split.
      * split; [done|]. intros Hout.
        by erewrite transact_fail in Hout
          by (apply finalizeProposal_not_ended; lia).
      * intros Hv. split; [done|]. intros Hout.
        by erewrite transact_fail in Hout by (by apply vote_not_started).
    + apply Z.ltb_ge in Hs.
      destruct (Proposal.endTime (proposal_at s id) <? timestamp env) eqn:He.
      * apply Z.ltb_lt in He. split.
        -- split; [|done]. intros _.
           by erewrite transact_ok by (by apply finalizeProposal_ok).
        -- intros Hv. split; [done|]. intros Hout.
           by erewrite transact_fail in Hout by (by apply vote_ended).
      * apply Z.ltb_ge in He. split.
        -- split; [done|]. intros Hout.
           by erewrite transact_fail in Hout
             by (by apply finalizeProposal_not_ended).
        -- intros Hv. split; [|done]. intros _.
           by erewrite transact_ok by (by apply vote_ok).
Qed.

Lemma status_matches_contract_witness :
  (status_at (timestamp (at_time carol 1050)) (after_bob PUBLIC_AFTER_END 1) 0 = ended
   <-> outcome (run (at_time carol 1050) (FinalizeProposal 0)
                  (after_bob PUBLIC_AFTER_END 1)) = None)
  /\ (voted_at (after_bob PUBLIC_AFTER_END 1) 0 (sender (at_time carol 1050)) = false ->
      (status_at (timestamp (at_time carol 1050)) (after_bob PUBLIC_AFTER_END 1) 0
       = active
       <-> outcome (run (at_time carol 1050) (Vote 0 (ballot 0) ValidProof)
                      (after_bob PUBLIC_AFTER_END 1)) = None)).
Proof.
  apply (status_matches_contract (after_bob PUBLIC_AFTER_END 1) 1001
           (at_time carol 1050) 0 (ballot 0)).
  - by apply reachable_by_after_bob.
  - vm_compute. split; [discriminate|reflexivity].
Defined.

(* ===================================================================== *)
(** ** X17 to X21: GovernanceParams *)
(* ===================================================================== *)

Lemma governance_bounds_step env c s :
  governance_bounds s -> governance_bounds (GovernanceParams.after env c s).
Proof.
  intros (Hdur & Hmin & Hmax). unfold GovernanceParams.after.
  destruct c as [d|d|q|m|account status|newOwner]; cbn [GovernanceParams.call].
  - unfold GovernanceParams.setMinVotingDuration.
    destruct (negb (GovernanceParams.onlyAdministrator env s)); [done|].
    destruct ((0 <? d) && (d <? GovernanceParams.maxVotingDuration s)) eqn:Hd;
      cbn [negb]; [|done].
    apply andb_true_iff in Hd as [H1 H2]. apply Z.ltb_lt in H1, H2.
    unfold governance_bounds. simpl. lia.
  - unfold GovernanceParams.setMaxVotingDuration.
    destruct (negb (GovernanceParams.onlyAdministrator env s)); [done|].
    destruct (GovernanceParams.minVotingDuration s <? d) eqn:Hd; cbn [negb]; [|done].
    apply Z.ltb_lt in Hd. unfold governance_bounds. simpl. lia.
  - unfold GovernanceParams.setDefaultQuorum.
    by destruct (negb (GovernanceParams.onlyAdministrator env s)).
  - unfold GovernanceParams.setMaxOptions.
    destruct (negb (GovernanceParams.onlyAdministrator env s)); [done|].
    destruct ((GovernanceParams.minOptions s <=? m) && (m <=? 100)) eqn:Hm;
      cbn [negb]; [|done].
    apply andb_true_iff in Hm as [H1 H2]. apply Z.leb_le in H1, H2.
    unfold governance_bounds. simpl. lia.
  - unfold GovernanceParams.setAdministrator.
    by destruct (negb (GovernanceParams.onlyOwner env s)).
  - unfold GovernanceParams.transferOwnership.
    destruct (negb (GovernanceParams.onlyOwner env s)); [done|].
    by destruct (newOwner =? 0).
Qed.

(** X17.  In every reachable state of [GovernanceParams] the minimum
    voting duration is positive and strictly below the maximum: the two
    setters cannot be combined, in any order and by any caller, into an
    empty or inverted range. *)
Theorem governance_duration_range s :
  GovernanceParams.reachable s ->
  0 < GovernanceParams.minVotingDuration s < GovernanceParams.maxVotingDuration s.
Proof.
  intros Hreach.
  enough (governance_bounds s) as (H & _); [exact H|].
  induction Hreach as [d|s env c Hreach IH].
  - unfold governance_bounds. simpl. unfold GovernanceParams.hours, days. lia.
  - by apply governance_bounds_step.
Qed.

Lemma governance_tuned_reachable : GovernanceParams.reachable governance_tuned.
Proof.
  apply GovernanceParams.reach_call, GovernanceParams.reach_call,
    GovernanceParams.reach_deploy.
Defined.

Lemma governance_duration_range_witness :
  0 < GovernanceParams.minVotingDuration governance_tuned
    < GovernanceParams.maxVotingDuration governance_tuned.
Proof.
  apply (governance_duration_range governance_tuned governance_tuned_reachable).
Defined.

(** X18.  No function writes [minOptions]: in every reachable state it is
    2, and [maxOptions] stays between it and 100. *)
Theorem governance_option_range s :
  GovernanceParams.reachable s ->
  GovernanceParams.minOptions s = 2
  /\ 2 <= GovernanceParams.maxOptions s <= 100.
Proof.
  intros Hreach.
  enough (governance_bounds s) as (_ & H); [exact H|].
  induction Hreach as [d|s env c Hreach IH].
  - unfold governance_bounds. simpl. unfold GovernanceParams.hours, days. lia.
  - by apply governance_bounds_step.
Qed.

Lemma governance_option_range_witness :
  GovernanceParams.minOptions governance_tuned = 2
  /\ 2 <= GovernanceParams.maxOptions governance_tuned <= 100.
Proof.
  apply (governance_option_range governance_tuned governance_tuned_reachable).
Defined.

(** X19.  Every function of [GovernanceParams] is gated: a call by an
    account that is neither the owner nor an administrator reverts,
    whatever the function and its arguments, and leaves the storage as it
    was. *)
Theorem governance_gated env c s :
  GovernanceParams.onlyAdministrator env s = false ->
  (exists reason, GovernanceParams.call env c s = GovernanceParams.Reverted reason)
  /\ GovernanceParams.after env c s = s.
Proof.
  intros Hadm.
  assert (Hown : GovernanceParams.onlyOwner env s = false).
  { unfold GovernanceParams.onlyAdministrator in Hadm.
    apply orb_false_iff in Hadm as [_ H]. exact H. }
  unfold GovernanceParams.after.
  destruct c; cbn [GovernanceParams.call];
    unfold GovernanceParams.setMinVotingDuration,
      GovernanceParams.setMaxVotingDuration, GovernanceParams.setDefaultQuorum,
      GovernanceParams.setMaxOptions, GovernanceParams.setAdministrator,
      GovernanceParams.transferOwnership;
    rewrite ?Hadm, ?Hown; cbn [negb]; eauto.
Qed.

Lemma governance_gated_witness :
  (exists reason,
     GovernanceParams.call (at_time carol 30) (GovernanceParams.SetMaxOptions 50)
       governance_tuned
     = GovernanceParams.Reverted reason)
  /\ GovernanceParams.after (at_time carol 30) (GovernanceParams.SetMaxOptions 50)
       governance_tuned = governance_tuned.
Proof.
  apply (governance_gated (at_time carol 30) (GovernanceParams.SetMaxOptions 50)
           governance_tuned).
  vm_compute. reflexivity.
Defined.

(** X20.  [transferOwnership] makes the new owner an administrator and
    revokes nothing: it emits no event, and a previous owner who held the
    administrator flag keeps it and still passes [onlyAdministrator], so
    that, for instance, the previous owner's [setDefaultQuorum] calls keep
    succeeding. *)
Theorem governance_transfer_keeps_administrators env newOwner s s' events :
  GovernanceParams.call env (GovernanceParams.TransferOwnership newOwner) s
  = GovernanceParams.Success s' events ->
  events = []
  /\ sender env = GovernanceParams.owner s
  /\ newOwner <> 0
  /\ GovernanceParams.owner s' = newOwner
  /\ GovernanceParams.is_administrator s' newOwner = true
  /\ (forall a, GovernanceParams.is_administrator s a = true ->
        GovernanceParams.is_administrator s' a = true)
  /\ (GovernanceParams.is_administrator s (sender env) = true ->
      forall env' quorum,
        sender env' = sender env ->
        exists s'' events',
          GovernanceParams.call env' (GovernanceParams.SetDefaultQuorum quorum) s'
          = GovernanceParams.Success s'' events'
          /\ GovernanceParams.defaultQuorum s'' = quorum).
Proof.
  cbn [GovernanceParams.call]. unfold GovernanceParams.transferOwnership.
  destruct (GovernanceParams.onlyOwner env s) eqn:Hown; cbn [negb]; [|done].
  destruct (newOwner =? 0) eqn:Hzero; [done|].
  intros [= <- <-]. apply Z.eqb_eq in Hown. apply Z.eqb_neq in Hzero.
  assert (Hkeep : forall a,
             GovernanceParams.is_administrator s a = true ->
             GovernanceParams.is_administrator
               {| GovernanceParams.owner := newOwner;
                  GovernanceParams.administrators :=
                    <[ newOwner := true ]> (GovernanceParams.administrators s);
                  GovernanceParams.minVotingDuration := GovernanceParams.minVotingDuration s;
                  GovernanceParams.maxVotingDuration := GovernanceParams.maxVotingDuration s;
                  GovernanceParams.defaultQuorum := GovernanceParams.defaultQuorum s;
                  GovernanceParams.maxOptions := GovernanceParams.maxOptions s;
                  GovernanceParams.minOptions := GovernanceParams.minOptions s |} a
             = true).
  { intros a Ha. unfold GovernanceParams.is_administrator in *. simpl.
    destruct (decide (newOwner = a)) as [->|Hne].
    - apply sload_insert_eq.
    - by rewrite sload_insert_ne. }
  repeat split; try done.
  - unfold GovernanceParams.is_administrator. simpl. apply sload_insert_eq.
  - intros Hadm env' quorum Hsender. cbn [GovernanceParams.call].
    unfold GovernanceParams.setDefaultQuorum, GovernanceParams.onlyAdministrator.
    rewrite Hsender. rewrite (Hkeep _ Hadm). cbn [orb negb]. eauto.
Qed.

Lemma governance_transfer_keeps_administrators_witness :
  exists s',
    GovernanceParams.call (at_time deployer 30)
      (GovernanceParams.TransferOwnership alice) governance_tuned
    = GovernanceParams.Success s' []
    /\ GovernanceParams.owner s' = alice
    /\ GovernanceParams.is_administrator s' deployer = true.
Proof.
  eexists. split; [vm_compute; reflexivity|].
  pose proof (governance_transfer_keeps_administrators (at_time deployer 30) alice
                governance_tuned _ [] ltac:(vm_compute; reflexivity))
    as (_ & _ & _ & Howner & _ & Hkeep & _).
  split; [exact Howner|]. apply Hkeep. vm_compute. reflexivity.
Defined.

Lemma governance_owner_step env c s :
  GovernanceParams.owner s <> 0 ->
  GovernanceParams.owner (GovernanceParams.after env c s) <> 0.
Proof.
  intros Hs. unfold GovernanceParams.after.
  destruct c as [d|d|q|m|account status|newOwner]; cbn [GovernanceParams.call].
  - unfold GovernanceParams.setMinVotingDuration.
    destruct (negb (GovernanceParams.onlyAdministrator env s)); [done|].
    by destruct (negb ((0 <? d) && (d <? GovernanceParams.maxVotingDuration s))).
  - unfold GovernanceParams.setMaxVotingDuration.
    destruct (negb (GovernanceParams.onlyAdministrator env s)); [done|].
    by destruct (negb (GovernanceParams.minVotingDuration s <? d)).
  - unfold GovernanceParams.setDefaultQuorum.
    by destruct (negb (GovernanceParams.onlyAdministrator env s)).
  - unfold GovernanceParams.setMaxOptions.
    destruct (negb (GovernanceParams.onlyAdministrator env s)); [done|].
    by destruct (negb ((GovernanceParams.minOptions s <=? m) && (m <=? 100))).
  - unfold GovernanceParams.setAdministrator.
    by destruct (negb (GovernanceParams.onlyOwner env s)).
  - unfold GovernanceParams.transferOwnership.
    destruct (negb (GovernanceParams.onlyOwner env s)); [done|].
    destruct (newOwner =? 0) eqn:Hz; [done|]. simpl. by apply Z.eqb_neq.
Qed.

(** X21.  Ownership of [GovernanceParams] cannot be lost to the zero
    address: deployed by a non-zero account, the contract has a non-zero
    owner in every later state. *)
Theorem governance_owner_never_zero d s :
  d <> 0 ->
  GovernanceParams.later (GovernanceParams.constructor d) s ->
  GovernanceParams.owner s <> 0.
Proof.
  intros Hd Hlater. induction Hlater as [|s env c Hlater IH]; [done|].
  by apply governance_owner_step.
Qed.

Lemma governance_owner_never_zero_witness :
  GovernanceParams.owner governance_tuned <> 0.
Proof.
  apply (governance_owner_never_zero deployer governance_tuned).
  - discriminate.
  - apply GovernanceParams.later_call, GovernanceParams.later_call,
      GovernanceParams.later_now.
Defined.
